(** * Dynamic Time Warping (pyts.metrics.dtw): shallow embedding and properties

    The module [pyts/metrics/dtw.py] is embedded function by function.

    Numeric model.  A float64 sample is modelled by a canonical rational
    ([Qc]) and the arithmetic on samples and costs is exact; the only
    non-finite value that the code manufactures is [np.inf], so a matrix
    cell is a [num]: a finite rational or plus infinity.  The product that
    gives the width of the Sakoe-Chiba band is rounded to float64
    ([b64_round]); the statements about the Itakura parallelogram are for
    the slopes at which its arithmetic is exact in float64.  [math.sqrt]
    is an external function and is a section variable ([fsqrt]); the one
    fact used about it (monotonicity) is a section hypothesis where it is
    needed.

    Arrays.  One-dimensional arrays are lists, two-dimensional float arrays
    are lists of rows, a 2 x k integer array (a region, a path) is a pair of
    rows.  Indices are Python integers ([Z]); a negative index wraps around
    once, as in numpy and numba. *)

From Stdlib Require Import ZArith QArith Qcanon Qround Qcabs Qpower Lia Lqa
  String.
From stdpp Require Import base numbers list strings gmap.

Local Open Scope Z_scope.

(** ** Numbers *)

Inductive num : Type :=
| Fin (q : Qc)
| PInf.

Definition nadd (a b : num) : num :=
  match a, b with
  | Fin p, Fin q => Fin (p + q)%Qc
  | _, _ => PInf
  end.

Definition nle (a b : num) : Prop :=
  match a, b with
  | _, PInf => True
  | PInf, Fin _ => False
  | Fin p, Fin q => (p ≤ q)%Qc
  end.

Definition nlt (a b : num) : Prop := ¬ nle b a.

Global Instance nle_dec : RelDecision nle.
Proof.
  intros [p|] [q|]; simpl; try (left; exact I); try (right; tauto).
  apply _.
Defined.

Global Instance nlt_dec : RelDecision nlt.
Proof. intros a b. unfold nlt. apply _. Defined.

Global Instance num_eq_dec : EqDecision num.
Proof. solve_decision. Defined.

(** Python's [min(a, b, c)]: the first of the smallest arguments. *)
Definition py_min2 (a b : num) : num := if decide (nlt b a) then b else a.
Definition py_min (a b c : num) : num := py_min2 (py_min2 a b) c.

(** [np.argmin]: the first index that holds the minimum. *)
Fixpoint argmin_from (best : num) (bi k : nat) (l : list num) : nat :=
  match l with
  | [] => bi
  | v :: l' =>
      if decide (nlt v best) then argmin_from v k (S k) l'
      else argmin_from best bi (S k) l'
  end.

Definition np_argmin (l : list num) : nat :=
  match l with
  | [] => 0%nat
  | v :: l' => argmin_from v 0 1 l'
  end.

(** ** Exceptions *)

Inductive exn : Type :=
| ValueError
| TypeError
| Stuck.  (* a jitted loop that does not return (its fuel ran out) *)

Inductive result (A : Type) : Type :=
| Ok (a : A)
| Raise (e : exn).
Global Arguments Ok {A} a.
Global Arguments Raise {A} e.

Global Instance result_ret : MRet result := λ A a, Ok a.
Global Instance result_bind : MBind result := λ A B f m,
  match m with
  | Ok a => f a
  | Raise e => Raise e
  end.

Definition guard_or (e : exn) (b : bool) : result unit :=
  if b then Ok tt else Raise e.

(** ** Arrays *)

Abbreviation vector := (list Qc).
Abbreviation matrix := (list (list num)).
Abbreviation int2 := (list Z * list Z)%type.

(** Index normalisation: [0 <= i < len] is itself, [-len <= i < 0] wraps. *)
Definition py_index (len : nat) (i : Z) : option nat :=
  if decide (0 ≤ i < Z.of_nat len) then Some (Z.to_nat i)
  else if decide (- Z.of_nat len ≤ i < 0) then Some (Z.to_nat (i + Z.of_nat len))
  else None.

(** Reads and writes of the jitted kernels.  numba does no bounds check; an
    index that is still out of range after wrapping reads [PInf] / [0] here
    and a write there is dropped.  What is stated below about the matrices
    that the kernels fill is stated for regions whose ranges stay in the
    grid, where no such access occurs. *)
Definition vec_get (x : vector) (i : Z) : Qc :=
  default 0%Qc (a ← py_index (length x) i; x !! a).

Definition int_get (x : list Z) (i : Z) : Z :=
  default 0 (a ← py_index (length x) i; x !! a).

Definition mat_get (m : matrix) (i j : Z) : num :=
  default PInf (a ← py_index (length m) i;
                row ← m !! a;
                b ← py_index (length row) j;
                row !! b).

Definition row_set (row : list num) (j : Z) (v : num) : list num :=
  match py_index (length row) j with
  | Some b => <[b := v]> row
  | None => row
  end.

Definition mat_set (m : matrix) (i j : Z) (v : num) : matrix :=
  match py_index (length m) i with
  | Some a => alter (λ row, row_set row j v) a m
  | None => m
  end.

(** [range(a, b)] *)
Definition py_range (a b : Z) : list Z := seqZ a (b - a).

(** [np.full((n, n), v)]; [np.empty] hands out an unspecified buffer, which
    is modelled as a buffer of zeros (every cell of it is overwritten before
    it is read, see [acc_no_region_cell]). *)
Definition np_full (n : Z) (v : num) : matrix :=
  replicate (Z.to_nat n) (replicate (Z.to_nat n) v).
Definition np_empty (n : Z) : matrix := np_full n (Fin 0%Qc).

(** [np.cumsum] of a one-dimensional array. *)
Fixpoint cumsum_from (s : num) (l : list num) : list num :=
  match l with
  | [] => []
  | a :: l' => let s' := nadd s a in s' :: cumsum_from s' l'
  end.
Definition np_cumsum (l : list num) : list num :=
  match l with
  | [] => []
  | a :: l' => a :: cumsum_from a l'
  end.

(** The end of a slice [0:h] on an axis of length [len]. *)
Definition slice_stop (len : nat) (h : Z) : nat :=
  if decide (h < 0) then Z.to_nat (Z.max 0 (Z.of_nat len + h))
  else Z.to_nat (Z.min h (Z.of_nat len)).

(** [m[i]] and [m[:, j]], and their prefixes [m[i, 0:k]], [m[0:k, j]]. *)
Definition get_row (m : matrix) (i : nat) : list num := default [] (m !! i).
Definition get_col (m : matrix) (j : nat) : list num :=
  (λ row, default PInf (row !! j)) <$> m.

(** [m[i, 0:len(vals)] = vals] and [m[0:len(vals), j] = vals] *)
Definition set_row_prefix (m : matrix) (i : nat) (vals : list num) : matrix :=
  alter (λ row, vals ++ drop (length vals) row) i m.
Definition set_col_prefix (m : matrix) (j : nat) (vals : list num) : matrix :=
  imap (λ a row, match vals !! a with
                 | Some v => <[j := v]> row
                 | None => row
                 end) m.

(** ** Distances *)

Definition _square (x y : Qc) : num := Fin ((x - y) * (x - y))%Qc.
Definition _absolute (x y : Qc) : num := Fin (Qcabs (x - y)).

(** What the call [dist(1, 1)] does for an object that is no distance: it
    raises, or it returns something that is neither an integer nor a
    float. *)
Inductive probe : Type :=
| ProbeRaises
| ProbeNotNumber.

(** The [dist] argument: a string, a numba-compiled binary function on
    numbers, or any other object, of which [cost_matrix] only makes the
    call [dist(1, 1)].  (An object that passes that call and is not a
    compiled function on numbers is outside the documented type.) *)
Inductive dist_arg : Type :=
| DStr (s : string)
| DCallable (f : Qc → Qc → num)
| DObject (p : probe).

Definition is_str (d : dist_arg) (s : string) : bool :=
  match d with
  | DStr s' => String.eqb s' s
  | DCallable _ | DObject _ => false
  end.

(** ** Cost matrix *)

Definition _cost_matrix_region (x y : vector) (dist : Qc → Qc → num)
    (region : int2) : matrix :=
  let n_timestamps := Z.of_nat (length x) in
  let cost_mat := np_full n_timestamps PInf in
  foldl (λ cost_mat j,
    foldl (λ cost_mat i,
        mat_set cost_mat i j (dist (vec_get x i) (vec_get y j)))
      cost_mat (py_range (int_get region.1 j) (int_get region.2 j)))
    cost_mat (py_range 0 n_timestamps).

Definition _cost_matrix_no_region (x y : vector) (dist : Qc → Qc → num)
    : matrix :=
  let n_timestamps := Z.of_nat (length x) in
  let cost_mat := np_empty n_timestamps in
  foldl (λ cost_mat j,
    foldl (λ cost_mat i,
        mat_set cost_mat i j (dist (vec_get x i) (vec_get y j)))
      cost_mat (py_range 0 n_timestamps))
    cost_mat (py_range 0 n_timestamps).

(** [check_array] accepts a non-empty one-dimensional array of finite
    floats; finiteness and dimension are in the type [vector]. *)
Definition _check_input_dtw (x y : vector) : result (vector * vector * Z) :=
  guard_or ValueError (negb (Nat.eqb (length x) 0));;
  guard_or ValueError (negb (Nat.eqb (length y) 0));;
  guard_or ValueError (Nat.eqb (length x) (length y));;
  Ok (x, y, Z.of_nat (length x)).

Definition region_shape_ok (region : int2) (n : nat) : bool :=
  Nat.eqb (length region.1) n && Nat.eqb (length region.2) n.

Definition cost_matrix (x y : vector) (dist : dist_arg)
    (region : option int2) : result matrix :=
  '(x, y, _) ← _check_input_dtw x y;
  dist_ ← (if is_str dist "square" then Ok _square
           else if is_str dist "absolute" then Ok _absolute
           else match dist with
                | DStr _ => Raise ValueError
                | DCallable f => let temp := f 1%Qc 1%Qc in Ok f
                | DObject ProbeRaises => Raise ValueError
                | DObject ProbeNotNumber => Raise ValueError
                end);
  match region with
  | Some region =>
      guard_or ValueError (region_shape_ok region (length x));;
      Ok (_cost_matrix_region x y dist_ region)
  | None => Ok (_cost_matrix_no_region x y dist_)
  end.

(** ** Accumulated cost matrix *)

Definition _accumulated_cost_matrix_region (cost_matrix : matrix)
    (region : int2) : matrix :=
  let n_timestamps := Z.of_nat (length cost_matrix) in
  let acc_cost_mat := np_full n_timestamps PInf in
  let k := slice_stop (length cost_matrix) (int_get region.2 0) in
  let acc_cost_mat :=
    set_row_prefix acc_cost_mat 0
      (np_cumsum (take k (get_row cost_matrix 0))) in
  let acc_cost_mat :=
    set_col_prefix acc_cost_mat 0
      (np_cumsum (take k (get_col cost_matrix 0))) in
  foldl (λ acc_cost_mat j,
    foldl (λ acc_cost_mat i,
        mat_set acc_cost_mat i j
          (nadd (mat_get cost_matrix i j)
             (py_min (mat_get acc_cost_mat (i - 1) (j - 1))
                     (mat_get acc_cost_mat (i - 1) j)
                     (mat_get acc_cost_mat i (j - 1)))))
      acc_cost_mat (py_range (int_get region.1 j) (int_get region.2 j)))
    acc_cost_mat (py_range 1 n_timestamps).

Definition _accumulated_cost_matrix_no_region (cost_matrix : matrix)
    : matrix :=
  let n_timestamps := Z.of_nat (length cost_matrix) in
  let acc_cost_mat := np_empty n_timestamps in
  let acc_cost_mat :=
    set_row_prefix acc_cost_mat 0 (np_cumsum (get_row cost_matrix 0)) in
  let acc_cost_mat :=
    set_col_prefix acc_cost_mat 0 (np_cumsum (get_col cost_matrix 0)) in
  foldl (λ acc_cost_mat j,
    foldl (λ acc_cost_mat i,
        mat_set acc_cost_mat i j
          (nadd (mat_get cost_matrix i j)
             (py_min (mat_get acc_cost_mat (i - 1) (j - 1))
                     (mat_get acc_cost_mat (i - 1) j)
                     (mat_get acc_cost_mat i (j - 1)))))
      acc_cost_mat (py_range 1 n_timestamps))
    acc_cost_mat (py_range 1 n_timestamps).

(** The shape of a rectangular two-dimensional array. *)
Definition mat_shape (m : matrix) : option (nat * nat) :=
  match m with
  | [] => Some (0, 0)%nat
  | row :: rest =>
      if forallb (λ r, Nat.eqb (length r) (length row)) rest
      then Some (length m, length row)
      else None
  end.

Definition accumulated_cost_matrix (cost_mat : matrix)
    (region : option int2) : result matrix :=
  match mat_shape cost_mat with
  | None => Raise ValueError
  | Some (rows, cols) =>
      guard_or ValueError (Nat.leb 2 rows && Nat.leb 2 cols);;
      guard_or ValueError (Nat.eqb rows cols);;
      match region with
      | None => Ok (_accumulated_cost_matrix_no_region cost_mat)
      | Some region =>
          guard_or ValueError (region_shape_ok region rows);;
          Ok (_accumulated_cost_matrix_region cost_mat region)
      end
  end.

(** ** Python values that reach the option checks *)

Inductive pyval : Type :=
| VInt (z : Z)
| VFloat (q : Qc)
| VStr (s : string).

(** ** Float products

    In [sakoe_chiba_band] a product of floats decides an integer, the
    width of the band, so that product is rounded as float64 rounds it.  A
    float is the rational it denotes. *)

(** [np.rint]: round half to even. *)
Definition np_rint (q : Qc) : Z :=
  let f := Qfloor q in
  let r := (q - Qc_of_Z f)%Qc in
  if decide (r < Q2Qc (1#2))%Qc then f
  else if decide (Q2Qc (1#2) < r)%Qc then f + 1
  else if Z.even f then f else f + 1.

(** [2 ** e], for an exponent of either sign. *)
Definition pow2 (e : Z) : Qc := Q2Qc (2 ^ e)%Q.

(** The exponent of the unit in the last place of the float64 nearest to
    [q]: 52 below the exponent of [q] (a significand of 53 bits), and
    never below -1074 (the subnormals). *)
Definition b64_exponent (q : Qc) : Z :=
  Z.max (Z.log2 (Qfloor (Qcabs q * pow2 1074)%Qc) - 1126) (-1074).

(** Rounding to the nearest float64, ties to the even significand.  Below
    [2 ** 53] in magnitude this is the rounding of IEEE 754 binary64.  From
    [2 ** 53] on the value is kept as it is: no such value arises from the
    length of an array that exists. *)
Definition b64_round (q : Qc) : Qc :=
  if decide (pow2 53 ≤ Qcabs q)%Qc then q
  else
    let u := pow2 (b64_exponent q) in
    (Qc_of_Z (np_rint (q / u)) * u)%Qc.

(** A decimal literal is the float nearest to it; [float(z)]; [a * b] on
    floats. *)
Definition float_lit (q : Q) : Qc := b64_round (Q2Qc q).
Definition float_of_int (z : Z) : Qc := b64_round (Qc_of_Z z).
Definition float_mul (a b : Qc) : Qc := b64_round (a * b).

(** ** Region generators *)

Definition np_clip (lo hi : Z) (v : Z) : Z := Z.min (Z.max v lo) hi.

(** [np.arange(n)] *)
Definition np_arange (n : Z) : list Z := seqZ 0 n.

(** [math.ceil] and [math.floor] / [np.ceil] and [np.floor] of a float. *)
Definition py_ceil (q : Qc) : Z := Qceiling q.
Definition py_floor (q : Qc) : Z := Qfloor q.

Definition sakoe_chiba_band (n_timestamps : Z) (window_size : pyval)
    : result int2 :=
  guard_or ValueError (bool_decide (2 ≤ n_timestamps));;
  window_size_ ←
    match window_size with
    | VStr _ => Raise TypeError
    | VInt w =>
        guard_or ValueError (bool_decide (0 ≤ w ≤ n_timestamps - 1));;
        Ok w
    | VFloat f =>
        guard_or ValueError (bool_decide (0 ≤ f ≤ 1)%Qc);;
        Ok (py_ceil (float_mul f (float_of_int (n_timestamps - 1))))
    end;
  let region := (np_arange n_timestamps, np_arange n_timestamps) in
  let region := ((λ v, v + - window_size_) <$> region.1,
                 (λ v, v + (window_size_ + 1)) <$> region.2) in
  Ok (np_clip 0 n_timestamps <$> region.1,
      np_clip 0 n_timestamps <$> region.2).

(** [np.round(v, 2)]: scale by 100, round to the nearest integer, scale
    back. *)
Definition np_round2 (q : Qc) : Qc :=
  (Qc_of_Z (np_rint (q * Qc_of_Z 100)) / Qc_of_Z 100)%Qc.

Definition qc_max (a b : Qc) : Qc := if decide (a < b)%Qc then b else a.
Definition qc_min (a b : Qc) : Qc := if decide (b < a)%Qc then b else a.

Definition itakura_parallelogram (n_timestamps : Z) (max_slope : pyval)
    : result int2 :=
  guard_or ValueError (bool_decide (2 ≤ n_timestamps));;
  max_slope ←
    match max_slope with
    | VStr _ => Raise TypeError
    | VInt z => Ok (Qc_of_Z z)
    | VFloat q => Ok q
    end;
  guard_or ValueError (bool_decide (1 ≤ max_slope)%Qc);;
  let min_slope := (1 / max_slope)%Qc in
  let lower_bound :=
    ((λ j, min_slope * Qc_of_Z j)%Qc <$> np_arange n_timestamps,
     (λ j, (1 - max_slope) * Qc_of_Z (n_timestamps - 1)
             + max_slope * Qc_of_Z j)%Qc <$> np_arange n_timestamps) in
  let lower_bound :=
    (np_round2 <$> lower_bound.1, np_round2 <$> lower_bound.2) in
  let lower_bound :=
    py_ceil <$> zip_with qc_max lower_bound.1 lower_bound.2 in
  let upper_bound :=
    ((λ j, max_slope * Qc_of_Z j)%Qc <$> np_arange n_timestamps,
     (λ j, (1 - min_slope) * Qc_of_Z (n_timestamps - 1)
             + min_slope * Qc_of_Z j)%Qc <$> np_arange n_timestamps) in
  let upper_bound :=
    (np_round2 <$> upper_bound.1, np_round2 <$> upper_bound.2) in
  let upper_bound :=
    (λ v, py_floor (v + 1)%Qc)
      <$> zip_with qc_min upper_bound.1 upper_bound.2 in
  Ok (lower_bound, upper_bound).

(** [np.repeat(a, k, axis=1)] on one row: every element [k] times in a
    row. *)
Definition np_repeat {A} (k : Z) (l : list A) : list A :=
  l ≫= replicate (Z.to_nat k).

(** [row[start:end] += d] *)
Definition slice_add (row : list Z) (start stop d : Z) : list Z :=
  imap (λ k v, if decide (start ≤ Z.of_nat k < stop) then v + d else v) row.

(** [np.min] / [np.max] of a one-dimensional integer array; both raise on
    an empty array. *)
Definition np_min (l : list Z) : result Z :=
  match l with
  | [] => Raise ValueError
  | v :: l' => Ok (foldl Z.min v l')
  end.
Definition np_max (l : list Z) : result Z :=
  match l with
  | [] => Raise ValueError
  | v :: l' => Ok (foldl Z.max v l')
  end.

(** [b[a == i]]: the entries of [b] at the positions where [a] holds [i]. *)
Definition mask_eq (a b : list Z) (i : Z) : list Z :=
  snd <$> filter (λ p, p.1 = i) (zip a b).

Definition _multiscale_region (n_timestamps resolution_level
    n_timestamps_reduced : Z) (path : int2) (radius : Z) : result int2 :=
  let path_length := Z.of_nat (length path.1) in
  let path_up := (np_repeat radius path.1, np_repeat radius path.2) in
  let path_down := path_up in
  let path_left := path_up in
  let path_right := path_up in
  let '(path_up, path_down, path_left, path_right) :=
    foldl (λ '(path_up, path_down, path_left, path_right) i,
        let start := path_length * (i - 1) in
        let stop := path_length * i in
        ((slice_add path_up.1 start stop i, path_up.2),
         (slice_add path_down.1 start stop (- i), path_down.2),
         (path_left.1, slice_add path_left.2 start stop (- i)),
         (path_right.1, slice_add path_right.2 start stop i)))
      (path_up, path_down, path_left, path_right)
      (py_range 1 (radius + 1)) in
  let path_radius :=
    (np_clip 0 (n_timestamps_reduced - 1) <$>
       (path.1 ++ path_up.1 ++ path_down.1 ++ path_left.1 ++ path_right.1),
     np_clip 0 (n_timestamps_reduced - 1) <$>
       (path.2 ++ path_up.2 ++ path_down.2 ++ path_left.2 ++ path_right.2))
  in
  region_reduced ←
    mapM (λ i,
        let arr := mask_eq path_radius.1 path_radius.2 i in
        min_ ← np_min arr;
        max_ ← np_max arr;
        Ok (min_ * resolution_level, (max_ + 1) * resolution_level))
      (py_range 0 n_timestamps_reduced);
  let region_reduced := (fst <$> region_reduced, snd <$> region_reduced) in
  let region := (np_repeat resolution_level region_reduced.1,
                 np_repeat resolution_level region_reduced.2) in
  let region := (take (Z.to_nat n_timestamps) region.1,
                 take (Z.to_nat n_timestamps) region.2) in
  Ok (np_clip 0 n_timestamps <$> region.1,
      np_clip 0 n_timestamps <$> region.2).

(** ** Path reconstruction *)

(** The [while] loop of [_return_path].  [fuel] bounds the number of
    iterations; [None] is a loop that has not returned within it (or whose
    [path[-1]] does not exist). *)
Fixpoint path_loop (fuel : nat) (acc_cost_mat : matrix) (path : list (Z * Z))
    : option (list (Z * Z)) :=
  match last path with
  | None => None
  | Some (i, j) =>
      if decide ((i, j) = (0, 0)) then Some path
      else
        match fuel with
        | O => None
        | S fuel =>
            if decide (i = 0) then
              path_loop fuel acc_cost_mat (path ++ [(0, j - 1)])
            else if decide (j = 0) then
              path_loop fuel acc_cost_mat (path ++ [(i - 1, 0)])
            else
              let arr := [mat_get acc_cost_mat (i - 1) (j - 1);
                          mat_get acc_cost_mat (i - 1) j;
                          mat_get acc_cost_mat i (j - 1)] in
              let argmin := np_argmin arr in
              if decide (argmin = 0%nat) then
                path_loop fuel acc_cost_mat (path ++ [(i - 1, j - 1)])
              else if decide (argmin = 1%nat) then
                path_loop fuel acc_cost_mat (path ++ [(i - 1, j)])
              else
                path_loop fuel acc_cost_mat (path ++ [(i, j - 1)])
        end
  end.

(** [np.transpose(np.array(path)[::-1])] *)
Definition np_transpose_pairs (path : list (Z * Z)) : int2 :=
  (fst <$> path, snd <$> path).

Definition _return_path (acc_cost_mat : matrix) : option int2 :=
  let n_timestamps := Z.of_nat (length acc_cost_mat) in
  path ← path_loop (2 * length acc_cost_mat) acc_cost_mat
            [(n_timestamps - 1, n_timestamps - 1)];
  Some (np_transpose_pairs (reverse path)).

(** ** Results *)

Inductive item : Type :=
| IDist (d : num)
| IMat (m : matrix)
| IPath (p : int2).

(** A call returns a bare value when only the distance is asked for, a
    tuple otherwise. *)
Inductive retval : Type :=
| Single (v : item)
| Tuple (res : list item).

Definition _return_results (dtw_dist : num) (cost_mat acc_cost_mat : matrix)
    (return_cost return_accumulated return_path : bool) : result retval :=
  let res := [IDist dtw_dist] in
  let res := if return_cost then res ++ [IMat cost_mat] else res in
  let res := if return_accumulated then res ++ [IMat acc_cost_mat] else res in
  res ← (if return_path then
           match _return_path acc_cost_mat with
           | Some path => Ok (res ++ [IPath path])
           | None => Raise Stuck
           end
         else Ok res);
  match res with
  | [v] => Ok (Single v)
  | _ => Ok (Tuple res)
  end.

(** ** Resolution reduction *)

(** [a.reshape(-1, k)] as a list of rows. *)
Fixpoint reshape_rows {A} (fuel : nat) (k : nat) (l : list A) : list (list A) :=
  match fuel with
  | O => []
  | S fuel =>
      match l with
      | [] => []
      | _ => take k l :: reshape_rows fuel k (drop k l)
      end
  end.

Definition qc_sum (l : list Qc) : Qc := foldl Qcplus 0%Qc l.

(** [a.reshape(-1, k).mean(axis=1)] *)
Definition block_mean (a : vector) (k : Z) : vector :=
  (λ row, qc_sum row / Qc_of_Z (Z.of_nat (length row)))%Qc
    <$> reshape_rows (length a) (Z.to_nat k) a.

(** The padding and averaging shared by [dtw_multiscale] and [dtw_fast]. *)
Definition reduce_resolution (x : vector) (n_timestamps resolution : Z)
    : vector :=
  let remainder := n_timestamps `mod` resolution in
  if decide (remainder ≠ 0) then
    let x_padded :=
      x ++ replicate (Z.to_nat (resolution - remainder)) (vec_get x (-1)) in
    block_mean x_padded resolution
  else block_mean x resolution.

(** [ceil(a / b)] for integers [a] and [b > 0]. *)
Definition ceil_div (a b : Z) : Z := - ((- a) `div` b).

(** [ceil(log2(n / m))] for [n > m > 0]: the least [k] with
    [n <= m * 2^k]. *)
Fixpoint ceil_log2_from (fuel : nat) (k n m : Z) : Z :=
  match fuel with
  | O => k
  | S fuel =>
      if decide (n ≤ m * 2 ^ k) then k else ceil_log2_from fuel (k + 1) n m
  end.
Definition ceil_log2_ratio (n m : Z) : Z := ceil_log2_from (Z.to_nat n) 0 n m.

(** ** The DTW variants *)

Section Variants.

(** [math.sqrt] on finite non-negative floats. *)
Variable fsqrt : Qc → Qc.

Definition math_sqrt (v : num) : result num :=
  match v with
  | PInf => Ok PInf
  | Fin q => if decide (q < 0)%Qc then Raise ValueError else Ok (Fin (fsqrt q))
  end.

Definition dtw_classic (x y : vector) (dist : dist_arg)
    (return_cost return_accumulated return_path : bool) : result retval :=
  '(x, y, n_timestamps) ← _check_input_dtw x y;
  cost_mat ← cost_matrix x y dist None;
  acc_cost_mat ← accumulated_cost_matrix cost_mat None;
  let dtw_dist := mat_get acc_cost_mat (-1) (-1) in
  dtw_dist ← (if is_str dist "square" then math_sqrt dtw_dist
              else Ok dtw_dist);
  _return_results dtw_dist cost_mat acc_cost_mat
    return_cost return_accumulated return_path.

Definition dtw_region (x y : vector) (dist : dist_arg) (region : option int2)
    (return_cost return_accumulated return_path : bool) : result retval :=
  '(x, y, n_timestamps) ← _check_input_dtw x y;
  match region with
  | Some region =>
      guard_or ValueError (region_shape_ok region (Z.to_nat n_timestamps))
  | None => Ok tt
  end;;
  cost_mat ← cost_matrix x y dist region;
  acc_cost_mat ← accumulated_cost_matrix cost_mat None;
  let dtw_dist := mat_get acc_cost_mat (-1) (-1) in
  dtw_dist ← (if is_str dist "square" then math_sqrt dtw_dist
              else Ok dtw_dist);
  _return_results dtw_dist cost_mat acc_cost_mat
    return_cost return_accumulated return_path.

Definition dtw_sakoechiba (x y : vector) (dist : dist_arg)
    (window_size : pyval)
    (return_cost return_accumulated return_path : bool) : result retval :=
  '(x, y, n_timestamps) ← _check_input_dtw x y;
  region ← sakoe_chiba_band n_timestamps window_size;
  cost_mat ← cost_matrix x y dist (Some region);
  acc_cost_mat ← accumulated_cost_matrix cost_mat None;
  let dtw_dist := mat_get acc_cost_mat (-1) (-1) in
  dtw_dist ← (if is_str dist "square" then math_sqrt dtw_dist
              else Ok dtw_dist);
  _return_results dtw_dist cost_mat acc_cost_mat
    return_cost return_accumulated return_path.

Definition dtw_itakura (x y : vector) (dist : dist_arg) (max_slope : pyval)
    (return_cost return_accumulated return_path : bool) : result retval :=
  '(x, y, n_timestamps) ← _check_input_dtw x y;
  region ← itakura_parallelogram n_timestamps max_slope;
  cost_mat ← cost_matrix x y dist (Some region);
  acc_cost_mat ← accumulated_cost_matrix cost_mat None;
  let dtw_dist := mat_get acc_cost_mat (-1) (-1) in
  dtw_dist ← (if is_str dist "square" then math_sqrt dtw_dist
              else Ok dtw_dist);
  _return_results dtw_dist cost_mat acc_cost_mat
    return_cost return_accumulated return_path.

(** [isinstance(v, int)] followed by a lower bound. *)
Definition check_int_ge (v : pyval) (bound : Z) : result Z :=
  match v with
  | VInt z => guard_or ValueError (bool_decide (bound ≤ z));; Ok z
  | _ => Raise TypeError
  end.

Definition path_or_stuck (acc_cost_mat : matrix) : result int2 :=
  match _return_path acc_cost_mat with
  | Some path => Ok path
  | None => Raise Stuck
  end.

Definition dtw_multiscale (x y : vector) (dist : dist_arg)
    (resolution radius : pyval)
    (return_cost return_accumulated return_path : bool) : result retval :=
  '(x, y, n_timestamps) ← _check_input_dtw x y;
  resolution ← check_int_ge resolution 1;
  radius ← check_int_ge radius 0;
  region ←
    (if decide (resolution = 1) then Ok None
     else
       let x_padded := reduce_resolution x n_timestamps resolution in
       let y_padded := reduce_resolution y n_timestamps resolution in
       cost_mat_res ← cost_matrix x_padded y_padded dist None;
       acc_cost_mat_res ← accumulated_cost_matrix cost_mat_res None;
       path_res ← path_or_stuck acc_cost_mat_res;
       region ← _multiscale_region n_timestamps resolution
                  (Z.of_nat (length x_padded)) path_res radius;
       Ok (Some region));
  cost_mat ← cost_matrix x y dist region;
  acc_cost_mat ← accumulated_cost_matrix cost_mat None;
  let dtw_dist := mat_get acc_cost_mat (-1) (-1) in
  dtw_dist ← (if is_str dist "square" then math_sqrt dtw_dist
              else Ok dtw_dist);
  _return_results dtw_dist cost_mat acc_cost_mat
    return_cost return_accumulated return_path.

(** The region that [dtw_fast] hands to the final computation: [None]
    unless the series is longer than [min_size], otherwise the outcome of
    the coarse-to-fine loop. *)
Definition fast_region (x y : vector) (n_timestamps : Z) (dist : dist_arg)
    (radius : Z) : result (option int2) :=
  let min_size := radius + 2 in
  let region := None in
  if decide (n_timestamps > min_size) then
    let n_recursions := ceil_log2_ratio n_timestamps min_size in
    foldl (λ (state : result (option int2)) i,
        region ← state;
        let resolution := 2 ^ (n_recursions - i) in
        let x_padded := reduce_resolution x n_timestamps resolution in
        let y_padded := reduce_resolution y n_timestamps resolution in
        cost_mat_res ← cost_matrix x_padded y_padded dist region;
        acc_cost_mat_res ← accumulated_cost_matrix cost_mat_res None;
        path_res ← path_or_stuck acc_cost_mat_res;
        let n_timestamps_next := ceil_div (2 * n_timestamps) resolution in
        region ← _multiscale_region n_timestamps_next 2
                   (Z.of_nat (length x_padded)) path_res radius;
        Ok (Some region))
      (Ok region) (py_range 0 n_recursions)
  else Ok region.

Definition dtw_fast (x y : vector) (dist : dist_arg) (radius : pyval)
    (return_cost return_accumulated return_path : bool) : result retval :=
  '(x, y, n_timestamps) ← _check_input_dtw x y;
  radius ← check_int_ge radius 0;
  region ← fast_region x y n_timestamps dist radius;
  cost_mat ← cost_matrix x y dist region;
  acc_cost_mat ← accumulated_cost_matrix cost_mat None;
  let dtw_dist := mat_get acc_cost_mat (-1) (-1) in
  dtw_dist ← (if is_str dist "square" then math_sqrt dtw_dist
              else Ok dtw_dist);
  _return_results dtw_dist cost_mat acc_cost_mat
    return_cost return_accumulated return_path.

(** ** Dispatch *)

(** [f(..., **options)]: a key that is not a keyword of [f] is a
    [TypeError]. *)
Definition check_kwargs (options : gmap string pyval) (allowed : list string)
    : result unit :=
  guard_or TypeError
    (forallb (λ kv, bool_decide (kv.1 ∈ allowed)) (map_to_list options)).

Definition kwarg (options : gmap string pyval) (key : string) (dflt : pyval)
    : pyval :=
  default dflt (options !! key).

Definition dtw (x y : vector) (dist : dist_arg) (method : string)
    (options : option (gmap string pyval))
    (return_cost return_accumulated return_path : bool) : result retval :=
  let options := default ∅ options in
  if String.eqb method "classic" then
    dtw_classic x y dist return_cost return_accumulated return_path
  else if String.eqb method "sakoechiba" then
    check_kwargs options ["window_size"];;
    dtw_sakoechiba x y dist
      (kwarg options "window_size" (VFloat (float_lit (1 # 10))))
      return_cost return_accumulated return_path
  else if String.eqb method "itakura" then
    check_kwargs options ["max_slope"];;
    dtw_itakura x y dist (kwarg options "max_slope" (VFloat (Qc_of_Z 2)))
      return_cost return_accumulated return_path
  else if String.eqb method "multiscale" then
    check_kwargs options ["resolution"; "radius"];;
    dtw_multiscale x y dist (kwarg options "resolution" (VInt 2))
      (kwarg options "radius" (VInt 0))
      return_cost return_accumulated return_path
  else if String.eqb method "fast" then
    check_kwargs options ["radius"];;
    dtw_fast x y dist (kwarg options "radius" (VInt 0))
      return_cost return_accumulated return_path
  else Raise ValueError.

End Variants.

(** * Vocabulary of the statements *)

(** ** Shapes and regions *)

Definition square_mat (n : nat) (m : matrix) : Prop :=
  length m = n ∧ Forall (λ row, length row = n) m.

(** A region whose row ranges stay inside the grid. *)
Definition region_in_grid (n : nat) (region : int2) : Prop :=
  length region.1 = n ∧ length region.2 = n ∧
  ∀ j, 0 ≤ j < Z.of_nat n →
    0 ≤ int_get region.1 j ∧ int_get region.2 j ≤ Z.of_nat n.

Definition in_region (region : int2) (i j : Z) : Prop :=
  int_get region.1 j ≤ i < int_get region.2 j.

(** Lower ends that are not negative, upper ends that do not exceed
    [n]. *)
Definition bounded (n : Z) (region : int2) : Prop :=
  Forall (λ v, 0 ≤ v) region.1 ∧ Forall (λ v, v ≤ n) region.2.

(** ** The recurrence *)

(** The running sum that [np.cumsum] computes. *)
Fixpoint psum (f : nat → num) (k : nat) : num :=
  match k with
  | O => f O
  | S k' => nadd (psum f k') (f k)
  end.

(** The dynamic-programming recurrence over a cost function: cumulative
    sums on the base row and the base column, cost plus the least of the
    three predecessors elsewhere. *)
Fixpoint dtw_rec (c : nat → nat → num) (i : nat) : nat → num :=
  match i with
  | O => psum (c O)
  | S i' =>
      fix row (j : nat) : num :=
        match j with
        | O => nadd (dtw_rec c i' O) (c i O)
        | S j' =>
            nadd (c i j)
              (py_min (dtw_rec c i' j') (dtw_rec c i' j) (row j'))
        end
  end.

Definition cost_fun (c : matrix) (a b : nat) : num :=
  mat_get c (Z.of_nat a) (Z.of_nat b).

Definition acc_spec (c : matrix) (i j : Z) : num :=
  dtw_rec (cost_fun c) (Z.to_nat i) (Z.to_nat j).

Definition nonneg (v : num) : Prop := nle (Fin 0%Qc) v.

(** A square matrix whose cells are all non-negative. *)
Definition cells_nonneg (n : nat) (m : matrix) : Prop :=
  square_mat n m ∧
  ∀ i j, 0 ≤ i < Z.of_nat n → 0 ≤ j < Z.of_nat n → nonneg (mat_get m i j).

(** The recurrence as the specification words it: a cell outside the
    region is infinite; a base-row or base-column cell of the region adds
    its cost to the running sum of the cells before it; any other cell of
    the region adds its cost to the least of its three predecessors. *)
Fixpoint claimed_acc (c : nat → nat → num) (R : nat → nat → bool) (i : nat)
    : nat → num :=
  match i with
  | O =>
      fix row (j : nat) : num :=
        if R O j then
          match j with
          | O => c O O
          | S j' => nadd (row j') (c O j)
          end
        else PInf
  | S i' =>
      fix row (j : nat) : num :=
        if R i j then
          match j with
          | O => nadd (claimed_acc c R i' O) (c i O)
          | S j' =>
              nadd (c i j)
                (py_min (claimed_acc c R i' j') (claimed_acc c R i' j)
                        (row j'))
          end
        else PInf
  end.

Definition region_mask (region : int2) (a b : nat) : bool :=
  bool_decide (in_region region (Z.of_nat a) (Z.of_nat b)).

(** ** Distances and results *)

(** The function that the [dist] argument denotes, when it denotes one. *)
Definition dist_fun (d : dist_arg) : option (Qc → Qc → num) :=
  if is_str d "square" then Some _square
  else if is_str d "absolute" then Some _absolute
  else match d with
       | DStr _ | DObject _ => None
       | DCallable f => Some f
       end.

Definition builtin (d : dist_arg) : Prop :=
  d = DStr "square" ∨ d = DStr "absolute".



(** The last cell of the accumulated cost matrix, and its final form. *)
Definition last_acc (n : nat) (cost_mat : matrix) : num :=
  dtw_rec (cost_fun cost_mat) (n - 1) (n - 1).

(** ** Paths *)

(** The predecessor with the smallest accumulated cost, ties broken in the
    order diagonal, up, left. *)
Definition best_pred (acc : matrix) (q : Z * Z) : Z * Z :=
  let '(i, j) := q in
  let diag := mat_get acc (i - 1) (j - 1) in
  let up := mat_get acc (i - 1) j in
  let left := mat_get acc i (j - 1) in
  if decide (nle diag up ∧ nle diag left) then (i - 1, j - 1)
  else if decide (nle up left) then (i - 1, j)
  else (i, j - 1).

(** The cell that one backtracking step appends after [q]. *)
Definition prev_cell (acc : matrix) (q : Z * Z) : Z * Z :=
  let '(i, j) := q in
  if decide (i = 0) then (0, j - 1)
  else if decide (j = 0) then (i - 1, 0)
  else best_pred acc q.

Definition back_step (acc : matrix) (q p : Z * Z) : Prop :=
  q ≠ (0, 0) ∧ 0 ≤ q.1 ∧ 0 ≤ q.2 ∧ p = prev_cell acc q.

Definition chain {A} (R : A → A → Prop) (l : list A) : Prop :=
  ∀ k a b, l !! k = Some a → l !! S k = Some b → R a b.

(** One of the three moves (diagonal, up, left) leads from [p] to [q]. *)
Definition allowed_move (p q : Z * Z) : Prop :=
  (q.1 = p.1 + 1 ∧ q.2 = p.2 + 1) ∨
  (q.1 = p.1 + 1 ∧ q.2 = p.2) ∨
  (q.1 = p.1 ∧ q.2 = p.2 + 1).

(** ** Regions *)

(** The Sakoe-Chiba band of half-width [w]: for column [j] the rows
    [max(0, j - w) .. min(n, j + w + 1)]. *)
Definition band (n w : Z) : int2 :=
  ((λ j, Z.max 0 (j - w)) <$> seqZ 0 n,
   (λ j, Z.min n (j + w + 1)) <$> seqZ 0 n).

(** The window in cells: an integer is itself, a float is a fraction of
    [n - 1], rounded up: [ceil(window_size * (n_timestamps - 1))], a
    product of floats. *)
Definition resolved_window (n : Z) (window_size : pyval) : option Z :=
  match window_size with
  | VInt w => if decide (0 ≤ w ≤ n - 1) then Some w else None
  | VFloat f =>
      if decide (0 ≤ f ≤ 1)%Qc
      then Some (Qceiling (float_mul f (float_of_int (n - 1))))
      else None
  | VStr _ => None
  end.

(** The slopes 1, 2 (the default) and 4, given as an integer or as a
    float.  At these slopes every value that [itakura_parallelogram]
    computes is a multiple of 1/4 of moderate size, which float64 holds
    exactly, as do the products by 100 and the quotients by 100 of
    [np.round]. *)
Definition dyadic_slope (max_slope : pyval) : Prop :=
  ∃ z, (z = 1 ∨ z = 2 ∨ z = 4) ∧
       (max_slope = VInt z ∨ max_slope = VFloat (Qc_of_Z z)).

(** [k / 2] *)
Definition half (k : Z) : Qc := (Qc_of_Z k / Qc_of_Z 2)%Qc.

(** The cells that the region is meant to be derived from: every path
    cell and its shifts by [1 .. radius] up, down, left and right, clipped
    to the coarse grid. *)
Definition dilated_cells (path : list (Z * Z)) (radius m : Z)
    : list (Z * Z) :=
  (λ c, (np_clip 0 (m - 1) c.1, np_clip 0 (m - 1) c.2)) <$>
    (path ++
     (c ← path; k ← seqZ 1 radius;
      [(c.1 + k, c.2); (c.1 - k, c.2); (c.1, c.2 - k); (c.1, c.2 + k)])).

(** The range claimed for coarse index [i]: [min * r .. (max + 1) * r]
    over the second coordinates of the dilated cells whose first
    coordinate is [i], clipped to [[0, n]]. *)
Definition claimed_range (path : list (Z * Z)) (radius m r n i : Z)
    : result (Z * Z) :=
  let vals := snd <$> filter (λ c, c.1 = i) (dilated_cells path radius m) in
  min_ ← np_min vals;
  max_ ← np_max vals;
  Ok (np_clip 0 n (min_ * r), np_clip 0 n ((max_ + 1) * r)).

Definition diagonal (m : Z) : list (Z * Z) := (λ k, (k, k)) <$> seqZ 0 m.

(** [m = ceil(n / r)] said with inequalities. *)
Definition is_ceil_div (n r m : Z) : Prop := r * (m - 1) < n ≤ r * m.

Section Tail.

Variable fsqrt : Qc → Qc.

(** The part that every variant runs once it has its cost matrix. *)
Definition dtw_tail (dist : dist_arg) (cost_mat : matrix)
    (return_cost return_accumulated return_path : bool) : result retval :=
  acc_cost_mat ← accumulated_cost_matrix cost_mat None;
  let dtw_dist := mat_get acc_cost_mat (-1) (-1) in
  dtw_dist ← (if is_str dist "square" then math_sqrt fsqrt dtw_dist
              else Ok dtw_dist);
  _return_results dtw_dist cost_mat acc_cost_mat
    return_cost return_accumulated return_path.

Definition final_value (dist : dist_arg) (v : num) : result num :=
  if is_str dist "square" then math_sqrt fsqrt v else Ok v.

(** A call (a variant with everything but the three return flags) runs
    the shared tail: whatever the flags, it is the tail on one cost matrix
    of its two series, computed under a region that satisfies [P] (when
    there is a region). *)
Definition runs_tail (P : int2 → Prop)
    (call : bool → bool → bool → result retval)
    (x y : vector) (d : dist_arg) : Prop :=
  ∃ region cm,
    (∀ reg, region = Some reg → P reg) ∧
    cost_matrix x y d region = Ok cm ∧
    ∀ rc ra rp, call rc ra rp = dtw_tail d cm rc ra rp.



End Tail.

(** ** Warping paths *)

(** The cost of a list of cells: the sum of their entries in the cost
    matrix. *)
Definition path_cost (c : matrix) (cells : list (Z * Z)) : num :=
  foldr (λ p s, nadd (mat_get c p.1 p.2) s) (Fin 0%Qc) cells.

(** A warping path of the [n x n] grid: from the first cell to the last
    cell by the three moves. *)
Definition warping_path (n : Z) (cells : list (Z * Z)) : Prop :=
  head cells = Some (0, 0) ∧ last cells = Some (n - 1, n - 1) ∧
  chain allowed_move cells.

(** A region that is the whole grid: every column allows the rows
    [0 .. n]. *)
Definition covers_grid (n : nat) (region : int2) : Prop :=
  length region.1 = n ∧ length region.2 = n ∧
  ∀ j, 0 ≤ j < Z.of_nat n →
    int_get region.1 j = 0 ∧ int_get region.2 j = Z.of_nat n.

(** ** Concrete inputs *)

(** Small numerals for examples. *)
Definition qz (z : Z) : Qc := Qc_of_Z z.
Definition fz (z : Z) : num := Fin (qz z).
Definition show (v : num) : option Q :=
  match v with Fin q => Some (this q) | PInf => None end.

Definition show_mat (m : matrix) : list (list (option Q)) :=
  List.map (List.map show) m.

Definition wrap_cost : matrix :=
  List.map (List.map fz)
    [[0; 100; 0; 0];
     [0; 100; 0; 0];
     [0; 100; 0; 0];
     [0; 0; 100; 0]].

Definition full_grid4 : int2 := ([0; 0; 0; 0], [4; 4; 4; 4]).

(** An executable monotone stand-in for [math.sqrt]: the integer square
    root of the floor. *)
Definition floor_sqrt (q : Qc) : Qc := Qc_of_Z (Z.sqrt (Qfloor q)).

Definition doc_x : vector := [qz 0; qz 1; qz 1].
Definition doc_y : vector := [qz 2; qz 0; qz 1].
Definition doc_region : int2 := ([0; 1; 1], [2; 2; 3]).

Definition doc_acc : matrix :=
  _accumulated_cost_matrix_no_region
    (_cost_matrix_no_region doc_x doc_y _square).



Definition doc_ret_plain : retval :=
  match dtw floor_sqrt doc_x doc_y (DStr "square") "itakura"
          (Some {[ "max_slope" := VFloat (Q2Qc (3 # 2)) ]})
          false false false with
  | Ok r => r
  | Raise _ => Tuple []
  end.

(** ** Tactics *)

Ltac case_decides :=
  repeat case_decide; try done; try lia; try (exfalso; lia).

Ltac qc2q :=
  unfold Qcle, Qclt, Qcminus, Qcplus, Qcopp, Qcmult, Q2Qc in *;
  simpl in *; rewrite ?Qred_correct in *.

(** * Properties *)

Lemma bind_Ok {A B} (m : result A) (f : A → result B) r :
  m ≫= f = Ok r → ∃ a, m = Ok a ∧ f a = Ok r.
Proof. destruct m as [a|e]; simpl; [by eauto|done]. Qed.

Lemma guard_or_Ok e b u : guard_or e b = Ok u → b = true.
Proof. by destruct b. Qed.

(** ** Arrays: reads after writes *)

Lemma py_index_in len i :
  0 ≤ i < Z.of_nat len → py_index len i = Some (Z.to_nat i).
Proof. intros Hi. unfold py_index. by rewrite decide_True. Qed.

Lemma py_index_wrap len i :
  - Z.of_nat len ≤ i < 0 → py_index len i = Some (Z.to_nat (i + Z.of_nat len)).
Proof.
  intros Hi. unfold py_index.
  rewrite decide_False by lia. by rewrite decide_True.
Qed.

Lemma square_row n m a row :
  square_mat n m → m !! a = Some row → length row = n.
Proof. intros [_ Hrows] Ha. exact (Forall_lookup_1 _ _ _ _ Hrows Ha). Qed.

Lemma square_row_ex n m a :
  square_mat n m → (a < n)%nat → ∃ row, m !! a = Some row ∧ length row = n.
Proof.
  intros Hsq Ha. destruct (lookup_lt_is_Some_2 m a) as [row Hrow].
  { destruct Hsq as [-> _]. done. }
  exists row. split; [done|]. by eapply square_row.
Qed.

Lemma mat_get_in n m i j :
  square_mat n m → 0 ≤ i < Z.of_nat n → 0 ≤ j < Z.of_nat n →
  mat_get m i j
  = default PInf (row ← m !! Z.to_nat i; row !! Z.to_nat j).
Proof.
  intros Hsq Hi Hj. unfold mat_get.
  rewrite py_index_in by (destruct Hsq as [-> _]; done). simpl.
  destruct (m !! Z.to_nat i) as [row|] eqn:Hrow; simpl; [|done].
  rewrite (square_row _ _ _ _ Hsq Hrow), py_index_in by done. done.
Qed.

Lemma mat_set_in n m i j v :
  square_mat n m → 0 ≤ i < Z.of_nat n → 0 ≤ j < Z.of_nat n →
  mat_set m i j v = alter (<[Z.to_nat j := v]>) (Z.to_nat i) m.
Proof.
  intros Hsq Hi Hj. unfold mat_set.
  rewrite py_index_in by (destruct Hsq as [-> _]; done).
  apply list_alter_ext; [|done]. intros row Hrow. unfold row_set.
  rewrite (square_row _ _ _ _ Hsq Hrow), py_index_in by done. done.
Qed.

Lemma mat_set_square n m i j v :
  square_mat n m → square_mat n (mat_set m i j v).
Proof.
  intros Hsq. pose proof Hsq as [Hlen Hrows]. unfold mat_set.
  destruct (py_index (length m) i) as [a|]; [|done].
  split; [by rewrite length_alter|].
  apply Forall_lookup. intros b row.
  rewrite list_lookup_alter. case_decide as Hab.
  - subst b. destruct (m !! a) as [row'|] eqn:Hrow'; simpl; [|done].
    intros [= <-]. unfold row_set.
    destruct (py_index _ j); rewrite ?length_insert;
      by eapply square_row.
  - intros Hrow. by eapply square_row.
Qed.

Lemma mat_get_set n m i j v i' j' :
  square_mat n m →
  0 ≤ i < Z.of_nat n → 0 ≤ j < Z.of_nat n →
  0 ≤ i' < Z.of_nat n → 0 ≤ j' < Z.of_nat n →
  mat_get (mat_set m i j v) i' j'
  = if decide (i' = i ∧ j' = j) then v else mat_get m i' j'.
Proof.
  intros Hsq Hi Hj Hi' Hj'.
  rewrite (mat_get_in n) by eauto using mat_set_square.
  rewrite (mat_get_in n m) by done.
  rewrite (mat_set_in n) by done.
  rewrite list_lookup_alter.
  destruct (square_row_ex n m (Z.to_nat i') Hsq) as (row' & Hrow' & Hlen');
    [lia|].
  case_decide as Hrow.
  - assert (i' = i) as -> by lia. rewrite Hrow'. simpl.
    rewrite list_lookup_insert by lia.
    case_decide as Hc; case_decide as Hd; try done; exfalso.
    + destruct Hc as [Hc _]. apply Hd. split; [done|lia].
    + destruct Hd as [_ ->]. lia.
  - rewrite decide_False by (intros [-> _]; done). by rewrite Hrow'.
Qed.

Lemma np_full_square n v : 0 ≤ n → square_mat (Z.to_nat n) (np_full n v).
Proof.
  intros Hn. unfold np_full. split; [by rewrite length_replicate|].
  apply Forall_replicate. by rewrite length_replicate.
Qed.

Lemma mat_get_full n v i j :
  0 ≤ i < n → 0 ≤ j < n → mat_get (np_full n v) i j = v.
Proof.
  intros Hi Hj.
  rewrite (mat_get_in (Z.to_nat n)) by (try apply np_full_square; lia).
  unfold np_full. rewrite lookup_replicate_2 by lia. simpl.
  by rewrite lookup_replicate_2 by lia.
Qed.

(** ** Loops over a range *)

(** The invariant rule for [for i in range(m, m + len)]. *)
Lemma foldl_range_ind {A} (P : Z → A → Prop) (f : A → Z → A) a0 m len :
  0 ≤ len →
  P m a0 →
  (∀ i a, m ≤ i < m + len → P i a → P (i + 1) (f a i)) →
  P (m + len) (foldl f a0 (seqZ m len)).
Proof.
  intros Hlen H0 Hstep.
  assert (∀ k : nat, Z.of_nat k ≤ len →
    P (m + Z.of_nat k) (foldl f a0 (seqZ m (Z.of_nat k)))) as Hk.
  { induction k as [|k IH]; intros Hk.
    - rewrite seqZ_nil by lia. simpl. by rewrite Z.add_0_r.
    - rewrite seqZ_S, foldl_snoc.
      replace (m + Z.of_nat (S k)) with (m + Z.of_nat k + 1) by lia.
      apply Hstep; [lia|]. apply IH. lia. }
  specialize (Hk (Z.to_nat len)). rewrite Z2Nat.id in Hk by done.
  apply Hk. lia.
Qed.

Lemma py_range_ind {A} (P : Z → A → Prop) (f : A → Z → A) a0 lo hi :
  lo ≤ hi →
  P lo a0 →
  (∀ i a, lo ≤ i < hi → P i a → P (i + 1) (f a i)) →
  P hi (foldl f a0 (py_range lo hi)).
Proof.
  intros Hle H0 Hstep. unfold py_range.
  replace hi with (lo + (hi - lo)) at 1 by lia.
  apply foldl_range_ind; [lia|done|].
  intros i a Hi. apply Hstep. lia.
Qed.

Lemma py_range_empty lo hi : hi ≤ lo → py_range lo hi = [].
Proof. intros. unfold py_range. apply seqZ_nil. lia. Qed.

(** ** Cost matrix: what every cell holds *)

Lemma cost_matrix_no_region_spec x y dist :
  let n := length x in
  let cm := _cost_matrix_no_region x y dist in
  square_mat n cm ∧
  ∀ i j, 0 ≤ i < Z.of_nat n → 0 ≤ j < Z.of_nat n →
    mat_get cm i j = dist (vec_get x i) (vec_get y j).
Proof.
  intros n cm. subst cm. unfold _cost_matrix_no_region. fold n.
  set (N := Z.of_nat n).
  pose (inv := λ (J : Z) (m : matrix), square_mat n m ∧
    ∀ i j, 0 ≤ i < N → 0 ≤ j < N → j < J →
      mat_get m i j = dist (vec_get x i) (vec_get y j)).
  assert (inv N (foldl (λ cost_mat j,
      foldl (λ cost_mat i,
        mat_set cost_mat i j (dist (vec_get x i) (vec_get y j)))
      cost_mat (py_range 0 N)) (np_empty N) (py_range 0 N))) as [Hsq Hall].
  { apply py_range_ind; [lia| |].
    - split.
      + unfold np_empty. rewrite <-(Nat2Z.id n). apply np_full_square. lia.
      + intros; lia.
    - intros J m HJ [Hsq Hm].
      pose (inv' := λ (I : Z) (m : matrix), square_mat n m ∧
        ∀ i j, 0 ≤ i < N → 0 ≤ j < N → j < J ∨ (j = J ∧ i < I) →
          mat_get m i j = dist (vec_get x i) (vec_get y j)).
      assert (inv' N (foldl (λ cost_mat i,
          mat_set cost_mat i J (dist (vec_get x i) (vec_get y J)))
        m (py_range 0 N))) as [Hsq' Hm'].
      { apply py_range_ind; [lia| |].
        - split; [done|]. intros i j Hi Hj Hc. apply Hm; lia.
        - intros I m' HI [Hsq' Hm']. split; [by apply mat_set_square|].
          intros i j Hi Hj Hc.
          rewrite (mat_get_set n) by (done || lia).
          case_decide as Hd; [by destruct Hd as [-> ->]|].
          apply Hm'; lia. }
      split; [done|]. intros i j Hi Hj Hc. apply Hm'; lia. }
  split; [done|]. intros i j Hi Hj. apply Hall; lia.
Qed.

Lemma cost_matrix_region_spec x y dist region :
  let n := length x in
  let cm := _cost_matrix_region x y dist region in
  region_in_grid n region →
  square_mat n cm ∧
  ∀ i j, 0 ≤ i < Z.of_nat n → 0 ≤ j < Z.of_nat n →
    mat_get cm i j
    = if decide (in_region region i j)
      then dist (vec_get x i) (vec_get y j) else PInf.
Proof.
  intros n cm (_ & _ & Hreg). subst cm. unfold _cost_matrix_region. fold n.
  set (N := Z.of_nat n) in *. unfold in_region.
  set (lo := int_get region.1) in *. set (hi := int_get region.2) in *.
  pose (inv := λ (J : Z) (m : matrix), square_mat n m ∧
    ∀ i j, 0 ≤ i < N → 0 ≤ j < N →
      mat_get m i j
      = if decide (j < J ∧ lo j ≤ i < hi j)
        then dist (vec_get x i) (vec_get y j) else PInf).
  assert (inv N (foldl (λ cost_mat j,
      foldl (λ cost_mat i,
        mat_set cost_mat i j (dist (vec_get x i) (vec_get y j)))
      cost_mat (py_range (lo j) (hi j))) (np_full N PInf) (py_range 0 N)))
    as [Hsq Hall].
  { apply py_range_ind; [lia| |].
    - split.
      + rewrite <-(Nat2Z.id n). apply np_full_square. lia.
      + intros i j Hi Hj. rewrite mat_get_full by done. case_decides.
    - intros J m HJ [Hsq Hm]. destruct (Hreg J HJ) as [Hlo Hhi].
      destruct (decide (lo J ≤ hi J)) as [Hle|Hgt].
      2:{ rewrite py_range_empty by lia. simpl. split; [done|].
          intros i j Hi Hj. rewrite Hm by done.
          destruct (decide (j = J)) as [->|]; case_decides. }
      pose (inv' := λ (I : Z) (m : matrix), square_mat n m ∧
        ∀ i j, 0 ≤ i < N → 0 ≤ j < N →
          mat_get m i j
          = if decide ((j < J ∧ lo j ≤ i < hi j) ∨ (j = J ∧ lo J ≤ i < I))
            then dist (vec_get x i) (vec_get y j) else PInf).
      assert (inv' (hi J) (foldl (λ cost_mat i,
          mat_set cost_mat i J (dist (vec_get x i) (vec_get y J)))
        m (py_range (lo J) (hi J)))) as [Hsq' Hm'].
      { apply py_range_ind; [lia| |].
        - split; [done|]. intros i j Hi Hj. rewrite Hm by done.
          case_decides.
        - intros I m' HI [Hsq' Hm']. split; [by apply mat_set_square|].
          intros i j Hi Hj.
          rewrite (mat_get_set n) by (done || lia).
          case_decide as Hd.
          + destruct Hd as [-> ->]. case_decides.
          + rewrite Hm' by done. case_decides. }
      split; [done|]. intros i j Hi Hj. rewrite Hm' by done.
      destruct (decide (j = J)) as [->|]; case_decides. }
  split; [done|]. intros i j Hi Hj. rewrite Hall by done. case_decides.
Qed.

(** ** Accumulated cost matrix: the recurrence *)

Lemma dtw_rec_col0 c i : dtw_rec c i 0 = psum (λ a, c a O) i.
Proof. induction i as [|i IH]; [done|]. simpl. by rewrite IH. Qed.

Lemma acc_spec_row0 c j :
  0 ≤ j → acc_spec c 0 j = psum (cost_fun c 0) (Z.to_nat j).
Proof. done. Qed.

Lemma acc_spec_col0 c i :
  0 ≤ i → acc_spec c i 0 = psum (λ a, cost_fun c a 0) (Z.to_nat i).
Proof. intros. unfold acc_spec. apply dtw_rec_col0. Qed.

Lemma acc_spec_step c i j :
  1 ≤ i → 1 ≤ j →
  acc_spec c i j
  = nadd (mat_get c i j)
      (py_min (acc_spec c (i - 1) (j - 1)) (acc_spec c (i - 1) j)
              (acc_spec c i (j - 1))).
Proof.
  intros Hi Hj. unfold acc_spec.
  replace (Z.to_nat i) with (S (Z.to_nat (i - 1))) by lia.
  replace (Z.to_nat j) with (S (Z.to_nat (j - 1))) by lia.
  simpl. unfold cost_fun.
  replace (Z.of_nat (S (Z.to_nat (i - 1)))) with i by lia.
  replace (Z.of_nat (S (Z.to_nat (j - 1)))) with j by lia.
  done.
Qed.

Lemma length_cumsum_from s l : length (cumsum_from s l) = length l.
Proof. revert s. induction l; intros; simpl; auto. Qed.

Lemma length_np_cumsum l : length (np_cumsum l) = length l.
Proof. destruct l; simpl; [done|]. by rewrite length_cumsum_from. Qed.

Lemma cumsum_from_lookup (f : nat → num) k0 l :
  (∀ k, (k < length l)%nat → l !! k = Some (f (S k0 + k)%nat)) →
  ∀ k, (k < length l)%nat →
    cumsum_from (psum f k0) l !! k = Some (psum f (S k0 + k)).
Proof.
  revert k0. induction l as [|a l IH]; intros k0 Hl k Hk.
  { simpl in Hk. lia. }
  assert (a = f (S k0)) as ->.
  { specialize (Hl 0%nat). simpl in Hl. rewrite Nat.add_0_r in Hl.
    assert (Some a = Some (f (S k0))) as [= ->] by (apply Hl; lia). done. }
  assert (Hl' : ∀ k', (k' < length l)%nat →
                  l !! k' = Some (f (S (S k0) + k')%nat)).
  { intros k' Hlt. specialize (Hl (S k')). simpl in Hl. rewrite Hl by lia.
    do 2 f_equal. lia. }
  destruct k as [|k].
  - simpl. by rewrite Nat.add_0_r.
  - simpl in Hk. assert (Hk' : (k < length l)%nat) by lia.
    pose proof (IH (S k0) Hl' k Hk') as Hgoal.
    change (cumsum_from (psum f k0) (f (S k0) :: l) !! S k)
      with (cumsum_from (psum f (S k0)) l !! k).
    rewrite Hgoal. do 2 f_equal. lia.
Qed.

Lemma np_cumsum_lookup (f : nat → num) l :
  (∀ k, (k < length l)%nat → l !! k = Some (f k)) →
  ∀ k, (k < length l)%nat → np_cumsum l !! k = Some (psum f k).
Proof.
  intros Hl k Hk. destruct l as [|a l]; [simpl in Hk; lia|].
  assert (a = f 0%nat) as ->.
  { assert (Some a = Some (f 0%nat)) as [= ->]; [|done].
    apply (Hl 0%nat). simpl. lia. }
  destruct k as [|k]; [done|].
  simpl in Hk. assert (Hk' : (k < length l)%nat) by lia.
  assert (Hl' : ∀ k', (k' < length l)%nat →
                  l !! k' = Some (f (1 + k')%nat)).
  { intros k' Hlt. apply (Hl (S k')). simpl. lia. }
  exact (cumsum_from_lookup f 0 l Hl' k Hk').
Qed.

(** The state after the two [np.cumsum] assignments. *)
Lemma acc_base n (c acc0 : matrix) :
  (0 < n)%nat → square_mat n c → square_mat n acc0 →
  let acc :=
    set_col_prefix
      (set_row_prefix acc0 0 (np_cumsum (get_row c 0)))
      0 (np_cumsum (get_col c 0)) in
  square_mat n acc ∧
  ∀ i j, 0 ≤ i < Z.of_nat n → 0 ≤ j < Z.of_nat n → i = 0 ∨ j = 0 →
    mat_get acc i j = acc_spec c i j.
Proof.
  intros Hn Hc Hacc0 acc.
  destruct (square_row_ex n c 0 Hc Hn) as (row0 & Hrow0 & Hlen0).
  destruct (square_row_ex n acc0 0 Hacc0 Hn) as (arow0 & Harow0 & Halen0).
  assert (Hr : ∀ k, (k < n)%nat →
    np_cumsum (get_row c 0) !! k = Some (psum (cost_fun c 0) k)).
  { intros k Hk. apply np_cumsum_lookup.
    - unfold get_row. rewrite Hrow0. simpl. intros k' Hk'.
      unfold cost_fun. rewrite (mat_get_in n) by (done || lia).
      rewrite !Nat2Z.id. simpl. rewrite Hrow0. simpl.
      destruct (lookup_lt_is_Some_2 row0 k' Hk') as [v ->]. done.
    - unfold get_row. rewrite Hrow0. simpl. lia. }
  assert (Hcl : ∀ k, (k < n)%nat →
    np_cumsum (get_col c 0) !! k = Some (psum (λ a, cost_fun c a 0) k)).
  { intros k Hk. apply np_cumsum_lookup.
    - unfold get_col. rewrite length_fmap. intros k' Hk'.
      rewrite list_lookup_fmap.
      destruct Hc as [Hclen Hcrows]. rewrite Hclen in Hk'.
      destruct (square_row_ex n c k' (conj Hclen Hcrows) Hk')
        as (rowk & Hrowk & Hlenk).
      rewrite Hrowk. simpl. unfold cost_fun.
      rewrite (mat_get_in n) by (done || lia).
      rewrite !Nat2Z.id. rewrite Hrowk. simpl.
      destruct (lookup_lt_is_Some_2 rowk 0) as [v ->]; [lia|]. done.
    - unfold get_col. rewrite length_fmap. destruct Hc as [-> _]. done. }
  assert (Hlr : length (np_cumsum (get_row c 0)) = n).
  { rewrite length_np_cumsum. unfold get_row. by rewrite Hrow0. }
  assert (Hsq1 : square_mat n
    (set_row_prefix acc0 0 (np_cumsum (get_row c 0)))).
  { destruct Hacc0 as [Hal Har]. split.
    - unfold set_row_prefix. by rewrite length_alter.
    - apply Forall_lookup. intros a row. unfold set_row_prefix.
      rewrite list_lookup_alter. case_decide as Ha.
      + subst a. rewrite Harow0. simpl. intros [= <-].
        rewrite length_app, length_drop. lia.
      + intros Hrow. exact (Forall_lookup_1 _ _ _ _ Har Hrow). }
  assert (Hsq2 : square_mat n acc).
  { destruct Hsq1 as [Hl1 Hr1]. subst acc. split.
    - unfold set_col_prefix. by rewrite length_imap.
    - apply Forall_lookup. intros a row. unfold set_col_prefix.
      rewrite list_lookup_imap.
      destruct (set_row_prefix _ _ _ !! a) as [row'|] eqn:Hrow'; simpl;
        [|done].
      intros [= <-]. pose proof (Forall_lookup_1 _ _ _ _ Hr1 Hrow').
      destruct (np_cumsum _ !! a); by rewrite ?length_insert. }
  split; [done|]. intros i j Hi Hj Hij.
  rewrite (mat_get_in n) by done. subst acc. unfold set_col_prefix.
  rewrite list_lookup_imap.
  destruct (square_row_ex n _ (Z.to_nat i) Hsq1) as (row & Hrow & Hlen);
    [lia|].
  rewrite Hrow. simpl. rewrite (Hcl (Z.to_nat i)) by lia.
  destruct (decide (j = 0)) as [->|Hj0].
  - simpl. rewrite list_lookup_insert_eq by lia. simpl.
    by rewrite acc_spec_col0 by lia.
  - assert (i = 0) as -> by lia.
    rewrite list_lookup_insert_ne by lia.
    unfold set_row_prefix in Hrow. simpl in Hrow.
    rewrite list_lookup_alter_eq, Harow0 in Hrow. simpl in Hrow.
    injection Hrow as <-.
    rewrite lookup_app_l by lia. rewrite (Hr (Z.to_nat j)) by lia. done.
Qed.

Theorem acc_no_region_cell n (c : matrix) :
  (0 < n)%nat → square_mat n c →
  square_mat n (_accumulated_cost_matrix_no_region c) ∧
  ∀ i j, 0 ≤ i < Z.of_nat n → 0 ≤ j < Z.of_nat n →
    mat_get (_accumulated_cost_matrix_no_region c) i j = acc_spec c i j.
Proof.
  intros Hn Hc. unfold _accumulated_cost_matrix_no_region.
  pose proof Hc as [Hlen _]. rewrite Hlen. set (N := Z.of_nat n).
  destruct (acc_base n c (np_empty N) Hn Hc) as [Hsq0 Hbase].
  { unfold np_empty. rewrite <-(Nat2Z.id n). apply np_full_square. lia. }
  set (acc0 := set_col_prefix _ _ _) in *.
  pose (inv := λ (J : Z) (m : matrix), square_mat n m ∧
    ∀ i j, 0 ≤ i < N → 0 ≤ j < N → i = 0 ∨ j < J →
      mat_get m i j = acc_spec c i j).
  match goal with |- square_mat n ?r ∧ _ => assert (inv N r) as [Hsq Hall] end.
  { apply py_range_ind; [lia| |].
    - split; [done|]. intros i j Hi Hj Hc'. apply Hbase; lia.
    - intros J m HJ [Hsq Hm].
      pose (inv' := λ (I : Z) (m : matrix), square_mat n m ∧
        ∀ i j, 0 ≤ i < N → 0 ≤ j < N →
          i = 0 ∨ j < J ∨ (j = J ∧ i < I) →
          mat_get m i j = acc_spec c i j).
      match goal with |- inv _ ?r => assert (inv' N r) as [Hsq' Hm'] end.
      { apply py_range_ind; [lia| |].
        - split; [done|]. intros i j Hi Hj Hc'. apply Hm; lia.
        - intros I m' HI [Hsq' Hm']. split; [by apply mat_set_square|].
          intros i j Hi Hj Hc'.
          rewrite (mat_get_set n) by (done || lia).
          case_decide as Hd.
          + destruct Hd as [-> ->].
            rewrite !Hm' by lia. by rewrite (acc_spec_step c I J) by lia.
          + apply Hm'; lia. }
      split; [done|]. intros i j Hi Hj Hc'. apply Hm'; lia. }
  split; [done|]. intros i j Hi Hj. apply Hall; lia.
Qed.

(** ** The order on numbers *)

Global Instance nle_refl : Reflexive nle.
Proof. intros [p|]; simpl; [apply Qcle_refl|done]. Qed.

Global Instance nle_trans : Transitive nle.
Proof.
  intros [p|] [q|] [r|]; simpl; try done.
  apply Qcle_trans.
Qed.

Lemma nle_antisym a b : nle a b → nle b a → a = b.
Proof.
  destruct a as [p|], b as [q|]; simpl; try done.
  intros H1 H2. f_equal. by apply Qcle_antisym.
Qed.

Lemma nle_total a b : nle a b ∨ nle b a.
Proof.
  destruct a as [p|], b as [q|]; simpl; auto.
  destruct (Qclt_le_dec p q); [left; by apply Qclt_le_weak | by right].
Qed.

Lemma nle_inf a : nle a PInf.
Proof. by destruct a. Qed.

Lemma nadd_mono a a' b b' : nle a a' → nle b b' → nle (nadd a b) (nadd a' b').
Proof.
  destruct a as [p|], a' as [p'|], b as [q|], b' as [q'|]; simpl; try done.
  apply Qcplus_le_compat.
Qed.

Lemma py_min2_le_l a b : nle (py_min2 a b) a.
Proof.
  unfold py_min2, nlt. case_decide as H; [|done].
  destruct (nle_total a b); [done|]. done.
Qed.

Lemma py_min2_le_r a b : nle (py_min2 a b) b.
Proof.
  unfold py_min2, nlt. case_decide as H; done.
Qed.

Lemma py_min2_glb a b c : nle c a → nle c b → nle c (py_min2 a b).
Proof. intros. unfold py_min2. by case_decide. Qed.

Lemma py_min2_mono a a' b b' :
  nle a a' → nle b b' → nle (py_min2 a b) (py_min2 a' b').
Proof.
  intros Ha Hb. apply py_min2_glb.
  - etrans; [apply py_min2_le_l|done].
  - etrans; [apply py_min2_le_r|done].
Qed.

Lemma py_min2_comm a b : py_min2 a b = py_min2 b a.
Proof.
  apply nle_antisym; apply py_min2_glb;
    auto using py_min2_le_l, py_min2_le_r.
Qed.

Lemma py_min2_assoc a b c :
  py_min2 (py_min2 a b) c = py_min2 a (py_min2 b c).
Proof.
  apply nle_antisym; repeat apply py_min2_glb.
  - etrans; [apply py_min2_le_l|apply py_min2_le_l].
  - etrans; [apply py_min2_le_l|apply py_min2_le_r].
  - apply py_min2_le_r.
  - apply py_min2_le_l.
  - etrans; [apply py_min2_le_r|apply py_min2_le_l].
  - etrans; [apply py_min2_le_r|apply py_min2_le_r].
Qed.

Lemma py_min_swap a b c : py_min a b c = py_min a c b.
Proof.
  unfold py_min.
  by rewrite py_min2_assoc, (py_min2_comm b c), <-py_min2_assoc.
Qed.

Lemma py_min_mono a a' b b' c c' :
  nle a a' → nle b b' → nle c c' → nle (py_min a b c) (py_min a' b' c').
Proof. intros. unfold py_min. auto using py_min2_mono. Qed.

(** ** The recurrence: extensionality, transposition, monotonicity *)

Lemma psum_ext f g k : (∀ a, f a = g a) → psum f k = psum g k.
Proof. intros H. induction k as [|k IH]; simpl; by rewrite ?IH, H. Qed.

Lemma dtw_rec_S c i j :
  dtw_rec c (S i) (S j)
  = nadd (c (S i) (S j))
      (py_min (dtw_rec c i j) (dtw_rec c i (S j)) (dtw_rec c (S i) j)).
Proof. done. Qed.

Lemma dtw_rec_S_0 c i : dtw_rec c (S i) 0 = nadd (dtw_rec c i 0) (c (S i) O).
Proof. done. Qed.

Lemma dtw_rec_0 c j : dtw_rec c 0 j = psum (c O) j.
Proof. done. Qed.

Lemma dtw_rec_ext c c' i j :
  (∀ a b, c a b = c' a b) → dtw_rec c i j = dtw_rec c' i j.
Proof.
  intros H. revert j. induction i as [|i IHi]; intros j.
  - rewrite !dtw_rec_0. by apply psum_ext.
  - induction j as [|j IHj].
    + by rewrite !dtw_rec_S_0, IHi, H.
    + by rewrite !dtw_rec_S, !IHi, IHj, H.
Qed.

Lemma dtw_rec_transpose c i j :
  dtw_rec (λ a b, c b a) j i = dtw_rec c i j.
Proof.
  revert j. induction i as [|i IHi]; intros j.
  - by rewrite dtw_rec_col0, dtw_rec_0.
  - induction j as [|j IHj].
    + by rewrite dtw_rec_0, dtw_rec_col0.
    + rewrite !dtw_rec_S, !IHi, IHj. f_equal. apply py_min_swap.
Qed.

Lemma psum_mono f g k :
  (∀ a, nle (f a) (g a)) → nle (psum f k) (psum g k).
Proof. intros H. induction k; simpl; auto using nadd_mono. Qed.

Lemma dtw_rec_mono c c' i j :
  (∀ a b, nle (c a b) (c' a b)) → nle (dtw_rec c i j) (dtw_rec c' i j).
Proof.
  intros H. revert j. induction i as [|i IHi]; intros j.
  - rewrite !dtw_rec_0. by apply psum_mono.
  - induction j as [|j IHj].
    + rewrite !dtw_rec_S_0. auto using nadd_mono.
    + rewrite !dtw_rec_S. auto using nadd_mono, py_min_mono.
Qed.

Lemma nadd_nonneg a b : nonneg a → nonneg b → nonneg (nadd a b).
Proof.
  unfold nonneg. intros Ha Hb.
  change (Fin 0%Qc) with (nadd (Fin 0%Qc) (Fin 0%Qc)).
  by apply nadd_mono.
Qed.

Lemma py_min_nonneg a b c :
  nonneg a → nonneg b → nonneg c → nonneg (py_min a b c).
Proof. unfold nonneg, py_min. auto using py_min2_glb. Qed.

Lemma psum_nonneg f k : (∀ a, nonneg (f a)) → nonneg (psum f k).
Proof. intros H. induction k; simpl; auto using nadd_nonneg. Qed.

Lemma dtw_rec_nonneg c i j :
  (∀ a b, nonneg (c a b)) → nonneg (dtw_rec c i j).
Proof.
  intros H. revert j. induction i as [|i IHi]; intros j.
  - rewrite dtw_rec_0. by apply psum_nonneg.
  - induction j as [|j IHj].
    + rewrite dtw_rec_S_0. auto using nadd_nonneg.
    + rewrite dtw_rec_S. auto using nadd_nonneg, py_min_nonneg.
Qed.

(** ** The pipeline shared by the variants *)

Lemma check_input_ok x y :
  length x = length y → (0 < length x)%nat →
  _check_input_dtw x y = Ok (x, y, Z.of_nat (length x)).
Proof.
  intros Hxy Hx. unfold _check_input_dtw.
  rewrite <-Hxy, Nat.eqb_refl.
  destruct (length x) eqn:E; [lia|]. done.
Qed.

Lemma check_input_inv x y r :
  _check_input_dtw x y = Ok r →
  r = (x, y, Z.of_nat (length x)) ∧ length x = length y ∧ (0 < length x)%nat.
Proof.
  unfold _check_input_dtw. intros H.
  destruct (length x) as [|n] eqn:Ex; [done|].
  destruct (length y) as [|n'] eqn:Ey; [done|]. simpl in H.
  destruct (Nat.eqb n n') eqn:E; simpl in H; [|done].
  apply Nat.eqb_eq in E. subst n'. injection H as <-.
  split_and!; [done|done|lia].
Qed.

Lemma cost_matrix_inv x y d region cm :
  cost_matrix x y d region = Ok cm →
  length x = length y ∧ (0 < length x)%nat ∧
  ∃ dist_, dist_fun d = Some dist_ ∧
    match region with
    | None => cm = _cost_matrix_no_region x y dist_
    | Some region =>
        region_shape_ok region (length x) = true ∧
        cm = _cost_matrix_region x y dist_ region
    end.
Proof.
  unfold cost_matrix. intros H.
  destruct (_check_input_dtw x y) as [r|] eqn:Hchk; [|done].
  apply check_input_inv in Hchk as (-> & Hxy & Hx). simpl in H.
  split; [done|]. split; [done|]. unfold dist_fun.
  destruct (is_str d "square"); simpl in H.
  { exists _square. split; [done|].
    destruct region as [region|]; [|by injection H].
    destruct (region_shape_ok _ _); simpl in H; [|done]. by injection H. }
  destruct (is_str d "absolute"); simpl in H.
  { exists _absolute. split; [done|].
    destruct region as [region|]; [|by injection H].
    destruct (region_shape_ok _ _); simpl in H; [|done]. by injection H. }
  destruct d as [s|f|[]]; [done| |done|done]. simpl in H.
  exists f. split; [done|].
  destruct region as [region|]; [|by injection H].
  destruct (region_shape_ok _ _); simpl in H; [|done]. by injection H.
Qed.

Lemma cost_matrix_ok x y d region dist_ :
  length x = length y → (0 < length x)%nat → dist_fun d = Some dist_ →
  cost_matrix x y d region
  = match region with
    | None => Ok (_cost_matrix_no_region x y dist_)
    | Some region =>
        guard_or ValueError (region_shape_ok region (length x));;
        Ok (_cost_matrix_region x y dist_ region)
    end.
Proof.
  intros Hxy Hx Hd. unfold cost_matrix.
  rewrite check_input_ok by done. simpl.
  unfold dist_fun in Hd.
  destruct (is_str d "square"); [by injection Hd as <-|].
  destruct (is_str d "absolute"); [by injection Hd as <-|].
  destruct d; [done| |done]. by injection Hd as <-.
Qed.

Lemma foldl_preserves {A B} (P : A → Prop) (f : A → B → A) l a :
  P a → (∀ a x, P a → P (f a x)) → P (foldl f a l).
Proof. intros Ha Hf. revert a Ha. induction l; simpl; auto. Qed.

Lemma cost_matrix_region_square x y dist_ region :
  square_mat (length x) (_cost_matrix_region x y dist_ region).
Proof.
  unfold _cost_matrix_region. apply foldl_preserves.
  - rewrite <-(Nat2Z.id (length x)) at 1. apply np_full_square. lia.
  - intros m j Hm. apply foldl_preserves; [done|].
    intros. by apply mat_set_square.
Qed.

Lemma cost_matrix_square x y d region cm :
  cost_matrix x y d region = Ok cm → square_mat (length x) cm.
Proof.
  intros H. apply cost_matrix_inv in H as (_ & _ & dist_ & _ & H).
  destruct region as [region|].
  - destruct H as [_ ->]. apply cost_matrix_region_square.
  - subst cm. apply cost_matrix_no_region_spec.
Qed.

Lemma mat_shape_square n m : square_mat n m → mat_shape m = Some (n, n).
Proof.
  intros [Hlen Hrows]. destruct m as [|row rest]; simpl in *; [by subst|].
  apply Forall_cons in Hrows as [Hrow Hrest].
  rewrite (proj2 (forallb_forall _ _)); [by rewrite Hrow, Hlen|].
  intros r Hr. apply Nat.eqb_eq. rewrite Hrow.
  rewrite Forall_forall in Hrest. apply Hrest. by apply list_elem_of_In.
Qed.

Lemma accumulated_ok n cm :
  (2 ≤ n)%nat → square_mat n cm →
  accumulated_cost_matrix cm None
  = Ok (_accumulated_cost_matrix_no_region cm).
Proof.
  intros Hn Hsq. unfold accumulated_cost_matrix.
  rewrite (mat_shape_square n) by done.
  rewrite (proj2 (Nat.leb_le 2 n)) by done. simpl.
  by rewrite Nat.eqb_refl.
Qed.


Lemma last_cell n (m : matrix) :
  (0 < n)%nat → square_mat n m →
  mat_get m (-1) (-1) = mat_get m (Z.of_nat n - 1) (Z.of_nat n - 1).
Proof.
  intros Hn Hsq.
  rewrite (mat_get_in n m (Z.of_nat n - 1) (Z.of_nat n - 1))
    by (done || lia).
  unfold mat_get. pose proof Hsq as [Hlen _].
  rewrite py_index_wrap by lia. simpl. rewrite Hlen.
  replace (Z.to_nat (-1 + Z.of_nat n)) with (Z.to_nat (Z.of_nat n - 1))
    by lia.
  destruct (m !! _) as [row|] eqn:Hrow; simpl; [|done].
  rewrite (square_row _ _ _ _ Hsq Hrow).
  rewrite py_index_wrap by lia. simpl. do 2 f_equal. lia.
Qed.

Lemma cost_fun_out n c a b :
  square_mat n c → (n ≤ a ∨ n ≤ b)%nat → cost_fun c a b = PInf.
Proof.
  intros Hsq Hab. unfold cost_fun, mat_get, py_index.
  pose proof Hsq as [Hlen _]. rewrite Hlen.
  case_decide as Ha.
  - simpl. rewrite !Nat2Z.id.
    destruct (c !! a) as [row|] eqn:Hrow; simpl; [|done].
    rewrite (square_row _ _ _ _ Hsq Hrow).
    rewrite decide_False by lia. rewrite decide_False by lia. done.
  - rewrite decide_False by lia. done.
Qed.

(** The value in the last cell of the accumulated matrix of a cost
    matrix. *)
Lemma acc_last n cm :
  (0 < n)%nat → square_mat n cm →
  mat_get (_accumulated_cost_matrix_no_region cm) (-1) (-1)
  = dtw_rec (cost_fun cm) (n - 1) (n - 1).
Proof.
  intros Hn Hsq.
  destruct (acc_no_region_cell n cm Hn Hsq) as [Hsqa Hcells].
  rewrite (last_cell n) by done. rewrite Hcells by lia.
  unfold acc_spec. do 2 f_equal; lia.
Qed.

(** ** The built-in distances *)

Lemma square_sym x y : _square x y = _square y x.
Proof. unfold _square. f_equal. ring. Qed.

Lemma absolute_sym x y : _absolute x y = _absolute y x.
Proof. unfold _absolute. f_equal. apply Qcabs_Qcminus. Qed.

Lemma Qc_square_nonneg (a : Qc) : (0 ≤ a * a)%Qc.
Proof.
  destruct (Qclt_le_dec a 0) as [Hneg|Hpos].
  - replace (a * a)%Qc with ((- a) * (- a))%Qc by ring.
    assert (0 ≤ - a)%Qc.
    { change 0%Qc with (- 0)%Qc. apply Qcopp_le_compat.
      by apply Qclt_le_weak. }
    by apply Qcmult_nonneg_nonneg.
  - by apply Qcmult_nonneg_nonneg.
Qed.

Lemma square_nonneg x y : nonneg (_square x y).
Proof. unfold nonneg, _square. simpl. apply Qc_square_nonneg. Qed.

Lemma absolute_nonneg x y : nonneg (_absolute x y).
Proof. unfold nonneg, _absolute. simpl. apply Qcabs_nonneg. Qed.

Lemma builtin_fun d :
  builtin d →
  ∃ dist_, dist_fun d = Some dist_ ∧
    (∀ a b, dist_ a b = dist_ b a) ∧ (∀ a b, nonneg (dist_ a b)).
Proof.
  intros [->| ->].
  - exists _square. auto using square_sym, square_nonneg.
  - exists _absolute. auto using absolute_sym, absolute_nonneg.
Qed.

(** ** Path reconstruction *)

Lemma nlt_nle a b : nlt a b ↔ ¬ nle b a.
Proof. done. Qed.

Lemma not_nle a b : ¬ nle a b → nle b a.
Proof. intros H. by destruct (nle_total a b). Qed.

Lemma np_argmin3 d u l :
  np_argmin [d; u; l]
  = if decide (nle d u ∧ nle d l) then 0%nat
    else if decide (nle u l) then 1%nat else 2%nat.
Proof.
  unfold np_argmin, argmin_from, nlt.
  pose proof (nle_total d u). pose proof (nle_total d l).
  pose proof (nle_total u l).
  pose proof (nle_trans d u l). pose proof (nle_trans l d u).
  pose proof (nle_trans u l d).
  repeat case_decide; try done; exfalso; tauto.
Qed.

Lemma path_loop_S fuel acc path i j :
  last path = Some (i, j) → (i, j) ≠ (0, 0) →
  path_loop (S fuel) acc path
  = path_loop fuel acc (path ++ [prev_cell acc (i, j)]).
Proof.
  intros Hlast Hne. cbn [path_loop]. rewrite Hlast.
  rewrite decide_False by done. unfold prev_cell.
  destruct (decide (i = 0)); [done|]. destruct (decide (j = 0)); [done|].
  unfold best_pred. rewrite np_argmin3.
  repeat case_decide; done.
Qed.

Lemma prev_cell_bounds acc i j :
  0 ≤ i → 0 ≤ j → (i, j) ≠ (0, 0) →
  let p := prev_cell acc (i, j) in
  0 ≤ p.1 ∧ 0 ≤ p.2 ∧ p.1 + p.2 < i + j ∧ allowed_move p (i, j).
Proof.
  intros Hi Hj Hne. unfold prev_cell, best_pred, allowed_move.
  assert (i ≠ 0 ∨ j ≠ 0) by (destruct (decide (i = 0)); [right|left];
    congruence).
  repeat case_decide; simpl; lia.
Qed.

Lemma path_loop_spec acc fuel : ∀ path i j,
  last path = Some (i, j) → 0 ≤ i → 0 ≤ j → i + j ≤ Z.of_nat fuel →
  ∃ ext,
    path_loop fuel acc path = Some (path ++ ext) ∧
    last ((i, j) :: ext) = Some (0, 0) ∧
    chain (back_step acc) ((i, j) :: ext).
Proof.
  induction fuel as [|fuel IH]; intros path i j Hlast Hi Hj Hfuel.
  - assert (i = 0 ∧ j = 0) as [-> ->] by lia.
    exists []. simpl. rewrite Hlast, app_nil_r.
    split; [done|]. split; [done|]. intros k a b Ha Hb. by destruct k.
  - destruct (decide ((i, j) = (0, 0))) as [Heq|Hne].
    + injection Heq as -> ->. exists []. simpl. rewrite Hlast, app_nil_r.
      split; [done|]. split; [done|]. intros k a b Ha Hb. by destruct k.
    + rewrite (path_loop_S _ _ _ i j) by done.
      destruct (prev_cell_bounds acc i j Hi Hj Hne) as (Hp1 & Hp2 & Hlt & _).
      destruct (prev_cell acc (i, j)) as [i' j'] eqn:Hprev. simpl in *.
      destruct (IH (path ++ [(i', j')]) i' j') as (ext & Hrun & Hend & Hch);
        [by rewrite last_snoc|done|done|lia|].
      exists ((i', j') :: ext). rewrite <-app_assoc in Hrun.
      split; [done|]. split; [done|].
      intros [|k] a b Ha Hb; simpl in *.
      * injection Ha as <-. injection Hb as <-. by split_and!.
      * by apply (Hch k).
Qed.

(** C4.  For a matrix with [n >= 1] rows, [_return_path] returns; the path
    it returns, read as cells, starts at [(0, 0)], ends at
    [(n-1, n-1)], goes from each cell to the next by one of the three
    moves, and the cell before a cell [(i, j)] with [i > 0] and [j > 0] is
    the one among [(i-1, j-1)], [(i-1, j)], [(i, j-1)] with the smallest
    accumulated cost, ties broken in that order. *)
Theorem return_path_correct (acc : matrix) :
  let n := Z.of_nat (length acc) in
  1 ≤ n →
  ∃ cells,
    _return_path acc = Some (np_transpose_pairs cells) ∧
    head cells = Some (0, 0) ∧
    last cells = Some (n - 1, n - 1) ∧
    ∀ k p q, cells !! k = Some p → cells !! S k = Some q →
      allowed_move p q ∧ (0 < q.1 → 0 < q.2 → p = best_pred acc q).
Proof.
  intros n Hn.
  destruct (path_loop_spec acc (2 * length acc) [(n - 1, n - 1)]
              (n - 1) (n - 1)) as (ext & Hrun & Hend & Hch);
    [done|lia|lia|lia|].
  exists (reverse ((n - 1, n - 1) :: ext)).
  unfold _return_path. fold n. rewrite Hrun. simpl.
  split; [done|]. split; [by rewrite head_reverse|].
  split; [by rewrite last_reverse|].
  intros k p q Hp Hq.
  set (l := (n - 1, n - 1) :: ext) in *.
  assert (S k < length l)%nat as Hk.
  { apply lookup_lt_Some in Hq. by rewrite length_reverse in Hq. }
  rewrite reverse_lookup in Hp by lia. rewrite reverse_lookup in Hq by lia.
  replace (length l - S k)%nat with (S (length l - S (S k))) in Hp by lia.
  destruct (Hch _ _ _ Hq Hp) as (Hne & Hq1 & Hq2 & ->).
  destruct q as [i j]. simpl in *.
  destruct (prev_cell_bounds acc i j Hq1 Hq2 Hne) as (_ & _ & _ & Hmove).
  split; [done|]. intros Hi Hj. unfold prev_cell.
  rewrite !decide_False by lia. done.
Qed.

(** ** Rounding to float64 *)

Lemma np_rint_range (q : Qc) : Qfloor q ≤ np_rint q ≤ Qfloor q + 1.
Proof.
  unfold np_rint. repeat case_decide; try destruct (Z.even (Qfloor q)); lia.
Qed.

Lemma np_rint_le_int (q : Qc) k : (q ≤ Qc_of_Z k)%Qc → np_rint q ≤ k.
Proof.
  intros Hq. pose proof (np_rint_range q) as [_ Hr].
  assert (Qfloor q ≤ k) as Hf.
  { rewrite <-(Qfloor_Z k). by apply Qfloor_resp_le. }
  destruct (decide (Qfloor q = k)) as [Heq|]; [|lia].
  unfold np_rint. rewrite decide_True; [lia|].
  rewrite Heq. qc2q. lra.
Qed.

Lemma np_rint_ge_int (q : Qc) k : (Qc_of_Z k ≤ q)%Qc → k ≤ np_rint q.
Proof.
  intros Hq. pose proof (np_rint_range q) as [Hr _].
  assert (k ≤ Qfloor q); [|lia].
  rewrite <-(Qfloor_Z k). apply Qfloor_resp_le.
  revert Hq. qc2q. done.
Qed.

Lemma pow2_pos e : (0 < pow2 e)%Qc.
Proof.
  unfold pow2. qc2q. by apply Qpower_0_lt.
Qed.

Lemma pow2_int e : 0 ≤ e → pow2 e = Qc_of_Z (2 ^ e).
Proof.
  intros He. apply Qc_is_canon. unfold pow2. simpl.
  rewrite Qred_correct. symmetry. by apply Zpower_Qpower.
Qed.

Lemma pow2_scale e : e ≤ 0 → (pow2 e * Qc_of_Z (2 ^ (- e)) = 1)%Qc.
Proof.
  intros He. rewrite <-(pow2_int (- e)) by lia.
  apply Qc_is_canon. unfold pow2. simpl. rewrite !Qred_correct.
  rewrite <-Qpower_plus by done. by replace (e + - e) with 0 by lia.
Qed.

Lemma pow2_add a b : (pow2 a * pow2 b = pow2 (a + b))%Qc.
Proof.
  apply Qc_is_canon. unfold pow2. simpl. rewrite !Qred_correct.
  symmetry. by apply Qpower_plus.
Qed.

Lemma b64_exponent_nonpos q :
  ¬ (pow2 53 ≤ Qcabs q)%Qc → b64_exponent q ≤ 0.
Proof.
  intros Hq. apply Qcnot_le_lt in Hq. unfold b64_exponent.
  set (s := Qfloor (Qcabs q * pow2 1074)%Qc).
  assert (s < 2 ^ 1127) as Hs.
  { rewrite Zlt_Qlt. eapply Qle_lt_trans; [apply Qfloor_le|].
    assert (Qcabs q * pow2 1074 < Qc_of_Z (2 ^ 1127))%Qc as H.
    { replace (Qc_of_Z (2 ^ 1127)) with (pow2 53 * pow2 1074)%Qc.
      - apply Qcmult_lt_compat_r; [apply pow2_pos|done].
      - rewrite pow2_add. by rewrite pow2_int. }
    exact H. }
  destruct (decide (0 < s)) as [Hpos|Hneg].
  - apply Z.log2_lt_pow2 in Hs; [lia|done].
  - rewrite Z.log2_nonpos by lia. lia.
Qed.

Lemma b64_round_scaled q :
  ¬ (pow2 53 ≤ Qcabs q)%Qc →
  ∃ s u, 0 < s ∧ (0 < u)%Qc ∧ (Qc_of_Z s * u = 1)%Qc ∧
       b64_round q = (Qc_of_Z (np_rint (q * Qc_of_Z s)) * u)%Qc.
Proof.
  intros Hq. pose proof (b64_exponent_nonpos q Hq) as He.
  exists (2 ^ (- b64_exponent q)), (pow2 (b64_exponent q)).
  pose proof (pow2_scale _ He) as Hs.
  pose proof (pow2_pos (b64_exponent q)) as Hu.
  split; [apply Z.pow_pos_nonneg; lia|]. split; [done|].
  split; [by rewrite Qcmult_comm|].
  unfold b64_round. rewrite decide_False by done. cbv zeta.
  do 3 f_equal. unfold Qcdiv. f_equal.
  set (u := pow2 (b64_exponent q)) in *.
  set (s := Qc_of_Z (2 ^ (- b64_exponent q))) in *.
  assert (u ≠ 0%Qc) as Hu0.
  { intros E. rewrite E in Hu. by apply Qclt_not_eq in Hu. }
  rewrite <-(Qcmult_1_l s), <-(Qcmult_inv_l u), <-Qcmult_assoc, Hs by done.
  by rewrite Qcmult_1_r.
Qed.

Lemma b64_round_ge_int q k : (Qc_of_Z k ≤ q)%Qc → (Qc_of_Z k ≤ b64_round q)%Qc.
Proof.
  intros Hk. destruct (decide (pow2 53 ≤ Qcabs q)%Qc) as [Hbig|Hq].
  { unfold b64_round. by rewrite decide_True. }
  destruct (b64_round_scaled q Hq) as (s & u & Hs & Hu & Hsu & ->).
  rewrite <-(Qcmult_1_r (Qc_of_Z k)), <-Hsu, Qcmult_assoc.
  apply Qcmult_le_compat_r; [|by apply Qclt_le_weak].
  rewrite <-Z2Qc_inj_mul. apply (proj1 (Z2Qc_inj_le _ _)), np_rint_ge_int.
  rewrite Z2Qc_inj_mul. apply Qcmult_le_compat_r; [done|].
  rewrite <-Z2Qc_inj_0. apply (proj1 (Z2Qc_inj_le _ _)). lia.
Qed.

Lemma b64_round_le_int q k : (q ≤ Qc_of_Z k)%Qc → (b64_round q ≤ Qc_of_Z k)%Qc.
Proof.
  intros Hk. destruct (decide (pow2 53 ≤ Qcabs q)%Qc) as [Hbig|Hq].
  { unfold b64_round. by rewrite decide_True. }
  destruct (b64_round_scaled q Hq) as (s & u & Hs & Hu & Hsu & ->).
  rewrite <-(Qcmult_1_r (Qc_of_Z k)), <-Hsu, Qcmult_assoc.
  apply Qcmult_le_compat_r; [|by apply Qclt_le_weak].
  rewrite <-Z2Qc_inj_mul. apply (proj1 (Z2Qc_inj_le _ _)), np_rint_le_int.
  rewrite Z2Qc_inj_mul. apply Qcmult_le_compat_r; [done|].
  rewrite <-Z2Qc_inj_0. apply (proj1 (Z2Qc_inj_le _ _)). lia.
Qed.

Lemma b64_round_int z : b64_round (Qc_of_Z z) = Qc_of_Z z.
Proof.
  apply Qcle_antisym; [apply b64_round_le_int|apply b64_round_ge_int];
    apply Qcle_refl.
Qed.

Lemma float_mul_nonneg a b : (0 ≤ a)%Qc → (0 ≤ b)%Qc → (0 ≤ float_mul a b)%Qc.
Proof.
  intros Ha Hb. unfold float_mul. rewrite <-Z2Qc_inj_0.
  apply b64_round_ge_int. rewrite Z2Qc_inj_0.
  by apply Qcmult_nonneg_nonneg.
Qed.

Lemma float_of_int_exact z : float_of_int z = Qc_of_Z z.
Proof. apply b64_round_int. Qed.

Lemma float_mul_1_l z : float_mul 1 (float_of_int z) = Qc_of_Z z.
Proof.
  unfold float_mul. by rewrite float_of_int_exact, Qcmult_1_l, b64_round_int.
Qed.

(** ** Region generators *)

Lemma py_ceil_int z : py_ceil (Qc_of_Z z) = z.
Proof. unfold py_ceil. simpl. apply Qceiling_Z. Qed.

Lemma py_floor_int z : py_floor (Qc_of_Z z) = z.
Proof. unfold py_floor. simpl. apply Qfloor_Z. Qed.

Lemma py_ceil_nonneg q : (0 ≤ q)%Qc → 0 ≤ py_ceil q.
Proof.
  intros Hq. unfold py_ceil.
  change 0 with (Qceiling (inject_Z 0)). by apply Qceiling_resp_le.
Qed.

Lemma band_clip n w :
  0 ≤ w →
  (np_clip 0 n <$> ((λ v, v + - w) <$> np_arange n),
   np_clip 0 n <$> ((λ v, v + (w + 1)) <$> np_arange n)) = band n w.
Proof.
  intros Hw. unfold band, np_arange. rewrite <-!list_fmap_compose.
  f_equal; apply list_fmap_ext; intros k j Hj;
    apply lookup_seqZ in Hj as [-> Hk]; unfold np_clip; simpl; lia.
Qed.

Lemma sakoe_chiba_band_resolved n window w :
  2 ≤ n → resolved_window n window = Some w →
  0 ≤ w ∧ sakoe_chiba_band n window = Ok (band n w).
Proof.
  intros Hn Hw. unfold sakoe_chiba_band.
  rewrite bool_decide_true by done. simpl.
  destruct window as [z|f|s]; simpl in *; [| |done].
  - case_decide as Hz; [|done]. injection Hw as ->.
    rewrite bool_decide_true by done. simpl.
    split; [lia|]. f_equal. apply band_clip. lia.
  - case_decide as Hf; [|done]. injection Hw as <-.
    rewrite bool_decide_true by done. simpl.
    assert (0 ≤ py_ceil (float_mul f (float_of_int (n - 1)))) as Hpos.
    { apply py_ceil_nonneg, float_mul_nonneg; [apply Hf|].
      rewrite float_of_int_exact.
      pose proof (proj1 (Z2Qc_inj_le 0 (n - 1)) ltac:(lia)) as H0.
      by rewrite Z2Qc_inj_0 in H0. }
    split; [done|]. f_equal. by apply band_clip.
Qed.

(** C6.  For [n >= 2] and a valid window (an integer [w] with
    [0 <= w <= n-1], or a float [f] in [[0, 1]] resolved to
    [ceil(f * (n-1))], the product being the product of floats),
    [sakoe_chiba_band] returns for every column [j] the row range
    [max(0, j - w) .. min(n, j + w + 1)]; and [sakoe_chiba_band(5, 2)] is
    [[0,0,0,1,2], [3,4,5,5,5]]. *)
Theorem sakoe_chiba_band_correct n window w :
  2 ≤ n → resolved_window n window = Some w →
  sakoe_chiba_band n window = Ok (band n w) ∧
  sakoe_chiba_band 5 (VInt 2) = Ok ([0; 0; 0; 1; 2], [3; 4; 5; 5; 5]).
Proof.
  intros Hn Hw. split; [|done].
  by apply sakoe_chiba_band_resolved.
Qed.

(** C10.  For [n >= 2] the float [1.0] resolves to the window [n - 1] and
    gives the whole grid ([lo[j] = 0], [hi[j] = n]), while the integer [1]
    resolves to the window [1] and gives the band of half-width one; from
    [n = 3] on the two regions differ. *)
Theorem sakoe_chiba_band_float_vs_int n :
  2 ≤ n →
  resolved_window n (VFloat 1%Qc) = Some (n - 1) ∧
  sakoe_chiba_band n (VFloat 1%Qc)
    = Ok ((λ _, 0) <$> seqZ 0 n, (λ _, n) <$> seqZ 0 n) ∧
  resolved_window n (VInt 1) = Some 1 ∧
  sakoe_chiba_band n (VInt 1) = Ok (band n 1) ∧
  (3 ≤ n → sakoe_chiba_band n (VFloat 1%Qc) ≠ sakoe_chiba_band n (VInt 1)).
Proof.
  intros Hn.
  assert (resolved_window n (VFloat 1%Qc) = Some (n - 1)) as Hf.
  { unfold resolved_window. rewrite decide_True by done.
    rewrite float_mul_1_l. f_equal. apply Qceiling_Z. }
  assert (resolved_window n (VInt 1) = Some 1) as Hi.
  { unfold resolved_window. by rewrite decide_True by lia. }
  destruct (sakoe_chiba_band_resolved n _ _ Hn Hf) as [_ Hbf].
  destruct (sakoe_chiba_band_resolved n _ _ Hn Hi) as [_ Hbi].
  assert (band n (n - 1) = ((λ _, 0) <$> seqZ 0 n, (λ _, n) <$> seqZ 0 n))
    as Hfull.
  { unfold band. f_equal; apply list_fmap_ext; intros k j Hj;
      apply lookup_seqZ in Hj as [-> Hk]; lia. }
  split; [done|]. split; [by rewrite Hbf, Hfull|].
  split; [done|]. split; [done|].
  intros Hn3. rewrite Hbf, Hbi. intros [= Hlo Hhi].
  apply (f_equal (λ l, l !! 2%nat)) in Hlo.
  rewrite !list_lookup_fmap, lookup_seqZ_lt in Hlo by lia.
  simpl in Hlo. injection Hlo. lia.
Qed.

Lemma np_rint_int z : np_rint (Qc_of_Z z) = z.
Proof.
  unfold np_rint. fold (py_floor (Qc_of_Z z)). rewrite py_floor_int.
  replace (Qc_of_Z z - Qc_of_Z z)%Qc with 0%Qc by ring.
  by rewrite decide_True.
Qed.

Lemma np_round2_int z : np_round2 (Qc_of_Z z) = Qc_of_Z z.
Proof.
  unfold np_round2. rewrite <-Z2Qc_inj_mul, np_rint_int, Z2Qc_inj_mul.
  apply Qcdiv_mult_l. rewrite <-Z2Qc_inj_0. by intros ?%Z2Qc_inj.
Qed.

Lemma qc_max_diag a : qc_max a a = a.
Proof. unfold qc_max. by case_decide. Qed.

Lemma qc_min_diag a : qc_min a a = a.
Proof. unfold qc_min. by case_decide. Qed.

(** C7.  For [n >= 2], [itakura_parallelogram(n, 1)] (the slope given as
    the integer [1] or as the float [1.0]) is the diagonal: [lo[j] = j]
    and [hi[j] = j + 1] for every column [j]. *)
Theorem itakura_slope_one_is_diagonal n max_slope :
  2 ≤ n → max_slope = VInt 1 ∨ max_slope = VFloat 1%Qc →
  itakura_parallelogram n max_slope
  = Ok (seqZ 0 n, (λ j, j + 1) <$> seqZ 0 n).
Proof.
  intros Hn Hs. unfold itakura_parallelogram.
  rewrite bool_decide_true by done. simpl.
  assert ((match max_slope with
           | VInt z => Ok (Qc_of_Z z)
           | VFloat q => Ok q
           | VStr _ => Raise TypeError
           end) = Ok 1%Qc) as ->.
  { destruct Hs as [-> | ->]; [|done]. by rewrite Z2Qc_inj_1. }
  simpl.
  replace (1 / 1)%Qc with 1%Qc by (by apply Qc_is_canon).
  unfold np_arange. rewrite <-!list_fmap_compose.
  rewrite !zip_with_fmap_l, !zip_with_fmap_r, !zip_with_diag.
  rewrite <-!list_fmap_compose.
  f_equal. f_equal.
  - rewrite <-(list_fmap_id (seqZ 0 n)) at 2.
    apply list_fmap_ext. intros k j _. simpl.
    replace ((1 - 1) * Qc_of_Z (n - 1) + 1 * Qc_of_Z j)%Qc
      with (Qc_of_Z j) by ring.
    rewrite Qcmult_1_l, np_round2_int, qc_max_diag. apply py_ceil_int.
  - apply list_fmap_ext. intros k j _. simpl.
    replace ((1 - 1) * Qc_of_Z (n - 1) + 1 * Qc_of_Z j)%Qc
      with (Qc_of_Z j) by ring.
    rewrite Qcmult_1_l, np_round2_int, qc_min_diag.
    rewrite <-Z2Qc_inj_1, <-Z2Qc_inj_add. apply py_floor_int.
Qed.

(** ** Generated regions stay inside the grid *)

Lemma np_rint_nonneg (q : Qc) : (0 ≤ q)%Qc → 0 ≤ np_rint q.
Proof.
  intros Hq. pose proof (np_rint_range q) as [Hr _].
  assert (0 ≤ Qfloor q); [|lia].
  change 0 with (Qfloor (inject_Z 0)). by apply Qfloor_resp_le.
Qed.

Lemma Qc_of_Z_nonneg z : 0 ≤ z → (0 ≤ Qc_of_Z z)%Qc.
Proof.
  intros Hz. pose proof (proj1 (Z2Qc_inj_le 0 z) Hz) as H.
  by rewrite Z2Qc_inj_0 in H.
Qed.

Lemma Qc_inv_100_pos : (0 < / Qc_of_Z 100)%Qc.
Proof. done. Qed.

Lemma np_round2_nonneg q : (0 ≤ q)%Qc → (0 ≤ np_round2 q)%Qc.
Proof.
  intros Hq. unfold np_round2, Qcdiv. apply Qcmult_nonneg_nonneg; [|done].
  apply Qc_of_Z_nonneg, np_rint_nonneg.
  apply Qcmult_nonneg_nonneg; [done|]. by apply Qc_of_Z_nonneg.
Qed.

Lemma np_round2_le_int q k :
  (q ≤ Qc_of_Z k)%Qc → (np_round2 q ≤ Qc_of_Z k)%Qc.
Proof.
  intros Hq. unfold np_round2.
  rewrite <-(Qcdiv_mult_l (Qc_of_Z k) (Qc_of_Z 100)) at 1
    by (rewrite <-Z2Qc_inj_0; by intros ?%Z2Qc_inj).
  unfold Qcdiv. apply Qcmult_le_mono_nonneg_r; [done|].
  rewrite <-Z2Qc_inj_mul. apply (proj1 (Z2Qc_inj_le _ _)).
  apply np_rint_le_int. rewrite Z2Qc_inj_mul.
  by apply Qcmult_le_mono_nonneg_r.
Qed.

Lemma qc_max_ge_l a b : (a ≤ qc_max a b)%Qc.
Proof.
  unfold qc_max. case_decide; [by apply Qclt_le_weak|apply Qcle_refl].
Qed.

Lemma qc_min_le_r a b : (qc_min a b ≤ b)%Qc.
Proof.
  unfold qc_min. case_decide as H; [apply Qcle_refl|].
  by apply Qcnot_lt_le.
Qed.

Lemma int_get_Forall (P : Z → Prop) l j :
  P 0 → Forall P l → P (int_get l j).
Proof.
  intros H0 Hl. unfold int_get.
  destruct (py_index (length l) j) as [a|]; simpl; [|done].
  destruct (l !! a) as [v|] eqn:Hv; simpl; [|done].
  by eapply Forall_lookup_1.
Qed.

Lemma bounded_in_grid n region :
  bounded (Z.of_nat n) region → region_shape_ok region n = true →
  region_in_grid n region.
Proof.
  intros [Hlo Hhi] Hshape. unfold region_shape_ok in Hshape.
  apply andb_true_iff in Hshape as [H1%Nat.eqb_eq H2%Nat.eqb_eq].
  split; [done|]. split; [done|]. intros j Hj. split.
  - by apply (int_get_Forall (λ v, 0 ≤ v)).
  - apply (int_get_Forall (λ v, v ≤ Z.of_nat n)); [lia|done].
Qed.

Lemma clip_bounded n l1 l2 :
  0 ≤ n → bounded n (np_clip 0 n <$> l1, np_clip 0 n <$> l2).
Proof.
  intros Hn. split; simpl; apply Forall_fmap, Forall_true; intros v;
    unfold np_clip; simpl; lia.
Qed.

Lemma sakoe_chiba_band_bounded n w region :
  sakoe_chiba_band n w = Ok region → bounded n region.
Proof.
  unfold sakoe_chiba_band. intros H.
  apply bind_Ok in H as (u & Hn%guard_or_Ok%bool_decide_eq_true & H).
  apply bind_Ok in H as (w' & _ & H). injection H as <-.
  apply clip_bounded. lia.
Qed.

Lemma multiscale_region_bounded n r m path radius region :
  0 ≤ n → _multiscale_region n r m path radius = Ok region →
  bounded n region.
Proof.
  intros Hn. unfold _multiscale_region.
  destruct (foldl _ _ _) as [[[pu pd] pl] pr].
  intros H. apply bind_Ok in H as (rr & _ & H). injection H as <-.
  by apply clip_bounded.
Qed.

Lemma itakura_bounded n s region :
  itakura_parallelogram n s = Ok region → bounded n region.
Proof.
  unfold itakura_parallelogram. intros H.
  apply bind_Ok in H as (u & Hn%guard_or_Ok%bool_decide_eq_true & H).
  apply bind_Ok in H as (ms & _ & H).
  apply bind_Ok in H as (u' & Hms%guard_or_Ok%bool_decide_eq_true & H).
  injection H as <-.
  assert (0 < ms)%Qc as Hpos by (by apply Qclt_le_trans with 1%Qc).
  assert (0 ≤ 1 / ms)%Qc as Hinv.
  { unfold Qcdiv. rewrite Qcmult_1_l. by apply Qclt_le_weak, Qcinv_pos. }
  split; simpl.
  - apply Forall_fmap, Forall_lookup. intros k v Hv.
    apply lookup_zip_with_Some in Hv as (a & b & -> & Ha & _).
    apply list_lookup_fmap_Some in Ha as (a' & -> & Ha').
    apply list_lookup_fmap_Some in Ha' as (j & -> & Hj).
    apply lookup_seqZ in Hj as [-> Hk]. simpl.
    apply py_ceil_nonneg. etrans; [|apply qc_max_ge_l].
    apply np_round2_nonneg, Qcmult_nonneg_nonneg; [done|].
    apply Qc_of_Z_nonneg. lia.
  - apply Forall_fmap, Forall_lookup. intros k v Hv.
    apply lookup_zip_with_Some in Hv as (a & b & -> & _ & Hb).
    apply list_lookup_fmap_Some in Hb as (b' & -> & Hb').
    apply list_lookup_fmap_Some in Hb' as (j & -> & Hj).
    apply lookup_seqZ in Hj as [-> Hk]. simpl.
    match goal with
    | |- py_floor ?t ≤ n => assert (t ≤ Qc_of_Z n)%Qc as Hfin
    end.
    2:{ trans (py_floor (Qc_of_Z n)); [|by rewrite py_floor_int].
        unfold py_floor. by apply Qfloor_resp_le. }
    replace n with ((n - 1) + 1) at 2 by lia.
    rewrite (Z2Qc_inj_add (n - 1) 1), Z2Qc_inj_1.
    apply Qcplus_le_compat; [|apply Qcle_refl].
    etrans; [apply qc_min_le_r|]. apply np_round2_le_int.
    assert (1 / ms * Qc_of_Z (0 + Z.of_nat k)
            ≤ 1 / ms * Qc_of_Z (n - 1))%Qc as Hle.
    { apply Qcmult_le_mono_nonneg_l; [done|].
      apply (proj1 (Z2Qc_inj_le _ _)). lia. }
    apply (Qcplus_le_compat _ _ _ _
             (Qcle_refl ((1 - 1 / ms) * Qc_of_Z (n - 1))%Qc)) in Hle.
    etrans; [apply Hle|].
    replace ((1 - 1 / ms) * Qc_of_Z (n - 1) + 1 / ms * Qc_of_Z (n - 1))%Qc
      with (Qc_of_Z (n - 1)) by ring.
    apply Qcle_refl.
Qed.

Lemma ceil_div_double n : ceil_div (2 * n) 2 = n.
Proof.
  unfold ceil_div. replace (- (2 * n)) with ((- n) * 2) by lia.
  rewrite Z.div_mul by done. lia.
Qed.

(** The region that leaves the coarse-to-fine loop was produced by its last
    iteration, at resolution 2, for a series of the full length. *)
Lemma fast_region_bounded x y n d radius region :
  0 ≤ n → fast_region x y n d radius = Ok (Some region) → bounded n region.
Proof.
  intros Hn. unfold fast_region. case_decide as Hlong; [|done].
  set (k := ceil_log2_ratio n (radius + 2)). unfold py_range.
  destruct (decide (k ≤ 0)) as [Hk|Hk].
  { by rewrite seqZ_nil by lia. }
  replace (k - 0) with (Z.of_nat (S (Z.to_nat (k - 1)))) by lia.
  rewrite seqZ_S, foldl_snoc. intros H.
  apply bind_Ok in H as (st & _ & H).
  apply bind_Ok in H as (cmr & _ & H).
  apply bind_Ok in H as (accr & _ & H).
  apply bind_Ok in H as (path & _ & H).
  apply bind_Ok in H as (reg & Hreg & H). injection H as <-.
  replace (k - (0 + Z.of_nat (Z.to_nat (k - 1)))) with 1 in Hreg by lia.
  change (2 ^ 1) with 2 in Hreg. rewrite ceil_div_double in Hreg.
  by eapply multiscale_region_bounded.
Qed.

(** ** Cost matrices of a non-negative distance *)

Lemma mat_get_set_cases n m i j v i' j' :
  square_mat n m → 0 ≤ i' < Z.of_nat n → 0 ≤ j' < Z.of_nat n →
  mat_get (mat_set m i j v) i' j' = v ∨
  mat_get (mat_set m i j v) i' j' = mat_get m i' j'.
Proof.
  intros Hsq Hi' Hj'.
  rewrite (mat_get_in n) by eauto using mat_set_square.
  rewrite (mat_get_in n m) by done.
  unfold mat_set. destruct (py_index (length m) i) as [a|]; [|by right].
  rewrite list_lookup_alter. case_decide as Ha; [|by right]. subst a.
  destruct (m !! Z.to_nat i') as [row|] eqn:Hrow; simpl; [|by right].
  unfold row_set. destruct (py_index (length row) j) as [b|]; [|by right].
  rewrite list_lookup_insert. case_decide as Hb; [by left|by right].
Qed.

Lemma mat_set_nonneg n m i j v :
  cells_nonneg n m → nonneg v → cells_nonneg n (mat_set m i j v).
Proof.
  intros [Hsq Hm] Hv. split; [by apply mat_set_square|].
  intros i' j' Hi' Hj'.
  destruct (mat_get_set_cases n m i j v i' j' Hsq Hi' Hj') as [-> | ->];
    auto.
Qed.

Lemma np_full_nonneg n v :
  nonneg v → cells_nonneg n (np_full (Z.of_nat n) v).
Proof.
  intros Hv. split.
  - rewrite <-(Nat2Z.id n) at 1. apply np_full_square. lia.
  - intros i j Hi Hj. by rewrite mat_get_full.
Qed.

Lemma cost_matrix_region_nonneg x y dist_ region :
  (∀ a b, nonneg (dist_ a b)) →
  cells_nonneg (length x) (_cost_matrix_region x y dist_ region).
Proof.
  intros Hd. unfold _cost_matrix_region. apply foldl_preserves.
  - by apply np_full_nonneg.
  - intros m j Hm. apply foldl_preserves; [done|].
    intros. by apply mat_set_nonneg.
Qed.

Lemma cost_matrix_no_region_nonneg x y dist_ :
  (∀ a b, nonneg (dist_ a b)) →
  cells_nonneg (length x) (_cost_matrix_no_region x y dist_).
Proof.
  intros Hd. destruct (cost_matrix_no_region_spec x y dist_) as [Hsq Hcell].
  split; [done|]. intros i j Hi Hj. rewrite Hcell by done. apply Hd.
Qed.

(** A [dist] argument that is accepted, and whose values are not negative
    when a square root is going to be taken. *)
Lemma dist_fun_square d dist_ :
  dist_fun d = Some dist_ → is_str d "square" = true →
  ∀ a b, nonneg (dist_ a b).
Proof.
  unfold dist_fun. intros Hd Hs. rewrite Hs in Hd. injection Hd as <-.
  apply square_nonneg.
Qed.

Lemma cost_matrix_cells x y d region cm :
  cost_matrix x y d region = Ok cm → is_str d "square" = true →
  cells_nonneg (length x) cm.
Proof.
  intros Hcm Hs.
  apply cost_matrix_inv in Hcm as (_ & _ & dist_ & Hfun & Hcm).
  pose proof (dist_fun_square _ _ Hfun Hs) as Hpos.
  destruct region as [region|].
  - destruct Hcm as [_ ->]. by apply cost_matrix_region_nonneg.
  - subst cm. by apply cost_matrix_no_region_nonneg.
Qed.

Lemma return_path_returns (acc : matrix) :
  (1 ≤ length acc)%nat → is_Some (_return_path acc).
Proof.
  intros Hn. unfold _return_path.
  set (n := Z.of_nat (length acc)).
  destruct (path_loop_spec acc (2 * length acc) [(n - 1, n - 1)]
              (n - 1) (n - 1)) as (ext & -> & _); [done|lia|lia|lia|].
  done.
Qed.

Lemma length_band n w : 0 ≤ n →
  length (band n w).1 = Z.to_nat n ∧ length (band n w).2 = Z.to_nat n.
Proof. intros. simpl. by rewrite !length_fmap, !length_seqZ. Qed.

Lemma itakura_returns n s :
  2 ≤ n → (∃ z, s = VInt z ∧ 1 ≤ z) ∨ (∃ q, s = VFloat q ∧ (1 ≤ q)%Qc) →
  ∃ region, itakura_parallelogram n s = Ok region ∧
    length region.1 = Z.to_nat n ∧ length region.2 = Z.to_nat n.
Proof.
  intros Hn Hs. unfold itakura_parallelogram.
  rewrite bool_decide_true by done. simpl.
  assert (∃ ms, (match s with
                 | VInt z => Ok (Qc_of_Z z)
                 | VFloat q => Ok q
                 | VStr _ => Raise TypeError
                 end) = Ok ms ∧ (1 ≤ ms)%Qc) as (ms & -> & Hms).
  { destruct Hs as [(z & -> & Hz)|(q & -> & Hq)]; eexists; split; try done.
    rewrite <-Z2Qc_inj_1. by apply (proj1 (Z2Qc_inj_le _ _)). }
  simpl. rewrite bool_decide_true by done. simpl.
  eexists. split; [done|]. simpl.
  rewrite !length_fmap, !length_zip_with, !length_fmap.
  unfold np_arange. rewrite !length_seqZ. lia.
Qed.

(** ** Resolution reduction: the length of the reduced series *)

Lemma reshape_rows_length {A} fuel k (l : list A) :
  (1 ≤ k)%nat → (length l ≤ fuel)%nat →
  let m := length (reshape_rows fuel k l) in
  (length l = 0%nat → m = 0%nat) ∧
  (0 < length l → k * (m - 1) < length l ≤ k * m ∧ 1 ≤ m)%nat.
Proof.
  intros Hk. revert l. induction fuel as [|fuel IH]; intros l Hfuel.
  { destruct l; simpl in *; [split; [done|lia]|lia]. }
  destruct l as [|a l]; [simpl; split; [done|lia]|].
  cbn [reshape_rows]. set (l0 := a :: l) in *.
  cbn [length]. fold (length (reshape_rows fuel k (drop k l0))).
  destruct (IH (drop k l0)) as [H0 H1].
  { rewrite length_drop. subst l0. simpl in *. lia. }
  rewrite length_drop in H0, H1.
  split; [by subst l0|]. intros _.
  assert (0 < length l0)%nat as Hl0 by (subst l0; simpl; lia).
  destruct (decide (length l0 ≤ k)%nat) as [Hle|Hgt].
  - rewrite H0 by lia. lia.
  - destruct H1 as [[H1 H2] H3]; [lia|]. nia.
Qed.

Lemma is_ceil_div_unique n r m m' :
  0 < r → is_ceil_div n r m → is_ceil_div n r m' → m = m'.
Proof. unfold is_ceil_div. intros. nia. Qed.

Lemma ceil_div_is_ceil_div n r : 0 < r → is_ceil_div n r (ceil_div n r).
Proof.
  intros Hr. unfold is_ceil_div, ceil_div.
  pose proof (Z.div_mod (- n) r ltac:(lia)) as Hdm.
  pose proof (Z.mod_pos_bound (- n) r Hr) as Hb. nia.
Qed.

Lemma block_mean_length a k :
  1 ≤ k → (0 < length a)%nat →
  is_ceil_div (Z.of_nat (length a)) k (Z.of_nat (length (block_mean a k))).
Proof.
  intros Hk Ha. unfold block_mean. rewrite length_fmap.
  destruct (reshape_rows_length (length a) (Z.to_nat k) a) as [_ H];
    [lia|lia|].
  destruct H as [[H1 H2] H3]; [lia|]. unfold is_ceil_div. nia.
Qed.

Lemma reduce_resolution_length x r :
  1 ≤ r → (0 < length x)%nat →
  is_ceil_div (Z.of_nat (length x)) r
    (Z.of_nat (length (reduce_resolution x (Z.of_nat (length x)) r))).
Proof.
  intros Hr Hx. unfold reduce_resolution.
  set (n := Z.of_nat (length x)).
  pose proof (Z.div_mod n r ltac:(lia)) as Hdm.
  pose proof (Z.mod_pos_bound n r ltac:(lia)) as Hb.
  case_decide as Hrem; [|by apply block_mean_length].
  set (xp := x ++ replicate _ _).
  assert (Z.of_nat (length xp) = r * (n `div` r + 1)) as Hlen.
  { subst xp. rewrite length_app, length_replicate. lia. }
  pose proof (block_mean_length xp r Hr) as Hbm.
  rewrite Hlen in Hbm. unfold is_ceil_div in *.
  assert (0 ≤ n `div` r) by (apply Z.div_pos; lia).
  destruct Hbm as [H1 H2]; [nia|].
  set (M := Z.of_nat (length (block_mean xp r))) in *.
  assert (M = n `div` r + 1) as -> by nia. nia.
Qed.

(** ** The path visits every row *)

Lemma chain_tail {A} (R : A → A → Prop) a l :
  chain R (a :: l) → chain R l.
Proof. intros H k p q Hp Hq. by apply (H (S k)). Qed.


Lemma back_step_rows acc q p :
  back_step acc q p → q.1 - 1 ≤ p.1 ≤ q.1.
Proof.
  intros (Hne & H1 & H2 & ->). destruct q as [i j]. simpl in *.
  destruct (prev_cell_bounds acc i j H1 H2 Hne) as (_ & _ & _ & Hmove).
  unfold allowed_move in Hmove. simpl in Hmove. lia.
Qed.


(** ** The multiscale region of a path that visits every row *)





(** ** One coarse level: cost matrix, path and projected region *)


Lemma reduce_resolution_pair x y r :
  length x = length y → (0 < length x)%nat → 1 ≤ r →
  let n := Z.of_nat (length x) in
  let xp := reduce_resolution x n r in
  let yp := reduce_resolution y n r in
  length xp = length yp ∧ is_ceil_div n r (Z.of_nat (length xp)).
Proof.
  intros Hxy Hx Hr n xp yp.
  pose proof (reduce_resolution_length x r Hr Hx) as Hcx.
  pose proof (reduce_resolution_length y r Hr ltac:(lia)) as Hcy.
  rewrite <-Hxy in Hcy. fold n in Hcx, Hcy. fold xp in Hcx. fold yp in Hcy.
  split; [|done].
  apply Nat2Z.inj. eapply is_ceil_div_unique; [|done|done]. lia.
Qed.

(** ** The coarse-to-fine loop of [dtw_fast] *)

Lemma ceil_log2_from_spec fuel : ∀ k n m,
  0 ≤ k → k = 0 ∨ m * 2 ^ (k - 1) < n →
  let k' := ceil_log2_from fuel k n m in
  0 ≤ k' ∧ (k' = 0 ∨ m * 2 ^ (k' - 1) < n).
Proof.
  induction fuel as [|fuel IH]; intros k n m Hk Hprev; simpl; [done|].
  case_decide as Hle; [done|].
  apply IH; [lia|]. right. replace (k + 1 - 1) with k by lia. lia.
Qed.




Section Claims.

Variable fsqrt : Qc → Qc.

Lemma dtw_tail_value n d cm rc ra rp :
  (2 ≤ n)%nat → square_mat n cm →
  dtw_tail fsqrt d cm rc ra rp
  = (v ← final_value fsqrt d (last_acc n cm);
     _return_results v cm (_accumulated_cost_matrix_no_region cm) rc ra rp).
Proof.
  intros Hn Hsq. unfold dtw_tail.
  rewrite (accumulated_ok n) by done. simpl.
  rewrite (acc_last n) by (done || lia). done.
Qed.

Lemma dtw_classic_tail x y d rc ra rp :
  length x = length y → (0 < length x)%nat →
  dtw_classic fsqrt x y d rc ra rp
  = (cm ← cost_matrix x y d None; dtw_tail fsqrt d cm rc ra rp).
Proof.
  intros Hxy Hx. unfold dtw_classic. by rewrite check_input_ok.
Qed.

Lemma dtw_region_tail x y d region rc ra rp :
  length x = length y → (0 < length x)%nat →
  region_shape_ok region (length x) = true →
  dtw_region fsqrt x y d (Some region) rc ra rp
  = (cm ← cost_matrix x y d (Some region); dtw_tail fsqrt d cm rc ra rp).
Proof.
  intros Hxy Hx Hshape. unfold dtw_region. rewrite check_input_ok by done.
  simpl. rewrite Nat2Z.id, Hshape. done.
Qed.

Lemma math_sqrt_nonneg v :
  nonneg v → ∃ w, math_sqrt fsqrt v = Ok w.
Proof.
  destruct v as [q|]; simpl; [|by eauto]. unfold nonneg. simpl. intros Hq.
  rewrite decide_False; [by eauto|]. by apply Qcle_not_lt.
Qed.

Lemma return_results_dist v cm acc :
  _return_results v cm acc false false false = Ok (Single (IDist v)).
Proof. done. Qed.

Lemma cost_fun_nonneg n cm :
  square_mat n cm →
  (∀ i j, 0 ≤ i < Z.of_nat n → 0 ≤ j < Z.of_nat n → nonneg (mat_get cm i j)) →
  ∀ a b, nonneg (cost_fun cm a b).
Proof.
  intros Hsq Hin a b.
  destruct (decide (a < n ∧ b < n)%nat) as [[Ha Hb]|Hout].
  - apply Hin; lia.
  - rewrite (cost_fun_out n) by (done || lia). done.
Qed.

(** C8.  For equal-length sequences of length at least two and either
    built-in distance, [dtw_classic(x, y)] returns a distance and
    [dtw_classic(y, x)] returns the same one. *)
Theorem dtw_classic_symmetric x y d :
  length x = length y → (2 ≤ length x)%nat → builtin d →
  ∃ v, dtw_classic fsqrt x y d false false false = Ok (Single (IDist v)) ∧
       dtw_classic fsqrt y x d false false false = Ok (Single (IDist v)).
Proof.
  intros Hxy Hn Hd. set (n := length x) in *.
  destruct (builtin_fun d Hd) as (dist_ & Hfun & Hsym & Hpos).
  rewrite !dtw_classic_tail by (done || lia).
  rewrite !(cost_matrix_ok _ _ d None dist_) by (done || lia). simpl.
  destruct (cost_matrix_no_region_spec x y dist_) as [Hsq Hcell].
  destruct (cost_matrix_no_region_spec y x dist_) as [Hsq' Hcell'].
  rewrite <-Hxy in Hsq', Hcell'. fold n in Hsq, Hcell, Hsq', Hcell'.
  rewrite !(dtw_tail_value n) by done.
  assert (last_acc n (_cost_matrix_no_region y x dist_)
          = last_acc n (_cost_matrix_no_region x y dist_)) as ->.
  { unfold last_acc. rewrite <-dtw_rec_transpose. apply dtw_rec_ext.
    intros a b. destruct (decide (a < n ∧ b < n)%nat) as [[Ha Hb]|Hout].
    - unfold cost_fun. rewrite Hcell, Hcell' by lia. apply Hsym.
    - rewrite !(cost_fun_out n) by (done || lia). done. }
  assert (∃ w, final_value fsqrt d (last_acc n (_cost_matrix_no_region x y dist_))
               = Ok w) as [w Hw].
  { unfold final_value. destruct (is_str d "square"); [|by eauto].
    apply math_sqrt_nonneg, dtw_rec_nonneg, (cost_fun_nonneg n); [done|].
    intros i j Hi Hj. rewrite Hcell by done. apply Hpos. }
  exists w. rewrite Hw. simpl. done.
Qed.

Lemma nonneg_mono v v' : nonneg v → nle v v' → nonneg v'.
Proof. unfold nonneg. intros. by etrans. Qed.

Lemma region_in_grid_shape n region :
  region_in_grid n region → region_shape_ok region n = true.
Proof.
  intros (H1 & H2 & _). unfold region_shape_ok.
  by rewrite H1, H2, Nat.eqb_refl.
Qed.

(** Inside a region the constrained cost matrix agrees with the full one,
    outside it holds infinity: every cell is at least the full one. *)
Lemma cost_region_ge_full x y dist_ region :
  region_in_grid (length x) region →
  ∀ a b, nle (cost_fun (_cost_matrix_no_region x y dist_) a b)
             (cost_fun (_cost_matrix_region x y dist_ region) a b).
Proof.
  intros Hreg a b. set (n := length x).
  destruct (cost_matrix_no_region_spec x y dist_) as [Hsq Hcell].
  destruct (cost_matrix_region_spec x y dist_ region Hreg) as [Hsq' Hcell'].
  destruct (decide (a < n ∧ b < n)%nat) as [[Ha Hb]|Hout].
  - unfold cost_fun. rewrite Hcell, Hcell' by (fold n; lia).
    case_decide; [done|apply nle_inf].
  - rewrite !(cost_fun_out n) by (done || lia). done.
Qed.

(** ** What a call returns *)


Lemma dtw_classic_runs_tail P x y d rc ra rp r :
  dtw_classic fsqrt x y d rc ra rp = Ok r →
  runs_tail fsqrt P (dtw_classic fsqrt x y d) x y d.
Proof.
  intros H. unfold dtw_classic in H.
  destruct (_check_input_dtw x y) as [c|] eqn:Hc; [|done].
  pose proof (check_input_inv _ _ _ Hc) as (-> & _ & _). simpl in H.
  destruct (cost_matrix x y d None) as [cm|] eqn:Hcm; [|done].
  exists None, cm. split; [done|]. split; [done|].
  intros. unfold dtw_classic. rewrite Hc. simpl. by rewrite Hcm.
Qed.


Lemma dtw_sakoechiba_runs_tail x y d w rc ra rp r :
  dtw_sakoechiba fsqrt x y d w rc ra rp = Ok r →
  runs_tail fsqrt (bounded (Z.of_nat (length x)))
    (dtw_sakoechiba fsqrt x y d w) x y d.
Proof.
  intros H. unfold dtw_sakoechiba in H.
  destruct (_check_input_dtw x y) as [c|] eqn:Hc; [|done].
  pose proof (check_input_inv _ _ _ Hc) as (-> & _ & _). simpl in H.
  destruct (sakoe_chiba_band _ w) as [region|] eqn:Hreg; [|done].
  simpl in H.
  destruct (cost_matrix x y d (Some region)) as [cm|] eqn:Hcm; [|done].
  exists (Some region), cm. split_and!; [|done|].
  - intros reg [= <-]. by eapply sakoe_chiba_band_bounded.
  - intros. unfold dtw_sakoechiba. rewrite Hc. simpl. rewrite Hreg. simpl.
    by rewrite Hcm.
Qed.

Lemma dtw_itakura_runs_tail x y d s rc ra rp r :
  dtw_itakura fsqrt x y d s rc ra rp = Ok r →
  runs_tail fsqrt (bounded (Z.of_nat (length x)))
    (dtw_itakura fsqrt x y d s) x y d.
Proof.
  intros H. unfold dtw_itakura in H.
  destruct (_check_input_dtw x y) as [c|] eqn:Hc; [|done].
  pose proof (check_input_inv _ _ _ Hc) as (-> & _ & _). simpl in H.
  destruct (itakura_parallelogram _ s) as [region|] eqn:Hreg; [|done].
  simpl in H.
  destruct (cost_matrix x y d (Some region)) as [cm|] eqn:Hcm; [|done].
  exists (Some region), cm. split_and!; [|done|].
  - intros reg [= <-]. by eapply itakura_bounded.
  - intros. unfold dtw_itakura. rewrite Hc. simpl. rewrite Hreg. simpl.
    by rewrite Hcm.
Qed.

Lemma dtw_multiscale_runs_tail x y d res rad rc ra rp r :
  dtw_multiscale fsqrt x y d res rad rc ra rp = Ok r →
  runs_tail fsqrt (bounded (Z.of_nat (length x)))
    (dtw_multiscale fsqrt x y d res rad) x y d.
Proof.
  intros H. unfold dtw_multiscale in H.
  destruct (_check_input_dtw x y) as [c|] eqn:Hc; [|done].
  pose proof (check_input_inv _ _ _ Hc) as (-> & _ & _). simpl in H.
  destruct (check_int_ge res 1) as [res'|] eqn:Hres; [|done]. simpl in H.
  destruct (check_int_ge rad 0) as [rad'|] eqn:Hrad; [|done]. simpl in H.
  match type of H with
  | (?m ≫= _) = _ => destruct m as [region|] eqn:Hreg; [|done]
  end.
  simpl in H.
  destruct (cost_matrix x y d region) as [cm|] eqn:Hcm; [|done].
  exists region, cm. split_and!; [|done|].
  - intros reg ->. case_decide; [done|].
    apply bind_Ok in Hreg as (cmr & _ & Hreg).
    apply bind_Ok in Hreg as (accr & _ & Hreg).
    apply bind_Ok in Hreg as (path & _ & Hreg).
    apply bind_Ok in Hreg as (reg' & Hreg' & Hreg).
    injection Hreg as <-.
    eapply multiscale_region_bounded; [|done]. lia.
  - intros. unfold dtw_multiscale. rewrite Hc. simpl. rewrite Hres. simpl.
    rewrite Hrad. simpl. rewrite Hreg. simpl. by rewrite Hcm.
Qed.

Lemma dtw_fast_runs_tail x y d rad rc ra rp r :
  dtw_fast fsqrt x y d rad rc ra rp = Ok r →
  runs_tail fsqrt (bounded (Z.of_nat (length x)))
    (dtw_fast fsqrt x y d rad) x y d.
Proof.
  intros H. unfold dtw_fast in H.
  destruct (_check_input_dtw x y) as [c|] eqn:Hc; [|done].
  pose proof (check_input_inv _ _ _ Hc) as (-> & _ & _). simpl in H.
  destruct (check_int_ge rad 0) as [rad'|] eqn:Hrad; [|done]. simpl in H.
  destruct (fast_region x y _ d rad') as [region|] eqn:Hreg; [|done].
  simpl in H.
  destruct (cost_matrix x y d region) as [cm|] eqn:Hcm; [|done].
  exists region, cm. split_and!; [|done|].
  - intros reg ->. eapply fast_region_bounded; [|done]. lia.
  - intros. unfold dtw_fast. rewrite Hc. simpl. rewrite Hrad. simpl.
    rewrite Hreg. simpl. by rewrite Hcm.
Qed.

Lemma runs_tail_ext P call call' x y d :
  (∀ rc ra rp, call' rc ra rp = call rc ra rp) →
  runs_tail fsqrt P call x y d → runs_tail fsqrt P call' x y d.
Proof.
  intros Heq (region & cm & HP & Hcm & Hcall).
  exists region, cm. split_and!; [done|done|].
  intros. by rewrite Heq.
Qed.

Lemma dtw_runs_tail x y d method options rc ra rp r :
  dtw fsqrt x y d method options rc ra rp = Ok r →
  runs_tail fsqrt (bounded (Z.of_nat (length x)))
    (dtw fsqrt x y d method options) x y d.
Proof.
  unfold dtw. intros H.
  destruct (String.eqb method "classic");
    [by eapply dtw_classic_runs_tail|].
  destruct (String.eqb method "sakoechiba").
  { destruct (check_kwargs _ _) as [u|] eqn:Hk; [|done]. simpl in H.
    eapply runs_tail_ext; [|by eapply dtw_sakoechiba_runs_tail]. done. }
  destruct (String.eqb method "itakura").
  { destruct (check_kwargs _ _) as [u|] eqn:Hk; [|done]. simpl in H.
    eapply runs_tail_ext; [|by eapply dtw_itakura_runs_tail]. done. }
  destruct (String.eqb method "multiscale").
  { destruct (check_kwargs _ _) as [u|] eqn:Hk; [|done]. simpl in H.
    eapply runs_tail_ext; [|by eapply dtw_multiscale_runs_tail]. done. }
  destruct (String.eqb method "fast"); [|done].
  destruct (check_kwargs _ _) as [u|] eqn:Hk; [|done]. simpl in H.
  eapply runs_tail_ext; [|by eapply dtw_fast_runs_tail]. done.
Qed.


(** C9.  With [n <= radius + 2] the coarse-to-fine loop of [dtw_fast] is
    not entered, the region stays [None], and every result of [dtw_fast]
    (distance, matrices, path, or the exception) is that of
    [dtw_classic]. *)
Theorem dtw_fast_small_is_classic x y d radius rc ra rp :
  0 ≤ radius → Z.of_nat (length x) ≤ radius + 2 →
  fast_region x y (Z.of_nat (length x)) d radius = Ok None ∧
  dtw_fast fsqrt x y d (VInt radius) rc ra rp
  = dtw_classic fsqrt x y d rc ra rp.
Proof.
  intros Hr Hn.
  assert (fast_region x y (Z.of_nat (length x)) d radius = Ok None) as Hreg.
  { unfold fast_region. by rewrite decide_False by lia. }
  split; [done|]. unfold dtw_fast, dtw_classic.
  destruct (_check_input_dtw x y) as [c|e] eqn:Hc; [|done].
  apply check_input_inv in Hc as (-> & _ & _). simpl.
  rewrite bool_decide_true by done. simpl. by rewrite Hreg.
Qed.

(** ** The variants return *)

Lemma dtw_tail_returns n d cm rc ra rp :
  (2 ≤ n)%nat → square_mat n cm →
  (is_str d "square" = true → cells_nonneg n cm) →
  ∃ r, dtw_tail fsqrt d cm rc ra rp = Ok r.
Proof.
  intros Hn Hsq Hpos. rewrite (dtw_tail_value n) by done.
  assert (∃ v, final_value fsqrt d (last_acc n cm) = Ok v) as [v ->].
  { unfold final_value. destruct (is_str d "square"); [|by eauto].
    destruct (Hpos eq_refl) as [_ Hcells].
    by apply math_sqrt_nonneg, dtw_rec_nonneg, (cost_fun_nonneg n). }
  simpl. unfold _return_results.
  destruct (acc_no_region_cell n cm ltac:(lia) Hsq) as [[Hlen _] _].
  destruct (return_path_returns (_accumulated_cost_matrix_no_region cm))
    as [path ->]; [lia|].
  destruct rc, ra, rp; simpl; by eauto.
Qed.

Lemma cost_then_tail_returns x y d region rc ra rp :
  length x = length y → (2 ≤ length x)%nat →
  is_Some (dist_fun d) →
  (∀ reg, region = Some reg → region_shape_ok reg (length x) = true) →
  ∃ cm r, cost_matrix x y d region = Ok cm ∧
          dtw_tail fsqrt d cm rc ra rp = Ok r.
Proof.
  intros Hxy Hn [dist_ Hd] Hshape.
  assert (∃ cm, cost_matrix x y d region = Ok cm) as [cm Hcm].
  { rewrite (cost_matrix_ok _ _ _ _ dist_) by (done || lia).
    destruct region as [reg|]; [|by eauto].
    rewrite (Hshape reg) by done. by eauto. }
  exists cm. pose proof (cost_matrix_square _ _ _ _ _ Hcm) as Hsq.
  destruct (dtw_tail_returns (length x) d cm rc ra rp) as [r Hr];
    [done|done|by apply (cost_matrix_cells x y d region)|].
  by exists r.
Qed.







Section Monotone.

(** [math.sqrt] is monotone on the non-negative floats. *)
Hypothesis fsqrt_mono :
  ∀ p q, (0 ≤ p)%Qc → (p ≤ q)%Qc → (fsqrt p ≤ fsqrt q)%Qc.

Lemma final_value_mono d v v' w :
  nonneg v → nle v v' → final_value fsqrt d v = Ok w →
  ∃ w', final_value fsqrt d v' = Ok w' ∧ nle w w'.
Proof.
  unfold final_value. intros Hpos Hle.
  destruct (is_str d "square"); [|intros [= <-]; by eauto].
  pose proof (nonneg_mono _ _ Hpos Hle) as Hpos'.
  destruct v as [p|], v' as [q|]; simpl in *; try done.
  - unfold nonneg in *. simpl in *.
    rewrite !decide_False by (by apply Qcle_not_lt).
    intros [= <-]. eexists; split; [done|]. simpl. by apply fsqrt_mono.
  - unfold nonneg in *. simpl in *.
    rewrite !decide_False by (by apply Qcle_not_lt).
    intros [= <-]. by eexists.
  - intros [= <-]. by eexists.
Qed.

Lemma region_ge_classic x y d region :
  length x = length y → (2 ≤ length x)%nat → builtin d →
  region_in_grid (length x) region →
  ∃ v_region v_classic,
    dtw_region fsqrt x y d (Some region) false false false
      = Ok (Single (IDist v_region)) ∧
    dtw_classic fsqrt x y d false false false
      = Ok (Single (IDist v_classic)) ∧
    nle v_classic v_region.
Proof.
  intros Hxy Hn Hd Hreg. set (n := length x) in *.
  destruct (builtin_fun d Hd) as (dist_ & Hfun & Hsym & Hpos).
  pose proof (region_in_grid_shape _ _ Hreg) as Hshape.
  rewrite dtw_classic_tail, dtw_region_tail by (done || lia).
  rewrite (cost_matrix_ok _ _ d None dist_) by (done || lia).
  rewrite (cost_matrix_ok _ _ d (Some region) dist_) by (done || lia).
  fold n. rewrite Hshape. simpl.
  destruct (cost_matrix_no_region_spec x y dist_) as [Hsq Hcell].
  pose proof (cost_matrix_region_square x y dist_ region) as Hsq'.
  fold n in Hsq, Hcell, Hsq'.
  rewrite !(dtw_tail_value n) by done.
  set (vc := last_acc n (_cost_matrix_no_region x y dist_)).
  set (vr := last_acc n (_cost_matrix_region x y dist_ region)).
  assert (nonneg vc) as Hvc.
  { apply dtw_rec_nonneg, (cost_fun_nonneg n); [done|].
    intros i j Hi Hj. rewrite Hcell by done. apply Hpos. }
  assert (nle vc vr) as Hle.
  { apply dtw_rec_mono. by apply cost_region_ge_full. }
  assert (∃ w, final_value fsqrt d vc = Ok w) as [w Hw].
  { unfold final_value. destruct (is_str d "square"); [|by eauto].
    by apply math_sqrt_nonneg. }
  destruct (final_value_mono d vc vr w Hvc Hle Hw) as (w' & Hw' & Hww').
  exists w', w. rewrite Hw, Hw'. done.
Qed.

(** C3.  For equal-length sequences of length at least two and a built-in
    distance: for every region whose row ranges lie inside the grid,
    [dtw_region] and [dtw_classic] both return a distance and the
    constrained one is at least the classic one; and whatever distance
    [dtw] returns, for any method and options, is at least the classic
    one. *)
Theorem dtw_constrained_ge_classic x y d :
  length x = length y → (2 ≤ length x)%nat → builtin d →
  (∀ region, region_in_grid (length x) region →
     ∃ v_region v_classic,
       dtw_region fsqrt x y d (Some region) false false false
         = Ok (Single (IDist v_region)) ∧
       dtw_classic fsqrt x y d false false false
         = Ok (Single (IDist v_classic)) ∧
       nle v_classic v_region) ∧
  (∀ method options r,
     dtw fsqrt x y d method options false false false = Ok r →
     ∃ v v_classic,
       r = Single (IDist v) ∧
       dtw_classic fsqrt x y d false false false
         = Ok (Single (IDist v_classic)) ∧
       nle v_classic v).
Proof.
  intros Hxy Hn Hd. split; [intros region; by apply region_ge_classic|].
  intros method options r H.
  pose proof (dtw_runs_tail _ _ _ _ _ _ _ _ _ H)
    as (region & cm & HP & Hcm & Hcall).
  rewrite Hcall in H. rename H into Htail.
  destruct region as [reg|].
  - pose proof (cost_matrix_inv _ _ _ _ _ Hcm) as (_ & _ & _ & _ & Hshape & _).
    assert (region_in_grid (length x) reg) as Hgrid.
    { apply bounded_in_grid; [by apply HP|done]. }
    destruct (region_ge_classic x y d reg Hxy Hn Hd Hgrid)
      as (vr & vc & Hr & Hc & Hle).
    rewrite dtw_region_tail, Hcm in Hr by (done || lia). simpl in Hr.
    exists vr, vc. split; [congruence|done].
  - pose proof (cost_matrix_square _ _ _ _ _ Hcm) as Hsq.
    rewrite (dtw_tail_value (length x)) in Htail by done.
    apply bind_Ok in Htail as (v & Hv & Hr).
    rewrite return_results_dist in Hr. injection Hr as <-.
    exists v, v. split; [done|]. split; [|done].
    rewrite dtw_classic_tail, Hcm by (done || lia). simpl.
    rewrite (dtw_tail_value (length x)) by done. by rewrite Hv.
Qed.

End Monotone.

End Claims.

(** ** The region-restricted accumulation on the full grid *)

(** C1 (the code departs from the recurrence).  On a 4 x 4 cost matrix
    with the region that is the whole grid, [accumulated_cost_matrix]
    returns 0 in the base-row cell [(0, 2)] and 0 in the last cell, where
    the recurrence (and the same function called without a region) has
    100: for [i = 0] the loop over the region reads row [i - 1 = -1], the
    last row. *)
Theorem accumulated_region_wraps_row :
  accumulated_cost_matrix wrap_cost (Some full_grid4)
    = Ok (_accumulated_cost_matrix_region wrap_cost full_grid4) ∧
  accumulated_cost_matrix wrap_cost None
    = Ok (_accumulated_cost_matrix_no_region wrap_cost) ∧
  region_mask full_grid4 0 2 = true ∧
  show (mat_get (_accumulated_cost_matrix_region wrap_cost full_grid4) 0 2)
    = Some (0 # 1)%Q ∧
  show (claimed_acc (cost_fun wrap_cost) (region_mask full_grid4) 0 2)
    = Some (100 # 1)%Q ∧
  show (mat_get (_accumulated_cost_matrix_no_region wrap_cost) 0 2)
    = Some (100 # 1)%Q ∧
  show (mat_get (_accumulated_cost_matrix_region wrap_cost full_grid4) 3 3)
    = Some (0 # 1)%Q ∧
  show (claimed_acc (cost_fun wrap_cost) (region_mask full_grid4) 3 3)
    = Some (100 # 1)%Q ∧
  show (mat_get (_accumulated_cost_matrix_no_region wrap_cost) 3 3)
    = Some (100 # 1)%Q.
Proof. repeat split; vm_compute; reflexivity. Qed.

(** A second departure: a cell outside the region that is not infinite.
    With rows [[1, 2)] valid in column 1, cell [(0, 1)] is outside the
    region, yet it receives the running sum of row 0, whose extent is taken
    from [region[1, 0]]. *)
Example accumulated_region_finite_outside :
  let cost := List.map (List.map fz) [[1; 1]; [1; 1]] in
  let region := ([0; 1], [2; 2]) in
  region_mask region 0 1 = false ∧
  show (mat_get (_accumulated_cost_matrix_region cost region) 0 1)
    = Some (2 # 1)%Q.
Proof. split; vm_compute; reflexivity. Qed.

(** ** The multiscale region *)

(** C2 (the code departs from the dilation).  For the diagonal coarse path
    of six cells, resolution 2 and radius 2, the claimed range of coarse
    index 0 is [0 .. 6] and that of index 2 is [0 .. 10]; the code yields
    [0 .. 4] and [2 .. 10]: it shifts the first half of the path by 1 only
    and the second half by 2 only.  With radius 1 the two agree. *)
Theorem multiscale_region_radius_two :
  _multiscale_region 12 2 6 (np_transpose_pairs (diagonal 6)) 2
    = Ok ([0; 0; 0; 0; 2; 2; 2; 2; 4; 4; 6; 6],
          [4; 4; 8; 8; 10; 10; 12; 12; 12; 12; 12; 12]) ∧
  (λ i, claimed_range (diagonal 6) 2 6 2 12 i) <$> seqZ 0 6
    = [Ok (0, 6); Ok (0, 8); Ok (0, 10); Ok (2, 12); Ok (4, 12); Ok (6, 12)] ∧
  _multiscale_region 12 2 6 (np_transpose_pairs (diagonal 6)) 1
    = Ok ([0; 0; 0; 0; 2; 2; 4; 4; 6; 6; 8; 8],
          [4; 4; 6; 6; 8; 8; 10; 10; 12; 12; 12; 12]) ∧
  (λ i, claimed_range (diagonal 6) 1 6 2 12 i) <$> seqZ 0 6
    = [Ok (0, 4); Ok (0, 6); Ok (2, 8); Ok (4, 10); Ok (6, 12); Ok (8, 12)].
Proof. repeat split; vm_compute; reflexivity. Qed.

(** ** Instances on concrete inputs *)

Lemma floor_sqrt_mono p q :
  (0 ≤ p)%Qc → (p ≤ q)%Qc → (floor_sqrt p ≤ floor_sqrt q)%Qc.
Proof.
  intros _ Hpq. unfold floor_sqrt.
  apply (proj1 (Z2Qc_inj_le _ _)).
  apply Z.sqrt_le_mono. by apply Qfloor_resp_le.
Qed.

Lemma doc_region_in_grid : region_in_grid 3 doc_region.
Proof.
  split; [reflexivity|]. split; [reflexivity|]. intros j Hj.
  assert (j = 0 ∨ j = 1 ∨ j = 2) as [-> | [-> | ->]] by lia;
    vm_compute; split; discriminate.
Defined.

Lemma dtw_classic_symmetric_witness :
  ∃ v, dtw_classic floor_sqrt doc_x doc_y (DStr "square") false false false
         = Ok (Single (IDist v)) ∧
       dtw_classic floor_sqrt doc_y doc_x (DStr "square") false false false
         = Ok (Single (IDist v)).
Proof.
  apply (dtw_classic_symmetric floor_sqrt doc_x doc_y (DStr "square")).
  - reflexivity.
  - simpl. lia.
  - left. reflexivity.
Defined.

Lemma dtw_constrained_ge_classic_witness :
  (∃ v_region v_classic,
     dtw_region floor_sqrt doc_x doc_y (DStr "square") (Some doc_region)
         false false false
       = Ok (Single (IDist v_region)) ∧
     dtw_classic floor_sqrt doc_x doc_y (DStr "square") false false false
       = Ok (Single (IDist v_classic)) ∧
     nle v_classic v_region) ∧
  (∃ v v_classic,
     doc_ret_plain = Single (IDist v) ∧
     dtw_classic floor_sqrt doc_x doc_y (DStr "square") false false false
       = Ok (Single (IDist v_classic)) ∧
     nle v_classic v).
Proof.
  destruct (dtw_constrained_ge_classic floor_sqrt floor_sqrt_mono
              doc_x doc_y (DStr "square")) as [Hregion Hmethod].
  - reflexivity.
  - simpl. lia.
  - left. reflexivity.
  - split.
    + apply Hregion. exact doc_region_in_grid.
    + apply (Hmethod "itakura"
               (Some {[ "max_slope" := VFloat (Q2Qc (3 # 2)) ]})).
      vm_compute. reflexivity.
Defined.

Lemma return_path_correct_witness :
  ∃ cells,
    _return_path doc_acc = Some (np_transpose_pairs cells) ∧
    head cells = Some (0, 0) ∧
    last cells = Some (3 - 1, 3 - 1) ∧
    ∀ k p q, cells !! k = Some p → cells !! S k = Some q →
      allowed_move p q ∧ (0 < q.1 → 0 < q.2 → p = best_pred doc_acc q).
Proof.
  apply (return_path_correct doc_acc). vm_compute. discriminate.
Defined.


Lemma sakoe_chiba_band_correct_witness :
  sakoe_chiba_band 26 (VFloat (float_lit (28 # 100))) = Ok (band 26 8) ∧
  sakoe_chiba_band 5 (VInt 2) = Ok ([0; 0; 0; 1; 2], [3; 4; 5; 5; 5]).
Proof.
  apply (sakoe_chiba_band_correct 26 (VFloat (float_lit (28 # 100))) 8).
  - lia.
  - vm_compute. reflexivity.
Defined.

Lemma sakoe_chiba_band_float_vs_int_witness :
  resolved_window 5 (VFloat 1%Qc) = Some (5 - 1) ∧
  sakoe_chiba_band 5 (VFloat 1%Qc)
    = Ok ((λ _, 0) <$> seqZ 0 5, (λ _, 5) <$> seqZ 0 5) ∧
  resolved_window 5 (VInt 1) = Some 1 ∧
  sakoe_chiba_band 5 (VInt 1) = Ok (band 5 1) ∧
  (3 ≤ 5 → sakoe_chiba_band 5 (VFloat 1%Qc) ≠ sakoe_chiba_band 5 (VInt 1)).
Proof. apply (sakoe_chiba_band_float_vs_int 5). lia. Defined.

Lemma itakura_slope_one_is_diagonal_witness :
  itakura_parallelogram 5 (VFloat 1%Qc)
  = Ok (seqZ 0 5, (λ j, j + 1) <$> seqZ 0 5).
Proof.
  apply (itakura_slope_one_is_diagonal 5 (VFloat 1%Qc)).
  - lia.
  - right. reflexivity.
Defined.

Lemma dtw_fast_small_is_classic_witness :
  fast_region doc_x doc_y (Z.of_nat (length doc_x)) (DStr "square") 1
    = Ok None ∧
  dtw_fast floor_sqrt doc_x doc_y (DStr "square") (VInt 1) true true true
  = dtw_classic floor_sqrt doc_x doc_y (DStr "square") true true true.
Proof.
  apply (dtw_fast_small_is_classic floor_sqrt doc_x doc_y (DStr "square") 1).
  - lia.
  - simpl. lia.
Defined.

(** The documented runs: [dtw_classic([0, 1, 1], [2, 0, 1])] is 2, and the
    region [[0, 1, 1], [2, 2, 3]] has accumulated cost 5 in the last cell
    (its distance is the square root of 5). *)
Example dtw_classic_doc :
  dtw_classic floor_sqrt doc_x doc_y (DStr "square") false false false
  = Ok (Single (IDist (fz 2))).
Proof. vm_compute. reflexivity. Qed.

Example dtw_region_doc :
  (cm ← cost_matrix doc_x doc_y (DStr "square") (Some doc_region);
   acc ← accumulated_cost_matrix cm None;
   Ok (show_mat acc))
  = Ok [[Some (4 # 1); None; None];
        [Some (5 # 1); Some (5 # 1); Some (5 # 1)];
        [None; None; Some (5 # 1)]]%Q.
Proof. vm_compute. reflexivity. Qed.

Example acc_classic_doc :
  show_mat (_accumulated_cost_matrix_no_region
       (_cost_matrix_no_region [qz 0; qz 1; qz 1] [qz 2; qz 0; qz 1]
          _square))
  = [[Some (4#1); Some (4#1); Some (5#1)];
     [Some (5#1); Some (5#1); Some (4#1)];
     [Some (6#1); Some (6#1); Some (4#1)]]%Q.
Proof. vm_compute. reflexivity. Qed.

(** * Further properties of the module *)

(** ** What [accumulated_cost_matrix] accepts, and what it computes *)

Lemma mat_shape_inv m rows cols :
  mat_shape m = Some (rows, cols) → (0 < rows)%nat →
  length m = rows ∧ Forall (λ row, length row = cols) m.
Proof.
  destruct m as [|row rest]; simpl; [intros [= <- <-]; lia|].
  destruct (forallb _ rest) eqn:E; [|done]. intros [= <- <-] _.
  split; [done|]. apply Forall_cons. split; [done|].
  apply Forall_forall. intros r Hr. apply Nat.eqb_eq.
  rewrite forallb_forall in E. apply E. by apply list_elem_of_In.
Qed.

(** The checks of [accumulated_cost_matrix], case by case. *)
Lemma accumulated_cost_matrix_cases (cost_mat : matrix)
    (region : option int2) :
  (∀ e, accumulated_cost_matrix cost_mat region = Raise e → e = ValueError) ∧
  ((∃ acc, accumulated_cost_matrix cost_mat region = Ok acc) ↔
   ∃ n, (2 ≤ n)%nat ∧ square_mat n cost_mat ∧
        ∀ reg, region = Some reg → region_shape_ok reg n = true).
Proof.
  unfold accumulated_cost_matrix.
  destruct (mat_shape cost_mat) as [[rows cols]|] eqn:Hshape.
  2:{ split; [by intros e [= <-]|]. split; [by intros [? ?]|].
      intros (n & Hn & Hsq & _).
      by rewrite (mat_shape_square n) in Hshape. }
  destruct (Nat.leb 2 rows && Nat.leb 2 cols) eqn:Hmin; simpl.
  2:{ split; [by intros e [= <-]|]. split; [by intros [? ?]|].
      intros (n & Hn & Hsq & _).
      rewrite (mat_shape_square n) in Hshape by done.
      injection Hshape as <- <-.
      apply andb_false_iff in Hmin as [H|H]; apply Nat.leb_gt in H; lia. }
  apply andb_true_iff in Hmin as [Hr Hc]. apply Nat.leb_le in Hr, Hc.
  destruct (Nat.eqb rows cols) eqn:Heq; simpl.
  2:{ split; [by intros e [= <-]|]. split; [by intros [? ?]|].
      intros (n & Hn & Hsq & _).
      rewrite (mat_shape_square n) in Hshape by done.
      injection Hshape as <- <-. by rewrite Nat.eqb_refl in Heq. }
  apply Nat.eqb_eq in Heq. subst cols.
  destruct (mat_shape_inv _ _ _ Hshape) as [Hlen Hrows]; [lia|].
  destruct region as [reg|]; simpl.
  - destruct (region_shape_ok reg rows) eqn:Hreg; simpl.
    + split; [done|]. split; [|by eauto]. intros _. exists rows.
      split_and!; [done|done|]. by intros ? [= <-].
    + split; [by intros e [= <-]|]. split; [by intros [? ?]|].
      intros (n & Hn & Hsq & Hr').
      rewrite (mat_shape_square n) in Hshape by done.
      injection Hshape as <-. by rewrite (Hr' reg) in Hreg.
  - split; [done|]. split; [|by eauto]. intros _. exists rows.
    split_and!; done.
Qed.

Lemma set_row_prefix_square n m vals :
  (length vals ≤ n)%nat → square_mat n m →
  square_mat n (set_row_prefix m 0 vals).
Proof.
  intros Hv [Hlen Hrows]. unfold set_row_prefix.
  split; [by rewrite length_alter|].
  apply Forall_lookup. intros a row. rewrite list_lookup_alter.
  rewrite Forall_lookup in Hrows.
  case_decide as Ha; [|by apply Hrows].
  subst a. destruct (m !! 0%nat) as [r|] eqn:Hr; simpl; [|done].
  intros [= <-]. rewrite length_app, length_drop, (Hrows _ _ Hr). lia.
Qed.

Lemma set_col_prefix_square n m vals :
  square_mat n m → square_mat n (set_col_prefix m 0 vals).
Proof.
  intros [Hlen Hrows]. unfold set_col_prefix.
  split; [by rewrite length_imap|].
  apply Forall_lookup. intros a row. rewrite list_lookup_imap.
  rewrite Forall_lookup in Hrows.
  destruct (m !! a) as [r|] eqn:Hr; simpl; [|done].
  intros [= <-]. destruct (vals !! a); [rewrite length_insert|];
    by apply (Hrows a).
Qed.

Lemma acc_region_square n (c : matrix) (region : int2) :
  square_mat n c → square_mat n (_accumulated_cost_matrix_region c region).
Proof.
  intros Hc. pose proof Hc as [Hlen _].
  unfold _accumulated_cost_matrix_region. cbv zeta.
  apply (foldl_preserves (square_mat n)).
  - apply set_col_prefix_square, set_row_prefix_square.
    + rewrite length_np_cumsum, length_take. unfold slice_stop.
      case_decide; lia.
    + rewrite Hlen, <-(Nat2Z.id n) at 1. apply np_full_square. lia.
  - intros acc j Hacc. apply (foldl_preserves (square_mat n)); [done|].
    intros acc' i Hacc'. by apply mat_set_square.
Qed.

(** X1.  [accumulated_cost_matrix] refuses with [ValueError] every cost
    matrix that is not square with at least two rows (a 1 x 1 or a ragged
    matrix) and every region that has not two rows of that length; for a
    square cost matrix with at least two rows, and no region or a region
    whose ranges stay in the grid, it returns a matrix of the same
    shape. *)
Theorem accumulated_cost_matrix_accepts (cost_mat : matrix)
    (region : option int2) :
  ((¬ ∃ n, (2 ≤ n)%nat ∧ square_mat n cost_mat ∧
           ∀ reg, region = Some reg → region_shape_ok reg n = true) →
   accumulated_cost_matrix cost_mat region = Raise ValueError) ∧
  (∀ n, (2 ≤ n)%nat → square_mat n cost_mat →
     (∀ reg, region = Some reg → region_in_grid n reg) →
     ∃ acc, accumulated_cost_matrix cost_mat region = Ok acc ∧
            square_mat n acc).
Proof.
  destruct (accumulated_cost_matrix_cases cost_mat region) as [Herr Hiff].
  split.
  - intros Hno.
    destruct (accumulated_cost_matrix cost_mat region) as [acc|e] eqn:E.
    + destruct Hno. apply Hiff. by eauto.
    + by rewrite (Herr e).
  - intros n Hn Hsq Hgrid. unfold accumulated_cost_matrix.
    rewrite (mat_shape_square n) by done.
    rewrite (proj2 (Nat.leb_le 2 n)) by done. simpl.
    rewrite Nat.eqb_refl. simpl.
    destruct region as [reg|].
    + destruct (Hgrid reg eq_refl) as (H1 & H2 & _).
      unfold region_shape_ok. rewrite H1, H2, Nat.eqb_refl. simpl.
      eexists. split; [done|]. by apply acc_region_square.
    + eexists. split; [done|]. apply acc_no_region_cell; (done || lia).
Qed.

(** The recurrence as equations between the cells of the accumulated
    cost matrix. *)
Lemma acc_recurrence n (c : matrix) :
  (0 < n)%nat → square_mat n c →
  let acc := _accumulated_cost_matrix_no_region c in
  mat_get acc 0 0 = mat_get c 0 0 ∧
  (∀ j, 1 ≤ j < Z.of_nat n →
     mat_get acc 0 j = nadd (mat_get acc 0 (j - 1)) (mat_get c 0 j)) ∧
  (∀ i, 1 ≤ i < Z.of_nat n →
     mat_get acc i 0 = nadd (mat_get acc (i - 1) 0) (mat_get c i 0)) ∧
  (∀ i j, 1 ≤ i < Z.of_nat n → 1 ≤ j < Z.of_nat n →
     mat_get acc i j
     = nadd (mat_get c i j)
         (py_min (mat_get acc (i - 1) (j - 1)) (mat_get acc (i - 1) j)
                 (mat_get acc i (j - 1)))).
Proof.
  intros Hn Hsq acc.
  destruct (acc_no_region_cell n c Hn Hsq) as [Hsqa Hcell].
  fold acc in Hsqa, Hcell. split_and!.
  - by rewrite Hcell by lia.
  - intros j Hj. rewrite (Hcell 0 j), (Hcell 0 (j - 1)) by lia.
    unfold acc_spec. change (Z.to_nat 0) with 0%nat. rewrite !dtw_rec_0.
    replace (Z.to_nat j) with (S (Z.to_nat (j - 1))) by lia.
    simpl. f_equal. unfold cost_fun. f_equal; lia.
  - intros i Hi. rewrite (Hcell i 0), (Hcell (i - 1) 0) by lia.
    unfold acc_spec. change (Z.to_nat 0) with 0%nat.
    replace (Z.to_nat i) with (S (Z.to_nat (i - 1))) by lia.
    rewrite dtw_rec_S_0. f_equal. unfold cost_fun. f_equal; lia.
  - intros i j Hi Hj.
    rewrite (Hcell i j), (Hcell (i - 1) (j - 1)), (Hcell (i - 1) j),
      (Hcell i (j - 1)) by lia.
    apply acc_spec_step; lia.
Qed.

(** X2.  Without a region, [accumulated_cost_matrix] returns, for a square
    cost matrix with at least two rows, a matrix of the same shape whose
    cells satisfy the recurrence: the corner is the corner of the cost
    matrix, a cell of the base row or base column adds its cost to the cell
    before it, any other cell adds its cost to the least of its three
    predecessors. *)
Theorem accumulated_no_region_recurrence n (cost_mat : matrix) :
  (2 ≤ n)%nat → square_mat n cost_mat →
  ∃ acc,
    accumulated_cost_matrix cost_mat None = Ok acc ∧
    square_mat n acc ∧
    mat_get acc 0 0 = mat_get cost_mat 0 0 ∧
    (∀ j, 1 ≤ j < Z.of_nat n →
       mat_get acc 0 j = nadd (mat_get acc 0 (j - 1)) (mat_get cost_mat 0 j)) ∧
    (∀ i, 1 ≤ i < Z.of_nat n →
       mat_get acc i 0 = nadd (mat_get acc (i - 1) 0) (mat_get cost_mat i 0)) ∧
    (∀ i j, 1 ≤ i < Z.of_nat n → 1 ≤ j < Z.of_nat n →
       mat_get acc i j
       = nadd (mat_get cost_mat i j)
           (py_min (mat_get acc (i - 1) (j - 1)) (mat_get acc (i - 1) j)
                   (mat_get acc i (j - 1)))).
Proof.
  intros Hn Hsq. exists (_accumulated_cost_matrix_no_region cost_mat).
  split; [by apply (accumulated_ok n)|].
  split; [apply acc_no_region_cell; (done || lia)|].
  apply (acc_recurrence n); (done || lia).
Qed.

Lemma accumulated_no_region_recurrence_witness :
  ∃ acc,
    accumulated_cost_matrix wrap_cost None = Ok acc ∧
    square_mat 4 acc ∧
    mat_get acc 0 0 = mat_get wrap_cost 0 0 ∧
    (∀ j, 1 ≤ j < Z.of_nat 4 →
       mat_get acc 0 j = nadd (mat_get acc 0 (j - 1)) (mat_get wrap_cost 0 j)) ∧
    (∀ i, 1 ≤ i < Z.of_nat 4 →
       mat_get acc i 0 = nadd (mat_get acc (i - 1) 0) (mat_get wrap_cost i 0)) ∧
    (∀ i j, 1 ≤ i < Z.of_nat 4 → 1 ≤ j < Z.of_nat 4 →
       mat_get acc i j
       = nadd (mat_get wrap_cost i j)
           (py_min (mat_get acc (i - 1) (j - 1)) (mat_get acc (i - 1) j)
                   (mat_get acc i (j - 1)))).
Proof.
  apply (accumulated_no_region_recurrence 4 wrap_cost).
  - lia.
  - split; [reflexivity|]. repeat constructor.
Defined.

(** ** What [cost_matrix] accepts, and what it computes *)

Lemma dist_fun_is_Some d :
  is_Some (dist_fun d) ↔
  (∀ s, d = DStr s → s = "square" ∨ s = "absolute") ∧ ∀ p, d ≠ DObject p.
Proof.
  unfold dist_fun. destruct d as [s|f|p]; simpl.
  - destruct (String.eqb s "square") eqn:E1.
    { apply String.eqb_eq in E1. split; [|by eauto].
      intros _. split; [|done]. intros ? [= <-]. by left. }
    destruct (String.eqb s "absolute") eqn:E2.
    { apply String.eqb_eq in E2. split; [|by eauto].
      intros _. split; [|done]. intros ? [= <-]. by right. }
    apply String.eqb_neq in E1, E2. split; [by intros [? ?]|].
    intros [H _]. destruct (H s eq_refl); done.
  - split; [by intros _|by eauto].
  - split; [by intros [? ?]|]. intros [_ H]. by destruct (H p).
Qed.

(** The checks of [cost_matrix], case by case. *)
Lemma cost_matrix_cases x y d (region : option int2) :
  (∀ e, cost_matrix x y d region = Raise e → e = ValueError) ∧
  ((∃ cm, cost_matrix x y d region = Ok cm) ↔
   length x = length y ∧ (0 < length x)%nat ∧
   ((∀ s, d = DStr s → s = "square" ∨ s = "absolute") ∧
    ∀ p, d ≠ DObject p) ∧
   ∀ reg, region = Some reg → region_shape_ok reg (length x) = true).
Proof.
  split.
  - unfold cost_matrix, _check_input_dtw. intros e.
    destruct (negb (length x =? 0)%nat); simpl; [|by intros [= <-]].
    destruct (negb (length y =? 0)%nat); simpl; [|by intros [= <-]].
    destruct (length x =? length y)%nat; simpl; [|by intros [= <-]].
    destruct (is_str d "square"); simpl.
    { destruct region as [reg|]; simpl; [|done].
      destruct (region_shape_ok reg (length x)); simpl; [done|by intros [= <-]]. }
    destruct (is_str d "absolute"); simpl.
    { destruct region as [reg|]; simpl; [|done].
      destruct (region_shape_ok reg (length x)); simpl; [done|by intros [= <-]]. }
    destruct d as [s|f|[]]; simpl;
      [by intros [= <-]| |by intros [= <-]|by intros [= <-]].
    destruct region as [reg|]; simpl; [|done].
    destruct (region_shape_ok reg (length x)); simpl; [done|by intros [= <-]].
  - rewrite <-dist_fun_is_Some. split.
    + intros [cm Hcm].
      apply cost_matrix_inv in Hcm as (Hxy & Hx & dist_ & Hd & Hreg).
      split_and!; [done|done|by eexists|].
      intros reg ->. by destruct Hreg.
    + intros (Hxy & Hx & [dist_ Hd] & Hshape).
      rewrite (cost_matrix_ok _ _ _ _ dist_) by done.
      destruct region as [reg|]; [|by eauto].
      rewrite (Hshape reg) by done. by eauto.
Qed.

(** X3.  [cost_matrix] refuses with [ValueError] empty series, two series
    of different lengths, a string other than ["square"] and ["absolute"],
    an object whose call [dist(1, 1)] raises or returns no number, and a
    region that has not two rows of the length of the series.  Every other
    call, with no region or a region whose ranges stay in the grid, returns
    a square matrix of the size of the series. *)
Theorem cost_matrix_accepts x y d (region : option int2) :
  ((¬ (length x = length y ∧ (0 < length x)%nat ∧
       (∀ s, d = DStr s → s = "square" ∨ s = "absolute") ∧
       (∀ p, d ≠ DObject p) ∧
       ∀ reg, region = Some reg → region_shape_ok reg (length x) = true)) →
   cost_matrix x y d region = Raise ValueError) ∧
  (length x = length y → (0 < length x)%nat →
   (∀ s, d = DStr s → s = "square" ∨ s = "absolute") →
   (∀ p, d ≠ DObject p) →
   (∀ reg, region = Some reg → region_in_grid (length x) reg) →
   ∃ cm, cost_matrix x y d region = Ok cm ∧ square_mat (length x) cm).
Proof.
  destruct (cost_matrix_cases x y d region) as [Herr Hiff]. split.
  - intros Hno. destruct (cost_matrix x y d region) as [cm|e] eqn:E.
    + destruct Hno.
      destruct (proj1 Hiff) as (H1 & H2 & [H3 H4] & H5); by eauto.
    + by rewrite (Herr e).
  - intros Hxy Hx Hs Hp Hgrid.
    destruct (proj2 Hiff) as [cm Hcm].
    { split_and!; try done. intros reg ->.
      destruct (Hgrid reg eq_refl) as (H1 & H2 & _).
      unfold region_shape_ok. by rewrite H1, H2, Nat.eqb_refl. }
    exists cm. split; [done|]. by apply (cost_matrix_square x y d region).
Qed.

(** X4.  The cells of the cost matrix: without a region, cell [(i, j)] is
    the distance between [x[i]] and [y[j]]; with a region whose ranges stay
    in the grid, it is that distance when row [i] is in the range of column
    [j], and infinity otherwise. *)
Theorem cost_matrix_entries x y d dist_ (region : option int2) :
  length x = length y → (0 < length x)%nat → dist_fun d = Some dist_ →
  (∀ reg, region = Some reg → region_in_grid (length x) reg) →
  ∃ cm,
    cost_matrix x y d region = Ok cm ∧
    square_mat (length x) cm ∧
    ∀ i j, 0 ≤ i < Z.of_nat (length x) → 0 ≤ j < Z.of_nat (length x) →
      mat_get cm i j
      = match region with
        | Some reg =>
            if decide (in_region reg i j)
            then dist_ (vec_get x i) (vec_get y j) else PInf
        | None => dist_ (vec_get x i) (vec_get y j)
        end.
Proof.
  intros Hxy Hx Hd Hgrid. rewrite (cost_matrix_ok _ _ _ _ dist_) by done.
  destruct region as [reg|].
  - specialize (Hgrid reg eq_refl).
    rewrite (region_in_grid_shape _ _ Hgrid). simpl. eexists. split; [done|].
    by apply cost_matrix_region_spec.
  - eexists. split; [done|]. apply cost_matrix_no_region_spec.
Qed.

Lemma cost_matrix_entries_witness :
  ∃ cm,
    cost_matrix doc_x doc_y (DStr "square") (Some doc_region) = Ok cm ∧
    square_mat (length doc_x) cm ∧
    ∀ i j, 0 ≤ i < Z.of_nat (length doc_x) →
      0 ≤ j < Z.of_nat (length doc_x) →
      mat_get cm i j
      = if decide (in_region doc_region i j)
        then _square (vec_get doc_x i) (vec_get doc_y j) else PInf.
Proof.
  apply (cost_matrix_entries doc_x doc_y (DStr "square") _square
           (Some doc_region)).
  - reflexivity.
  - simpl. lia.
  - reflexivity.
  - intros reg [= <-]. exact doc_region_in_grid.
Defined.

(** ** The accumulation that the variants run on a region *)

Lemma nadd_inf_r a : nadd a PInf = PInf.
Proof. by destruct a. Qed.

(** The recurrence with a region is the plain recurrence on the cost
    function that is infinite outside the region. *)
Lemma claimed_acc_masked c R i j :
  claimed_acc c R i j
  = dtw_rec (λ a b, if R a b then c a b else PInf) i j.
Proof.
  revert j. induction i as [|i IHi]; intros j.
  - rewrite dtw_rec_0. induction j as [|j IHj]; simpl in *.
    + done.
    + rewrite <-IHj. destruct (R 0%nat (S j)); [done|].
      by rewrite nadd_inf_r.
  - induction j as [|j IHj].
    + rewrite dtw_rec_S_0, <-IHi. simpl.
      destruct (R (S i) 0%nat); [done|]. by rewrite nadd_inf_r.
    + rewrite dtw_rec_S, <-!IHi, <-IHj. simpl.
      by destruct (R (S i) (S j)).
Qed.

Lemma dtw_rec_ext_le c c' i j :
  (∀ a b, (a ≤ i)%nat → (b ≤ j)%nat → c a b = c' a b) →
  dtw_rec c i j = dtw_rec c' i j.
Proof.
  revert j. induction i as [|i IHi]; intros j H.
  - rewrite !dtw_rec_0. induction j as [|j IHj]; simpl.
    + apply H; lia.
    + rewrite IHj by (intros; apply H; lia). f_equal. apply H; lia.
  - induction j as [|j IHj].
    + rewrite !dtw_rec_S_0, (IHi 0%nat) by (intros; apply H; lia).
      f_equal. apply H; lia.
    + rewrite !dtw_rec_S, (IHi j), (IHi (S j)), IHj
        by (intros; apply H; lia).
      f_equal. apply H; lia.
Qed.

(** X5.  Every variant accumulates, without a region, a cost matrix that
    was computed with the region.  For a region whose ranges stay in the
    grid that composition satisfies the recurrence with a region: a cell
    outside the region is infinite, a cell of the region adds its cost to
    the running sum (base row and column) or to the least of its three
    predecessors. *)
Theorem region_pipeline_recurrence x y d dist_ (region : int2) :
  length x = length y → (2 ≤ length x)%nat → dist_fun d = Some dist_ →
  region_in_grid (length x) region →
  ∃ cm acc,
    cost_matrix x y d (Some region) = Ok cm ∧
    accumulated_cost_matrix cm None = Ok acc ∧
    ∀ i j, (i < length x)%nat → (j < length x)%nat →
      mat_get acc (Z.of_nat i) (Z.of_nat j)
      = claimed_acc
          (λ a b, dist_ (vec_get x (Z.of_nat a)) (vec_get y (Z.of_nat b)))
          (region_mask region) i j.
Proof.
  intros Hxy Hn Hd Hgrid.
  rewrite (cost_matrix_ok _ _ _ _ dist_) by (done || lia).
  rewrite (region_in_grid_shape _ _ Hgrid). simpl.
  destruct (cost_matrix_region_spec x y dist_ region Hgrid) as [Hsq Hcm].
  eexists _, _. split; [done|]. split; [by apply (accumulated_ok (length x))|].
  intros i j Hi Hj.
  destruct (acc_no_region_cell (length x) _ ltac:(lia) Hsq) as [_ Hcell].
  rewrite Hcell by lia. unfold acc_spec. rewrite !Nat2Z.id.
  rewrite claimed_acc_masked. apply dtw_rec_ext_le. intros a b Ha Hb.
  unfold cost_fun. rewrite Hcm by lia. unfold region_mask.
  case_decide; [by rewrite bool_decide_true|by rewrite bool_decide_false].
Qed.

Lemma region_pipeline_recurrence_witness :
  ∃ cm acc,
    cost_matrix doc_x doc_y (DStr "square") (Some doc_region) = Ok cm ∧
    accumulated_cost_matrix cm None = Ok acc ∧
    ∀ i j, (i < length doc_x)%nat → (j < length doc_x)%nat →
      mat_get acc (Z.of_nat i) (Z.of_nat j)
      = claimed_acc
          (λ a b, _square (vec_get doc_x (Z.of_nat a))
                    (vec_get doc_y (Z.of_nat b)))
          (region_mask doc_region) i j.
Proof.
  apply (region_pipeline_recurrence doc_x doc_y (DStr "square") _square
           doc_region).
  - reflexivity.
  - simpl. lia.
  - reflexivity.
  - exact doc_region_in_grid.
Defined.

(** ** The returned path is optimal *)

Lemma nadd_comm a b : nadd a b = nadd b a.
Proof. destruct a, b; simpl; try done. f_equal. ring. Qed.

Lemma nadd_assoc a b c : nadd a (nadd b c) = nadd (nadd a b) c.
Proof. destruct a, b, c; simpl; try done. f_equal. ring. Qed.

Lemma nadd_0_r a : nadd a (Fin 0%Qc) = a.
Proof. destruct a; simpl; [|done]. f_equal. ring. Qed.

Lemma path_cost_snoc c l q :
  path_cost c (l ++ [q]) = nadd (path_cost c l) (mat_get c q.1 q.2).
Proof.
  induction l as [|a l IH].
  - change (nadd (mat_get c q.1 q.2) (Fin 0%Qc)
            = nadd (Fin 0%Qc) (mat_get c q.1 q.2)).
    apply nadd_comm.
  - change (nadd (mat_get c a.1 a.2) (path_cost c (l ++ [q]))
            = nadd (nadd (mat_get c a.1 a.2) (path_cost c l))
                (mat_get c q.1 q.2)).
    by rewrite IH, nadd_assoc.
Qed.

Lemma path_cost_reverse c l : path_cost c (reverse l) = path_cost c l.
Proof.
  induction l as [|a l IH]; [done|].
  rewrite reverse_cons, path_cost_snoc, IH. simpl. apply nadd_comm.
Qed.

Lemma chain_app_l {A} (R : A → A → Prop) l l2 :
  chain R (l ++ l2) → chain R l.
Proof. intros H k a b Ha Hb. apply (H k); by apply lookup_app_l_Some. Qed.

Lemma chain_snoc_last {A} (R : A → A → Prop) l p q :
  chain R (l ++ [q]) → last l = Some p → R p q.
Proof.
  intros H Hl. rewrite last_lookup in Hl.
  pose proof (lookup_lt_Some _ _ _ Hl) as Hlt.
  apply (H (pred (length l))); [by apply lookup_app_l_Some|].
  apply list_lookup_middle. lia.
Qed.

Lemma py_min_le_1 a b c : nle (py_min a b c) a.
Proof. unfold py_min. etrans; apply py_min2_le_l. Qed.

Lemma py_min_le_2 a b c : nle (py_min a b c) b.
Proof. unfold py_min. etrans; [apply py_min2_le_l|apply py_min2_le_r]. Qed.

Lemma py_min_le_3 a b c : nle (py_min a b c) c.
Proof. apply py_min2_le_r. Qed.

(** One move costs at least the difference of the recurrence. *)
Lemma dtw_rec_move c (a b a' b' : nat) :
  (a' = S a ∧ b' = S b) ∨ (a' = S a ∧ b' = b) ∨ (a' = a ∧ b' = S b) →
  nle (dtw_rec c a' b') (nadd (dtw_rec c a b) (c a' b')).
Proof.
  intros [[-> ->]|[[-> ->]|[-> ->]]].
  - rewrite dtw_rec_S, nadd_comm. apply nadd_mono; [apply py_min_le_1|done].
  - destruct b as [|b]; [by rewrite dtw_rec_S_0|].
    rewrite dtw_rec_S, nadd_comm. apply nadd_mono; [apply py_min_le_2|done].
  - destruct a as [|a]; [by rewrite !dtw_rec_0|].
    rewrite dtw_rec_S, nadd_comm. apply nadd_mono; [apply py_min_le_3|done].
Qed.

Lemma warping_prefix_bound c (l : list (Z * Z)) : ∀ q,
  head l = Some (0, 0) → last l = Some q → chain allowed_move l →
  0 ≤ q.1 ∧ 0 ≤ q.2 ∧
  nle (dtw_rec (cost_fun c) (Z.to_nat q.1) (Z.to_nat q.2)) (path_cost c l).
Proof.
  induction l as [|q' l IH] using rev_ind; intros q Hhead Hlast Hch; [done|].
  rewrite last_snoc in Hlast. injection Hlast as ->.
  destruct (last l) as [p|] eqn:Hp.
  - destruct (IH p) as (Hp1 & Hp2 & Hle).
    + by destruct l.
    + done.
    + by eapply chain_app_l.
    + pose proof (chain_snoc_last _ _ _ _ Hch Hp) as Hmove.
      unfold allowed_move in Hmove.
      split; [lia|]. split; [lia|]. rewrite path_cost_snoc.
      etrans; [apply (dtw_rec_move _ (Z.to_nat p.1) (Z.to_nat p.2)); lia|].
      apply nadd_mono; [done|]. unfold cost_fun.
      rewrite !Z2Nat.id by lia. done.
  - apply last_None in Hp as ->. simpl in Hhead. injection Hhead as ->.
    simpl. split; [done|]. split; [done|]. by rewrite nadd_0_r.
Qed.

(** X6.  No warping path is cheaper than the distance: the last cell of
    the accumulated cost matrix is at most the sum of the costs along any
    path that goes from the first cell to the last cell by the three
    moves. *)
Theorem no_cheaper_warping_path n (cost_mat : matrix) cells :
  (2 ≤ n)%nat → square_mat n cost_mat → warping_path (Z.of_nat n) cells →
  ∃ acc,
    accumulated_cost_matrix cost_mat None = Ok acc ∧
    nle (mat_get acc (-1) (-1)) (path_cost cost_mat cells).
Proof.
  intros Hn Hsq (Hhead & Hlast & Hch).
  rewrite (accumulated_ok n) by done. eexists. split; [done|].
  rewrite (acc_last n) by (done || lia).
  destruct (warping_prefix_bound cost_mat cells _ Hhead Hlast Hch)
    as (_ & _ & Hle).
  simpl in Hle. by replace (Z.to_nat (Z.of_nat n - 1)) with (n - 1)%nat
    in Hle by lia.
Qed.

Lemma no_cheaper_warping_path_witness :
  ∃ acc,
    accumulated_cost_matrix wrap_cost None = Ok acc ∧
    nle (mat_get acc (-1) (-1)) (path_cost wrap_cost (diagonal 4)).
Proof.
  apply (no_cheaper_warping_path 4 wrap_cost (diagonal 4)).
  - lia.
  - split; [reflexivity|]. repeat constructor.
  - split; [reflexivity|]. split; [reflexivity|].
    intros k a b Ha Hb.
    destruct k as [|[|[|k]]]; simpl in Ha, Hb;
      try discriminate; injection Ha as <-; injection Hb as <-;
      left; simpl; lia.
Defined.

(** The predecessor that the backtracking picks holds the minimum. *)
Lemma best_pred_min acc i j :
  mat_get acc (best_pred acc (i, j)).1 (best_pred acc (i, j)).2
  = py_min (mat_get acc (i - 1) (j - 1)) (mat_get acc (i - 1) j)
           (mat_get acc i (j - 1)).
Proof.
  unfold best_pred, py_min, py_min2, nlt.
  set (d := mat_get acc (i - 1) (j - 1)).
  set (u := mat_get acc (i - 1) j). set (l := mat_get acc i (j - 1)).
  pose proof (nle_total d u). pose proof (nle_total d l).
  pose proof (nle_total u l).
  pose proof (nle_trans d u l). pose proof (nle_trans l d u).
  pose proof (nle_trans u l d).
  repeat case_decide; simpl; try done; exfalso; tauto.
Qed.

Lemma acc_prev_cell n (c : matrix) i j :
  (0 < n)%nat → square_mat n c →
  0 ≤ i < Z.of_nat n → 0 ≤ j < Z.of_nat n → (i, j) ≠ (0, 0) →
  let acc := _accumulated_cost_matrix_no_region c in
  mat_get acc i j
  = nadd (mat_get c i j)
      (mat_get acc (prev_cell acc (i, j)).1 (prev_cell acc (i, j)).2).
Proof.
  intros Hn Hsq Hi Hj Hne acc.
  destruct (acc_recurrence n c Hn Hsq) as (_ & Hrow & Hcol & Hint).
  fold acc in Hrow, Hcol, Hint. unfold prev_cell.
  destruct (decide (i = 0)) as [->|Hi0].
  - assert (j ≠ 0) by congruence. simpl.
    rewrite Hrow by lia. apply nadd_comm.
  - destruct (decide (j = 0)) as [->|Hj0].
    + simpl. rewrite Hcol by lia. apply nadd_comm.
    + rewrite best_pred_min. apply Hint; lia.
Qed.

Lemma back_chain_cost n (c : matrix) (l : list (Z * Z)) :
  (0 < n)%nat → square_mat n c →
  let acc := _accumulated_cost_matrix_no_region c in
  ∀ q, head l = Some q → last l = Some (0, 0) → chain (back_step acc) l →
    0 ≤ q.1 < Z.of_nat n → 0 ≤ q.2 < Z.of_nat n →
    path_cost c l = mat_get acc q.1 q.2.
Proof.
  intros Hn Hsq acc.
  induction l as [|q0 l IH]; intros q Hhead Hlast Hch H1 H2; [done|].
  injection Hhead as ->. destruct l as [|p l].
  - injection Hlast as ->. simpl. rewrite nadd_0_r. symmetry.
    apply (acc_recurrence n c Hn Hsq).
  - destruct (Hch 0%nat q p eq_refl eq_refl) as (Hne & _ & _ & Hp).
    destruct q as [i j]. simpl in H1, H2.
    destruct (prev_cell_bounds acc i j ltac:(lia) ltac:(lia) Hne)
      as (Hp1 & Hp2 & _ & Hmove).
    rewrite <-Hp in Hp1, Hp2, Hmove.
    unfold allowed_move in Hmove. simpl in Hmove.
    change (path_cost c ((i, j) :: p :: l))
      with (nadd (mat_get c i j) (path_cost c (p :: l))).
    rewrite (IH p); [|done|done|by eapply chain_tail|lia|lia].
    rewrite Hp. symmetry. by apply (acc_prev_cell n).
Qed.

(** The loop of [_return_path], read backwards from the last cell. *)
Lemma return_path_back (acc : matrix) :
  let n := Z.of_nat (length acc) in
  1 ≤ n →
  ∃ back,
    _return_path acc = Some (np_transpose_pairs (reverse back)) ∧
    head back = Some (n - 1, n - 1) ∧ last back = Some (0, 0) ∧
    chain (back_step acc) back.
Proof.
  intros n Hn.
  destruct (path_loop_spec acc (2 * length acc) [(n - 1, n - 1)]
              (n - 1) (n - 1)) as (ext & Hrun & Hend & Hch);
    [done|lia|lia|lia|].
  exists ((n - 1, n - 1) :: ext). unfold _return_path. fold n.
  rewrite Hrun. done.
Qed.

Lemma back_chain_forward acc back :
  chain (back_step acc) back → chain allowed_move (reverse back).
Proof.
  intros Hch k p q Hp Hq.
  assert (S k < length back)%nat as Hk.
  { apply lookup_lt_Some in Hq. by rewrite length_reverse in Hq. }
  rewrite reverse_lookup in Hp by lia. rewrite reverse_lookup in Hq by lia.
  replace (length back - S k)%nat with (S (length back - S (S k))) in Hp
    by lia.
  destruct (Hch _ _ _ Hq Hp) as (Hne & Hq1 & Hq2 & ->).
  destruct q as [i j]. simpl in *.
  by destruct (prev_cell_bounds acc i j Hq1 Hq2 Hne) as (_ & _ & _ & Hmove).
Qed.

Lemma return_path_warping (acc : matrix) :
  let n := Z.of_nat (length acc) in
  1 ≤ n →
  ∃ back,
    _return_path acc = Some (np_transpose_pairs (reverse back)) ∧
    head back = Some (n - 1, n - 1) ∧ last back = Some (0, 0) ∧
    chain (back_step acc) back ∧ warping_path n (reverse back).
Proof.
  intros n Hn.
  destruct (return_path_back acc Hn) as (back & Hret & Hhead & Hlast & Hch).
  exists back. split_and!; try done.
  split; [by rewrite head_reverse|]. split; [by rewrite last_reverse|].
  by eapply back_chain_forward.
Qed.

Lemma chain_mono (l : list (Z * Z)) :
  chain allowed_move l →
  ∀ (d k : nat) p q, l !! k = Some p → l !! (k + d)%nat = Some q →
    p.1 ≤ q.1 ∧ p.2 ≤ q.2 ∧
    Z.of_nat d ≤ (q.1 - p.1) + (q.2 - p.2) ≤ 2 * Z.of_nat d.
Proof.
  intros Hch. induction d as [|d IH]; intros k p q Hp Hq.
  - rewrite Nat.add_0_r, Hp in Hq. injection Hq as <-. lia.
  - destruct (lookup_lt_is_Some_2 l (k + d)) as [r Hr].
    { apply lookup_lt_Some in Hq. lia. }
    destruct (IH k p r Hp Hr) as (H1 & H2 & H3).
    replace (k + S d)%nat with (S (k + d)) in Hq by lia.
    pose proof (Hch _ _ _ Hr Hq) as Hmove. unfold allowed_move in Hmove.
    lia.
Qed.

(** The returned path, its cost and its cells. *)
Lemma return_path_optimal n (cost_mat : matrix) :
  (0 < n)%nat → square_mat n cost_mat →
  let acc := _accumulated_cost_matrix_no_region cost_mat in
  ∃ cells,
    _return_path acc = Some (np_transpose_pairs cells) ∧
    warping_path (Z.of_nat n) cells ∧
    path_cost cost_mat cells = mat_get acc (-1) (-1) ∧
    ∀ c, c ∈ cells → 0 ≤ c.1 < Z.of_nat n ∧ 0 ≤ c.2 < Z.of_nat n.
Proof.
  intros Hn Hsq acc.
  destruct (acc_no_region_cell n cost_mat Hn Hsq) as [Hsqa _].
  fold acc in Hsqa. pose proof Hsqa as [Hlen _].
  destruct (return_path_warping acc)
    as (back & Hret & Hhead & Hlast & Hch & Hwarp); [lia|].
  rewrite Hlen in Hhead, Hwarp.
  exists (reverse back). split; [done|]. split; [done|]. split.
  - rewrite path_cost_reverse, (last_cell n) by (done || lia).
    by apply (back_chain_cost n cost_mat back Hn Hsq _ Hhead Hlast Hch);
      simpl; lia.
  - destruct Hwarp as (Hh & Hl & Hfw).
    rewrite head_lookup in Hh. rewrite last_lookup in Hl.
    intros c [k Hk]%list_elem_of_lookup.
    pose proof (lookup_lt_Some _ _ _ Hk) as Hlt.
    destruct (chain_mono _ Hfw k 0 _ _ Hh Hk) as (? & ? & _).
    destruct (chain_mono _ Hfw (pred (length (reverse back)) - k) k c
                (Z.of_nat n - 1, Z.of_nat n - 1) Hk) as (? & ? & _).
    { by replace (k + (pred (length (reverse back)) - k))%nat
        with (pred (length (reverse back))) by lia. }
    simpl in *. lia.
Qed.

(** X7.  The path that [_return_path] reads off the accumulated cost
    matrix is a warping path whose cost is the distance: the sum of the
    cost matrix along it equals the last cell of the accumulated cost
    matrix. *)
Theorem returned_path_attains_distance n (cost_mat : matrix) :
  (2 ≤ n)%nat → square_mat n cost_mat →
  ∃ acc cells,
    accumulated_cost_matrix cost_mat None = Ok acc ∧
    _return_path acc = Some (np_transpose_pairs cells) ∧
    warping_path (Z.of_nat n) cells ∧
    path_cost cost_mat cells = mat_get acc (-1) (-1).
Proof.
  intros Hn Hsq. rewrite (accumulated_ok n) by done.
  destruct (return_path_optimal n cost_mat ltac:(lia) Hsq)
    as (cells & Hret & Hwarp & Hcost & _).
  by eexists _, cells.
Qed.

Lemma returned_path_attains_distance_witness :
  ∃ acc cells,
    accumulated_cost_matrix wrap_cost None = Ok acc ∧
    _return_path acc = Some (np_transpose_pairs cells) ∧
    warping_path (Z.of_nat 4) cells ∧
    path_cost wrap_cost cells = mat_get acc (-1) (-1).
Proof.
  apply (returned_path_attains_distance 4 wrap_cost).
  - lia.
  - split; [reflexivity|]. repeat constructor.
Defined.

(** ** The shape of the returned path *)

Lemma chain_covers_by (f : Z * Z → Z) (l : list (Z * Z)) a b i :
  head l = Some a → last l = Some b →
  chain (λ q p, f q - 1 ≤ f p ≤ f q) l →
  f b ≤ i ≤ f a → ∃ c, c ∈ l ∧ f c = i.
Proof.
  revert a. induction l as [|a0 l IH]; intros a Hhead Hlast Hch Hi; [done|].
  injection Hhead as ->.
  destruct (decide (i = f a)) as [->|Hne].
  { exists a. split; [left|done]. }
  destruct l as [|a1 l].
  { injection Hlast as ->. lia. }
  pose proof (Hch 0%nat a a1 eq_refl eq_refl) as Hstep. simpl in Hstep.
  destruct (IH a1) as (c & Hc & Hci); [done|done|by eapply chain_tail|lia|].
  exists c. split; [by right|done].
Qed.

Lemma back_step_cols acc q p :
  back_step acc q p → q.2 - 1 ≤ p.2 ≤ q.2.
Proof.
  intros (Hne & H1 & H2 & ->). destruct q as [i j]. simpl in *.
  destruct (prev_cell_bounds acc i j H1 H2 Hne) as (_ & _ & _ & Hmove).
  unfold allowed_move in Hmove. simpl in Hmove. lia.
Qed.

(** X8.  The path returned for a matrix with [n >= 1] rows has two rows of
    one length [L] with [n <= L <= 2 n - 1]; all its indices are in
    [0 .. n-1]; and every index of [0 .. n-1] occurs in its first row and in
    its second row (no sample of either series is skipped). *)
Theorem return_path_shape (acc : matrix) :
  let n := Z.of_nat (length acc) in
  1 ≤ n →
  ∃ path,
    _return_path acc = Some path ∧
    length path.1 = length path.2 ∧
    n ≤ Z.of_nat (length path.1) ≤ 2 * n - 1 ∧
    Forall (λ v, 0 ≤ v < n) path.1 ∧
    Forall (λ v, 0 ≤ v < n) path.2 ∧
    ∀ i, 0 ≤ i < n → i ∈ path.1 ∧ i ∈ path.2.
Proof.
  intros n Hn.
  destruct (return_path_warping acc Hn)
    as (back & Hret & Hhead & Hlast & Hch & Hh & Hl & Hfw).
  fold n in Hhead, Hh, Hl, Hfw. set (cells := reverse back) in *.
  exists (np_transpose_pairs cells). split; [done|]. simpl.
  rewrite !length_fmap. split; [done|].
  rewrite head_lookup in Hh. rewrite last_lookup in Hl.
  pose proof (lookup_lt_Some _ _ _ Hh) as Hpos.
  assert (∀ c, c ∈ cells → 0 ≤ c.1 < n ∧ 0 ≤ c.2 < n) as Hgrid.
  { intros c [k Hk]%list_elem_of_lookup.
    pose proof (lookup_lt_Some _ _ _ Hk) as Hlt.
    destruct (chain_mono cells Hfw k 0 _ _ Hh Hk) as (? & ? & _).
    destruct (chain_mono cells Hfw (pred (length cells) - k) k c
                (n - 1, n - 1) Hk) as (? & ? & _).
    { by replace (k + (pred (length cells) - k))%nat
        with (pred (length cells)) by lia. }
    simpl in *. lia. }
  split.
  { destruct (chain_mono cells Hfw (pred (length cells)) 0 _ _ Hh Hl)
      as (_ & _ & Hsteps). simpl in Hsteps. lia. }
  split; [|split].
  - apply Forall_fmap, Forall_forall. intros c Hc. by apply Hgrid.
  - apply Forall_fmap, Forall_forall. intros c Hc. by apply Hgrid.
  - intros i Hi. split.
    + destruct (chain_covers_by fst back (n - 1, n - 1) (0, 0) i)
        as (c & Hc & Hci); [done|done| |simpl; lia|].
      { intros k q p Hq Hp. eapply back_step_rows, Hch; done. }
      apply list_elem_of_fmap. exists c. split; [done|].
      by apply elem_of_reverse.
    + destruct (chain_covers_by snd back (n - 1, n - 1) (0, 0) i)
        as (c & Hc & Hci); [done|done| |simpl; lia|].
      { intros k q p Hq Hp. eapply back_step_cols, Hch; done. }
      apply list_elem_of_fmap. exists c. split; [done|].
      by apply elem_of_reverse.
Qed.

Lemma return_path_shape_witness :
  ∃ path,
    _return_path doc_acc = Some path ∧
    length path.1 = length path.2 ∧
    3 ≤ Z.of_nat (length path.1) ≤ 2 * 3 - 1 ∧
    Forall (λ v, 0 ≤ v < 3) path.1 ∧
    Forall (λ v, 0 ≤ v < 3) path.2 ∧
    ∀ i, 0 ≤ i < 3 → i ∈ path.1 ∧ i ∈ path.2.
Proof.
  apply (return_path_shape doc_acc). vm_compute. discriminate.
Defined.

(** ** Distances of the variants *)

Lemma path_cost_finite c l :
  path_cost c l ≠ PInf → ∀ p, p ∈ l → mat_get c p.1 p.2 ≠ PInf.
Proof.
  induction l as [|a l IH]; intros Hfin p Hp; [by apply elem_of_nil in Hp|].
  change (nadd (mat_get c a.1 a.2) (path_cost c l) ≠ PInf) in Hfin.
  apply elem_of_cons in Hp as [->|Hp].
  - intros E. by rewrite E in Hfin.
  - apply IH; [|done]. intros E. by rewrite E, nadd_inf_r in Hfin.
Qed.

(** The diagonal is a warping path. *)
Lemma dtw_rec_diag_le c k : nle (dtw_rec c k k) (psum (λ a, c a a) k).
Proof.
  induction k as [|k IH]; [done|].
  etrans; [apply (dtw_rec_move c k k); by left|].
  simpl. by apply nadd_mono.
Qed.

Lemma dtw_rec_diag_zero c k :
  (∀ a b, nonneg (c a b)) → (∀ a, (a ≤ k)%nat → c a a = Fin 0%Qc) →
  dtw_rec c k k = Fin 0%Qc.
Proof.
  intros Hpos Hdiag. apply nle_antisym; [|by apply dtw_rec_nonneg].
  etrans; [apply dtw_rec_diag_le|]. clear Hpos.
  induction k as [|k IH]; simpl.
  - by rewrite Hdiag.
  - rewrite (Hdiag (S k)), nadd_0_r by done. apply IH. intros. apply Hdiag.
    lia.
Qed.

Lemma builtin_self_zero d dist_ a :
  builtin d → dist_fun d = Some dist_ → dist_ a a = Fin 0%Qc.
Proof.
  intros [->| ->] [= <-].
  - unfold _square. f_equal. ring.
  - unfold _absolute. replace (a - a)%Qc with 0%Qc by ring.
    f_equal. by apply Qc_is_canon.
Qed.

Section Distances.

Variable fsqrt : Qc → Qc.

Lemma final_value_inf d v w :
  final_value fsqrt d v = Ok w → w ≠ PInf → v ≠ PInf.
Proof.
  intros H Hw ->. unfold final_value in H.
  destruct (is_str d "square"); simpl in H; by injection H as <-.
Qed.

(** X9.  On valid input and a region whose ranges stay in the grid,
    [dtw_region] with [return_path=True] returns the distance and a warping
    path; and when the distance is finite, every cell of that path lies in
    the region. *)
Theorem finite_distance_path_in_region x y d (region : int2) :
  length x = length y → (2 ≤ length x)%nat → is_Some (dist_fun d) →
  region_in_grid (length x) region →
  ∃ v cells,
    dtw_region fsqrt x y d (Some region) false false true
      = Ok (Tuple [IDist v; IPath (np_transpose_pairs cells)]) ∧
    warping_path (Z.of_nat (length x)) cells ∧
    (v ≠ PInf → ∀ c, c ∈ cells → in_region region c.1 c.2).
Proof.
  intros Hxy Hn [dist_ Hd] Hgrid.
  pose proof (region_in_grid_shape _ _ Hgrid) as Hshape.
  destruct (cost_then_tail_returns fsqrt x y d (Some region)
              false false true) as (cm & r & Hcm & Hr);
    [done|done|by eexists|by intros ? [= <-]|].
  rewrite (dtw_region_tail fsqrt), Hcm by (done || lia). simpl.
  pose proof (cost_matrix_square _ _ _ _ _ Hcm) as Hsq.
  rewrite (dtw_tail_value fsqrt (length x)) in Hr by done.
  rewrite (dtw_tail_value fsqrt (length x)) by done.
  apply bind_Ok in Hr as (v & Hv & _). rewrite Hv. simpl.
  destruct (return_path_optimal (length x) cm ltac:(lia) Hsq)
    as (cells & Hret & Hwarp & Hcost & Hin).
  exists v, cells. unfold _return_results. rewrite Hret. simpl.
  split; [done|]. split; [done|]. intros Hfin c Hc.
  assert (last_acc (length x) cm ≠ PInf) as Hlast
    by (by eapply final_value_inf).
  unfold last_acc in Hlast.
  rewrite <-(acc_last (length x)), <-Hcost in Hlast by (done || lia).
  pose proof (path_cost_finite _ _ Hlast c Hc) as Hc'.
  rewrite (cost_matrix_ok _ _ _ _ dist_) in Hcm by (done || lia).
  rewrite Hshape in Hcm. simpl in Hcm. injection Hcm as <-.
  destruct (cost_matrix_region_spec x y dist_ region Hgrid) as [_ Hcells].
  destruct (Hin c Hc). rewrite Hcells in Hc' by done. by case_decide.
Qed.

(** The distance of a series to itself, through any cost matrix that is
    zero on the diagonal and nowhere negative. *)
Lemma tail_self_zero d cm n :
  (2 ≤ n)%nat → cells_nonneg n cm →
  (∀ k, 0 ≤ k < Z.of_nat n → mat_get cm k k = Fin 0%Qc) →
  dtw_tail fsqrt d cm false false false
  = Ok (Single (IDist (if is_str d "square" then Fin (fsqrt 0)
                       else Fin 0%Qc))).
Proof.
  intros Hn [Hsq Hpos] Hdiag. rewrite (dtw_tail_value fsqrt n) by done.
  unfold last_acc. rewrite dtw_rec_diag_zero.
  - unfold final_value. destruct (is_str d "square"); simpl;
      by rewrite return_results_dist.
  - by apply (cost_fun_nonneg n).
  - intros a Ha. unfold cost_fun. apply Hdiag. lia.
Qed.

Lemma region_self_zero x d (region : option int2) :
  (2 ≤ length x)%nat → builtin d →
  (∀ reg, region = Some reg →
     region_in_grid (length x) reg ∧
     ∀ k, 0 ≤ k < Z.of_nat (length x) → in_region reg k k) →
  (cm ← cost_matrix x x d region; dtw_tail fsqrt d cm false false false)
  = Ok (Single (IDist (if is_str d "square" then Fin (fsqrt 0)
                       else Fin 0%Qc))).
Proof.
  intros Hn Hd Hreg.
  destruct (builtin_fun d Hd) as (dist_ & Hdist & _ & Hpos).
  rewrite (cost_matrix_ok _ _ _ _ dist_) by (done || lia).
  destruct region as [reg|].
  - destruct (Hreg reg eq_refl) as [Hgrid Hdiag].
    rewrite (region_in_grid_shape _ _ Hgrid). simpl.
    apply (tail_self_zero d _ (length x)); [done| |].
    + by apply cost_matrix_region_nonneg.
    + intros k Hk.
      destruct (cost_matrix_region_spec x x dist_ reg Hgrid) as [_ Hcells].
      rewrite Hcells, decide_True by auto.
      by apply (builtin_self_zero d).
  - simpl. apply (tail_self_zero d _ (length x)); [done| |].
    + by apply cost_matrix_no_region_nonneg.
    + intros k Hk.
      destruct (cost_matrix_no_region_spec x x dist_) as [_ Hcells].
      rewrite Hcells by done. by apply (builtin_self_zero d).
Qed.

(** X10.  The distance of a series to itself is zero: with the built-in
    distances, [dtw_classic(x, x)] and [dtw_region(x, x)], for any region
    that stays in the grid and holds the diagonal, return 0 (for
    ["square"], the square root of 0). *)
Theorem dtw_self_distance_zero x d (region : option int2) :
  (2 ≤ length x)%nat → builtin d →
  (∀ reg, region = Some reg →
     region_in_grid (length x) reg ∧
     ∀ k, 0 ≤ k < Z.of_nat (length x) → in_region reg k k) →
  let zero := if is_str d "square" then Fin (fsqrt 0) else Fin 0%Qc in
  dtw_classic fsqrt x x d false false false = Ok (Single (IDist zero)) ∧
  dtw_region fsqrt x x d region false false false
    = Ok (Single (IDist zero)).
Proof.
  intros Hn Hd Hreg zero. split.
  - rewrite (dtw_classic_tail fsqrt) by (done || lia).
    by apply (region_self_zero x d None).
  - destruct region as [reg|].
    + destruct (Hreg reg eq_refl) as [Hgrid _].
      rewrite (dtw_region_tail fsqrt)
        by (done || lia || by apply region_in_grid_shape).
      by apply (region_self_zero x d (Some reg)).
    + unfold dtw_region. rewrite check_input_ok by (done || lia). simpl.
      by apply (region_self_zero x d None).
Qed.

(** X11.  For the absolute difference the classic distance lies between 0
    and the sum of the pointwise distances [|x[k] - y[k]|] (the cost of the
    diagonal path). *)
Theorem dtw_classic_absolute_bounds x y :
  length x = length y → (2 ≤ length x)%nat →
  ∃ v,
    dtw_classic fsqrt x y (DStr "absolute") false false false
      = Ok (Single (IDist v)) ∧
    nonneg v ∧
    nle v (psum (λ k, _absolute (vec_get x (Z.of_nat k))
                        (vec_get y (Z.of_nat k)))
             (length x - 1)).
Proof.
  intros Hxy Hn. rewrite (dtw_classic_tail fsqrt) by (done || lia).
  rewrite (cost_matrix_ok _ _ _ _ _absolute) by (done || lia). simpl.
  destruct (cost_matrix_no_region_spec x y _absolute) as [Hsq Hcells].
  rewrite (dtw_tail_value fsqrt (length x)) by done. simpl.
  rewrite return_results_dist. eexists. split; [done|].
  unfold last_acc. split.
  - apply dtw_rec_nonneg, (cost_fun_nonneg (length x)); [done|].
    intros i j Hi Hj. rewrite Hcells by done. apply absolute_nonneg.
  - etrans; [apply dtw_rec_diag_le|].
    assert (∀ m, (m < length x)%nat →
      nle (psum (λ a, cost_fun (_cost_matrix_no_region x y _absolute) a a) m)
          (psum (λ k, _absolute (vec_get x (Z.of_nat k))
                        (vec_get y (Z.of_nat k))) m)) as Hsum.
    { induction m as [|m IH]; intros Hm; simpl.
      - unfold cost_fun. by rewrite Hcells by lia.
      - apply nadd_mono; [apply IH; lia|].
        unfold cost_fun. by rewrite Hcells by lia. }
    apply Hsum. lia.
Qed.

End Distances.

Lemma finite_distance_path_in_region_witness :
  ∃ v cells,
    dtw_region floor_sqrt doc_x doc_y (DStr "square") (Some doc_region)
      false false true
      = Ok (Tuple [IDist v; IPath (np_transpose_pairs cells)]) ∧
    warping_path (Z.of_nat (length doc_x)) cells ∧
    (v ≠ PInf → ∀ c, c ∈ cells → in_region doc_region c.1 c.2).
Proof.
  apply (finite_distance_path_in_region floor_sqrt doc_x doc_y
           (DStr "square") doc_region).
  - reflexivity.
  - simpl. lia.
  - eexists. reflexivity.
  - exact doc_region_in_grid.
Defined.

Lemma dtw_self_distance_zero_witness :
  dtw_classic floor_sqrt doc_x doc_x (DStr "absolute") false false false
    = Ok (Single (IDist (Fin 0%Qc))) ∧
  dtw_region floor_sqrt doc_x doc_x (DStr "absolute") None
    false false false
    = Ok (Single (IDist (Fin 0%Qc))).
Proof.
  apply (dtw_self_distance_zero floor_sqrt doc_x (DStr "absolute") None).
  - simpl. lia.
  - right. reflexivity.
  - intros reg Hreg. discriminate Hreg.
Defined.

Lemma dtw_classic_absolute_bounds_witness :
  ∃ v,
    dtw_classic floor_sqrt doc_x doc_y (DStr "absolute") false false false
      = Ok (Single (IDist v)) ∧
    nonneg v ∧
    nle v (psum (λ k, _absolute (vec_get doc_x (Z.of_nat k))
                        (vec_get doc_y (Z.of_nat k)))
             (length doc_x - 1)).
Proof.
  apply (dtw_classic_absolute_bounds floor_sqrt doc_x doc_y).
  - reflexivity.
  - simpl. lia.
Defined.

(** ** Arguments that change nothing, arguments that are refused *)

Lemma mat_ext n (a b : matrix) :
  square_mat n a → square_mat n b →
  (∀ i j, 0 ≤ i < Z.of_nat n → 0 ≤ j < Z.of_nat n →
     mat_get a i j = mat_get b i j) →
  a = b.
Proof.
  intros Ha Hb H.
  apply list_eq_same_length with n; [by destruct Hb|by destruct Ha|].
  intros i ra rb Hi Hra Hrb.
  apply list_eq_same_length with n;
    [exact (square_row _ _ _ _ Hb Hrb)|exact (square_row _ _ _ _ Ha Hra)|].
  intros j va vb Hj Hva Hvb.
  specialize (H (Z.of_nat i) (Z.of_nat j) ltac:(lia) ltac:(lia)).
  rewrite (mat_get_in n a), (mat_get_in n b) in H by (done || lia).
  rewrite !Nat2Z.id, Hra, Hrb in H. simpl in H.
  rewrite Hva, Hvb in H. done.
Qed.

Lemma covers_grid_in_grid n region :
  covers_grid n region → region_in_grid n region.
Proof.
  intros (H1 & H2 & H). split; [done|]. split; [done|].
  intros j Hj. destruct (H j Hj) as [-> ->]. lia.
Qed.

Lemma cost_matrix_region_all x y f region :
  covers_grid (length x) region →
  _cost_matrix_region x y f region = _cost_matrix_no_region x y f.
Proof.
  intros Hall. pose proof (covers_grid_in_grid _ _ Hall) as Hgrid.
  destruct (cost_matrix_region_spec x y f region Hgrid) as [Hsq Hcells].
  destruct (cost_matrix_no_region_spec x y f) as [Hsq' Hcells'].
  apply (mat_ext (length x)); [done|done|]. intros i j Hi Hj.
  rewrite Hcells, Hcells' by done. rewrite decide_True; [done|].
  destruct Hall as (_ & _ & Hall). unfold in_region.
  destruct (Hall j Hj) as [-> ->]. lia.
Qed.

Lemma check_input_err x y :
  length x ≠ length y ∨ length x = 0%nat →
  _check_input_dtw x y = Raise ValueError.
Proof.
  intros H. unfold _check_input_dtw.
  destruct (length x) as [|n] eqn:Ex; [done|].
  destruct (length y) as [|n'] eqn:Ey; [done|]. simpl.
  destruct (Nat.eqb_spec n n') as [->|Hne]; [|done].
  destruct H; [congruence|done].
Qed.

Lemma check_input_cases x y :
  (length x = length y ∧ (0 < length x)%nat) ∨
  _check_input_dtw x y = Raise ValueError.
Proof.
  destruct (decide (length x = length y)) as [Hxy|Hxy];
    [|right; apply check_input_err; by left].
  destruct (decide (length x = 0%nat)) as [Hx|Hx];
    [right; apply check_input_err; by right|].
  left. split; [done|lia].
Qed.

Lemma int_get_fmap_seqZ (f : Z → Z) n j :
  0 ≤ j < n → int_get (f <$> seqZ 0 n) j = f j.
Proof.
  intros Hj. unfold int_get. rewrite length_fmap, length_seqZ.
  rewrite py_index_in by lia. simpl.
  rewrite list_lookup_fmap, lookup_seqZ_lt by lia. simpl. f_equal. lia.
Qed.

Lemma band_full_covers n :
  covers_grid n (band (Z.of_nat n) (Z.of_nat n - 1)).
Proof.
  unfold band. split; [|split]; simpl.
  - rewrite length_fmap, length_seqZ. lia.
  - rewrite length_fmap, length_seqZ. lia.
  - intros j Hj. rewrite !int_get_fmap_seqZ by done. lia.
Qed.

Lemma check_kwargs_ok (opts : gmap string pyval) allowed :
  (∀ k, is_Some (opts !! k) → k ∈ allowed) →
  check_kwargs opts allowed = Ok tt.
Proof.
  intros H. unfold check_kwargs.
  rewrite (proj2 (forallb_forall _ _)); [done|].
  intros [k v] Hkv%list_elem_of_In%elem_of_map_to_list.
  apply bool_decide_eq_true_2. apply H. by eexists.
Qed.

Lemma check_kwargs_reject (opts : gmap string pyval) allowed key :
  is_Some (opts !! key) → key ∉ allowed →
  check_kwargs opts allowed = Raise TypeError.
Proof.
  intros [v Hv] Hkey. unfold check_kwargs.
  destruct (forallb _ _) eqn:E; [|done]. exfalso.
  rewrite forallb_forall in E. specialize (E (key, v)).
  apply Hkey.
  apply (bool_decide_eq_true_1 ((key, v).1 ∈ allowed)), E.
  by apply list_elem_of_In, elem_of_map_to_list.
Qed.

Section Arguments.

Variable fsqrt : Qc → Qc.

(** X12.  A region that is the whole grid changes nothing: [dtw_region]
    with such a region returns what [dtw_classic] returns (distance,
    matrices and path, or the exception), and so does [dtw_sakoechiba]
    with the window [1.0] or [n - 1]. *)
Theorem whole_grid_is_classic x y d rc ra rp :
  (∀ region, covers_grid (length x) region →
     dtw_region fsqrt x y d (Some region) rc ra rp
     = dtw_classic fsqrt x y d rc ra rp) ∧
  (∀ window_size,
     (2 ≤ length x)%nat →
     window_size = VFloat 1%Qc ∨
     window_size = VInt (Z.of_nat (length x) - 1) →
     dtw_sakoechiba fsqrt x y d window_size rc ra rp
     = dtw_classic fsqrt x y d rc ra rp).
Proof.
  assert (∀ region, covers_grid (length x) region →
    length x = length y → (0 < length x)%nat →
    (cm ← cost_matrix x y d (Some region); dtw_tail fsqrt d cm rc ra rp)
    = dtw_classic fsqrt x y d rc ra rp) as Hcore.
  { intros region Hall Hxy Hx.
    rewrite (dtw_classic_tail fsqrt) by done.
    unfold cost_matrix. rewrite check_input_ok by done. simpl.
    match goal with
    | |- (?m ≫= _) ≫= _ = _ => destruct m as [f|e]; simpl; [|done]
    end.
    rewrite (region_in_grid_shape _ _ (covers_grid_in_grid _ _ Hall)).
    simpl. by rewrite cost_matrix_region_all. }
  split.
  - intros region Hall.
    destruct (check_input_cases x y) as [[Hxy Hx]|Herr].
    + rewrite (dtw_region_tail fsqrt); [by apply Hcore|done|done|].
      by apply region_in_grid_shape, covers_grid_in_grid.
    + unfold dtw_region, dtw_classic. by rewrite Herr.
  - intros w Hn Hw.
    destruct (check_input_cases x y) as [[Hxy Hx]|Herr].
    + assert (resolved_window (Z.of_nat (length x)) w
              = Some (Z.of_nat (length x) - 1)) as Hres.
      { unfold resolved_window. destruct Hw as [-> | ->].
        - rewrite decide_True by done. rewrite float_mul_1_l. f_equal.
          apply Qceiling_Z.
        - by rewrite decide_True by lia. }
      destruct (sakoe_chiba_band_resolved (Z.of_nat (length x)) w _
                  ltac:(lia) Hres) as [_ Hband].
      unfold dtw_sakoechiba. rewrite check_input_ok by done. simpl.
      rewrite Hband. simpl. apply Hcore; [apply band_full_covers|done..].
    + unfold dtw_sakoechiba, dtw_classic. by rewrite Herr.
Qed.

(** X13.  Arguments that switch the constraint off: [dtw_region] without
    a region and [dtw_multiscale] with [resolution = 1] and any radius
    [>= 0] return what [dtw_classic] returns, for every input and every
    combination of the return flags. *)
Theorem unconstrained_calls_are_classic x y d rc ra rp :
  dtw_region fsqrt x y d None rc ra rp = dtw_classic fsqrt x y d rc ra rp ∧
  ∀ radius, 0 ≤ radius →
    dtw_multiscale fsqrt x y d (VInt 1) (VInt radius) rc ra rp
    = dtw_classic fsqrt x y d rc ra rp.
Proof.
  split.
  - unfold dtw_region, dtw_classic.
    by destruct (_check_input_dtw x y) as [[[x' y'] n]|].
  - intros radius Hrad. unfold dtw_multiscale, dtw_classic.
    destruct (_check_input_dtw x y) as [[[x' y'] n]|]; simpl; [|done].
    by rewrite bool_decide_true by done.
Qed.

(** X14.  Two series of different lengths, or empty series, are refused
    with a [ValueError] by [cost_matrix] and by every variant, before any
    other argument is looked at. *)
Theorem mismatched_series_are_refused x y d rc ra rp :
  length x ≠ length y ∨ length x = 0%nat →
  (∀ region, cost_matrix x y d region = Raise ValueError) ∧
  dtw_classic fsqrt x y d rc ra rp = Raise ValueError ∧
  (∀ region, dtw_region fsqrt x y d region rc ra rp = Raise ValueError) ∧
  (∀ window_size,
     dtw_sakoechiba fsqrt x y d window_size rc ra rp = Raise ValueError) ∧
  (∀ max_slope,
     dtw_itakura fsqrt x y d max_slope rc ra rp = Raise ValueError) ∧
  (∀ resolution radius,
     dtw_multiscale fsqrt x y d resolution radius rc ra rp
     = Raise ValueError) ∧
  (∀ radius, dtw_fast fsqrt x y d radius rc ra rp = Raise ValueError).
Proof.
  intros H. pose proof (check_input_err x y H) as Herr.
  unfold cost_matrix, dtw_classic, dtw_region, dtw_sakoechiba, dtw_itakura,
    dtw_multiscale, dtw_fast. rewrite Herr. by split_and!.
Qed.

(** X15.  The dispatcher [dtw] raises a [ValueError] for a method name
    that is not one of the five, and a [TypeError] when the options of a
    method other than ["classic"] hold a key that is not a keyword of the
    variant, whatever the other arguments are. *)
Theorem dtw_dispatch_errors x y d method options rc ra rp :
  (method ∉ ["classic"; "sakoechiba"; "itakura"; "multiscale"; "fast"] →
   dtw fsqrt x y d method options rc ra rp = Raise ValueError) ∧
  (∀ opts key allowed,
     options = Some opts → is_Some (opts !! key) → key ∉ allowed →
     (method, allowed) ∈ [("sakoechiba", ["window_size"]);
                          ("itakura", ["max_slope"]);
                          ("multiscale", ["resolution"; "radius"]);
                          ("fast", ["radius"])] →
     dtw fsqrt x y d method options rc ra rp = Raise TypeError).
Proof.
  split.
  - intros Hm. unfold dtw.
    destruct (String.eqb_spec method "classic") as [->|_].
    { exfalso. apply Hm. set_solver. }
    destruct (String.eqb_spec method "sakoechiba") as [->|_].
    { exfalso. apply Hm. set_solver. }
    destruct (String.eqb_spec method "itakura") as [->|_].
    { exfalso. apply Hm. set_solver. }
    destruct (String.eqb_spec method "multiscale") as [->|_].
    { exfalso. apply Hm. set_solver. }
    destruct (String.eqb_spec method "fast") as [->|_]; [|done].
    exfalso. apply Hm. set_solver.
  - intros opts key allowed -> Hkey Hnot Hm. unfold dtw.
    repeat (apply elem_of_cons in Hm as [[= -> ->]|Hm]);
      [..|by apply elem_of_nil in Hm]; simpl;
      by rewrite (check_kwargs_reject _ _ key).
Qed.

(** X16.  The dispatcher passes its options on: ["classic"] ignores
    them; for the other methods, options whose keys are keywords of the
    variant give the call of the variant with those values, a missing key
    (or no options at all) standing for the default of the variant. *)
Theorem dtw_dispatch_agrees x y d (options : option (gmap string pyval))
    rc ra rp :
  let opts := default ∅ options in
  let arg key dflt := default dflt (opts !! key) in
  dtw fsqrt x y d "classic" options rc ra rp
    = dtw_classic fsqrt x y d rc ra rp ∧
  ((∀ k, is_Some (opts !! k) → k ∈ ["window_size"]) →
   dtw fsqrt x y d "sakoechiba" options rc ra rp
   = dtw_sakoechiba fsqrt x y d
       (arg "window_size" (VFloat (float_lit (1 # 10)))) rc ra rp) ∧
  ((∀ k, is_Some (opts !! k) → k ∈ ["max_slope"]) →
   dtw fsqrt x y d "itakura" options rc ra rp
   = dtw_itakura fsqrt x y d (arg "max_slope" (VFloat (Qc_of_Z 2)))
       rc ra rp) ∧
  ((∀ k, is_Some (opts !! k) → k ∈ ["resolution"; "radius"]) →
   dtw fsqrt x y d "multiscale" options rc ra rp
   = dtw_multiscale fsqrt x y d (arg "resolution" (VInt 2))
       (arg "radius" (VInt 0)) rc ra rp) ∧
  ((∀ k, is_Some (opts !! k) → k ∈ ["radius"]) →
   dtw fsqrt x y d "fast" options rc ra rp
   = dtw_fast fsqrt x y d (arg "radius" (VInt 0)) rc ra rp).
Proof.
  intros opts arg. unfold dtw, kwarg. fold opts. simpl.
  split; [done|].
  split_and!; intros Hkeys; by rewrite check_kwargs_ok.
Qed.

End Arguments.

Lemma mismatched_series_are_refused_witness :
  (∀ region,
     cost_matrix doc_x [qz 1] (DStr "square") region = Raise ValueError) ∧
  dtw_classic floor_sqrt doc_x [qz 1] (DStr "square") false false false
    = Raise ValueError ∧
  (∀ region,
     dtw_region floor_sqrt doc_x [qz 1] (DStr "square") region
       false false false = Raise ValueError) ∧
  (∀ window_size,
     dtw_sakoechiba floor_sqrt doc_x [qz 1] (DStr "square") window_size
       false false false = Raise ValueError) ∧
  (∀ max_slope,
     dtw_itakura floor_sqrt doc_x [qz 1] (DStr "square") max_slope
       false false false = Raise ValueError) ∧
  (∀ resolution radius,
     dtw_multiscale floor_sqrt doc_x [qz 1] (DStr "square") resolution
       radius false false false = Raise ValueError) ∧
  (∀ radius,
     dtw_fast floor_sqrt doc_x [qz 1] (DStr "square") radius
       false false false = Raise ValueError).
Proof.
  apply (mismatched_series_are_refused floor_sqrt doc_x [qz 1]
           (DStr "square") false false false).
  left. simpl. lia.
Defined.

(** ** The Sakoe-Chiba band *)

(** X18.  [sakoe_chiba_band] returns exactly for [n >= 2] with an integer
    window in [0 .. n-1] or a float window in [[0, 1]].  With [n >= 2] a
    window that is neither an integer nor a float is a [TypeError]; every
    other refusal is a [ValueError], and [n < 2] is refused before the
    window is looked at. *)
Theorem sakoe_chiba_band_accepts n window_size :
  ((∃ region, sakoe_chiba_band n window_size = Ok region) ↔
   2 ≤ n ∧
   ((∃ w, window_size = VInt w ∧ 0 ≤ w ≤ n - 1) ∨
    (∃ f, window_size = VFloat f ∧ (0 ≤ f ≤ 1)%Qc))) ∧
  (n < 2 → sakoe_chiba_band n window_size = Raise ValueError) ∧
  (∀ e, sakoe_chiba_band n window_size = Raise e →
     e = ValueError ∨ (e = TypeError ∧ 2 ≤ n ∧ ∃ s, window_size = VStr s)).
Proof.
  unfold sakoe_chiba_band.
  destruct (decide (2 ≤ n)) as [Hn|Hn].
  2:{ rewrite bool_decide_false by done. simpl.
      split; [split; [by intros [? ?]|by intros [? _]]|].
      split; [done|]. intros e [= <-]. by left. }
  rewrite bool_decide_true by done. simpl.
  destruct window_size as [w|f|s]; simpl.
  - destruct (decide (0 ≤ w ≤ n - 1)) as [Hw|Hw].
    + rewrite bool_decide_true by done. simpl.
      split; [|split; [lia|done]].
      split; [|by eauto]. intros _. split; [done|]. left. by eauto.
    + rewrite bool_decide_false by done. simpl.
      split; [|split; [lia|by intros e [= <-]; left]].
      split; [by intros [? ?]|].
      intros [_ [(w' & [= <-] & Hw')|(f & Hf & _)]]; done.
  - destruct (decide (0 ≤ f ≤ 1)%Qc) as [Hf|Hf].
    + rewrite bool_decide_true by done. simpl.
      split; [|split; [lia|done]].
      split; [|by eauto]. intros _. split; [done|]. right. by eauto.
    + rewrite bool_decide_false by done. simpl.
      split; [|split; [lia|by intros e [= <-]; left]].
      split; [by intros [? ?]|].
      intros [_ [(w' & Hw' & _)|(f' & [= <-] & Hf')]]; done.
  - split; [|split; [lia|]].
    + split; [by intros [? ?]|].
      intros [_ [(w' & Hw' & _)|(f' & Hf' & _)]]; done.
    + intros e [= <-]. right. split; [done|]. split; [done|]. by eauto.
Qed.

(** The window of a float is the fraction of [n - 1], rounded up, up to
    the rounding of the product: never more, and at most one less (when
    the product is so little above an integer that it rounds to it). *)
Lemma float_window_near n f :
  1 ≤ n →
  let w := py_ceil (float_mul f (float_of_int (n - 1))) in
  Qceiling (f * Qc_of_Z (n - 1))%Qc - 1 ≤ w ≤ Qceiling (f * Qc_of_Z (n - 1))%Qc.
Proof.
  intros Hn w. unfold w, py_ceil, float_mul. rewrite float_of_int_exact.
  set (x := (f * Qc_of_Z (n - 1))%Qc). split.
  - assert (Qceiling x - 1 ≤ Qfloor x) as Hcf.
    { assert (Qceiling x - 1 < Qfloor x + 1); [|lia].
      rewrite Zlt_Qlt. eapply Qlt_trans; [apply Qceiling_lt|apply Qlt_floor]. }
    assert (Qfloor x ≤ Qceiling (b64_round x)); [|lia].
    rewrite <-(Qceiling_Z (Qfloor x)). apply Qceiling_resp_le.
    apply (b64_round_ge_int x (Qfloor x)). apply Qfloor_le.
  - pose proof (Qceiling_resp_le (b64_round x) (inject_Z (Qceiling x))) as H.
    rewrite Qceiling_Z in H. apply H.
    apply (b64_round_le_int x (Qceiling x)). apply Qle_ceiling.
Qed.

(** Two windows.  The float [0.2] is above 1/5: its exact product by 5 is
    above 1 (ceiling 2) and rounds to [1.0], so the window of [(6, 0.2)] is
    1.  The float [0.28] is above 28/100 and its product by 25 rounds to
    the float after [7.0], so the window of [(26, 0.28)] is 8, where the
    fraction 28/100 itself gives 7. *)
Example float_window_examples :
  resolved_window 6 (VFloat (float_lit (2 # 10))) = Some 1 ∧
  Qceiling (float_lit (2 # 10) * Qc_of_Z 5)%Qc = 2 ∧
  resolved_window 26 (VFloat (float_lit (28 # 100))) = Some 8 ∧
  resolved_window 26 (VFloat (Q2Qc (28 # 100))) = Some 7.
Proof. vm_compute. done. Qed.

(** X19.  A cell is in the band when its row is in the grid and its
    column is at most the window away: for a valid window resolved to [w]
    cells, row [i] is in the range of column [j] exactly when
    [0 <= i < n] and [|i - j| <= w] (so the band holds the diagonal and is
    symmetric).  For a float window [f], [w] is the ceiling of the float
    product [f * (n - 1)]: the ceiling of the exact product, or one
    less. *)
Theorem sakoe_chiba_band_cells n window_size w :
  2 ≤ n → resolved_window n window_size = Some w →
  (∀ f, window_size = VFloat f →
     Qceiling (f * Qc_of_Z (n - 1))%Qc - 1 ≤ w
     ≤ Qceiling (f * Qc_of_Z (n - 1))%Qc) ∧
  ∃ region,
    sakoe_chiba_band n window_size = Ok region ∧
    length region.1 = Z.to_nat n ∧ length region.2 = Z.to_nat n ∧
    ∀ i j, 0 ≤ j < n →
      (in_region region i j ↔ 0 ≤ i < n ∧ Z.abs (i - j) ≤ w).
Proof.
  intros Hn Hw. split.
  { intros f ->. simpl in Hw. case_decide; [|done]. injection Hw as <-.
    apply (float_window_near n f). lia. }
  destruct (sakoe_chiba_band_resolved n window_size w Hn Hw) as [Hw0 ->].
  eexists. split; [done|].
  destruct (length_band n w) as [H1 H2]; [lia|].
  split; [done|]. split; [done|]. intros i j Hj.
  unfold in_region, band. simpl. rewrite !int_get_fmap_seqZ by done. lia.
Qed.

Lemma sakoe_chiba_band_cells_witness :
  (∀ f, VFloat (float_lit (28 # 100)) = VFloat f →
     Qceiling (f * Qc_of_Z (26 - 1))%Qc - 1 ≤ 8
     ≤ Qceiling (f * Qc_of_Z (26 - 1))%Qc) ∧
  ∃ region,
    sakoe_chiba_band 26 (VFloat (float_lit (28 # 100))) = Ok region ∧
    length region.1 = Z.to_nat 26 ∧ length region.2 = Z.to_nat 26 ∧
    ∀ i j, 0 ≤ j < 26 →
      (in_region region i j ↔ 0 ≤ i < 26 ∧ Z.abs (i - j) ≤ 8).
Proof.
  apply (sakoe_chiba_band_cells 26 (VFloat (float_lit (28 # 100))) 8).
  - lia.
  - vm_compute. reflexivity.
Defined.

(** ** The Itakura parallelogram *)

Lemma Qc_le_by_product (p q a b : Qc) :
  (q + - p = a * b)%Qc → (0 ≤ a)%Qc → (0 ≤ b)%Qc → (p ≤ q)%Qc.
Proof.
  intros E Ha Hb. apply Qcle_minus_iff. rewrite E.
  by apply Qcmult_nonneg_nonneg.
Qed.

Lemma Qc_sub_nonneg (a b : Qc) : (a ≤ b)%Qc → (0 ≤ b - a)%Qc.
Proof. intros H. by apply Qcle_minus_iff in H. Qed.

Lemma np_round2_ge_int q k :
  (Qc_of_Z k ≤ q)%Qc → (Qc_of_Z k ≤ np_round2 q)%Qc.
Proof.
  intros Hq. unfold np_round2.
  rewrite <-(Qcdiv_mult_l (Qc_of_Z k) (Qc_of_Z 100)) at 1
    by (rewrite <-Z2Qc_inj_0; by intros ?%Z2Qc_inj).
  unfold Qcdiv. apply Qcmult_le_mono_nonneg_r; [done|].
  rewrite <-Z2Qc_inj_mul. apply (proj1 (Z2Qc_inj_le _ _)).
  apply np_rint_ge_int. rewrite Z2Qc_inj_mul.
  by apply Qcmult_le_mono_nonneg_r.
Qed.

Lemma qc_max_lub a b c : (a ≤ c)%Qc → (b ≤ c)%Qc → (qc_max a b ≤ c)%Qc.
Proof. unfold qc_max. by case_decide. Qed.

Lemma qc_max_ge_r a b : (b ≤ qc_max a b)%Qc.
Proof.
  unfold qc_max. case_decide as H; [apply Qcle_refl|by apply Qcnot_lt_le].
Qed.

Lemma qc_min_glb a b c : (c ≤ a)%Qc → (c ≤ b)%Qc → (c ≤ qc_min a b)%Qc.
Proof. unfold qc_min. by case_decide. Qed.

Lemma qc_min_le_l a b : (qc_min a b ≤ a)%Qc.
Proof.
  unfold qc_min. case_decide as H; [by apply Qclt_le_weak|apply Qcle_refl].
Qed.

Lemma py_ceil_le_int q k : (q ≤ Qc_of_Z k)%Qc → py_ceil q ≤ k.
Proof.
  intros H. rewrite <-(py_ceil_int k). unfold py_ceil.
  by apply Qceiling_resp_le.
Qed.

Lemma py_ceil_ge_int q k : (Qc_of_Z k ≤ q)%Qc → k ≤ py_ceil q.
Proof.
  intros H. rewrite <-(py_ceil_int k) at 1. unfold py_ceil.
  by apply Qceiling_resp_le.
Qed.

Lemma py_floor_le_int q k : (q ≤ Qc_of_Z k)%Qc → py_floor q ≤ k.
Proof.
  intros H. rewrite <-(py_floor_int k). unfold py_floor.
  by apply Qfloor_resp_le.
Qed.

Lemma py_floor_ge_int q k : (Qc_of_Z k ≤ q)%Qc → k ≤ py_floor q.
Proof.
  intros H. rewrite <-(py_floor_int k) at 1. unfold py_floor.
  by apply Qfloor_resp_le.
Qed.

Lemma int_get_rounded (g : Qc → Z) (h : Qc → Qc → Qc) (f1 f2 : Z → Qc) n j :
  0 ≤ j < n →
  int_get (g <$> zip_with h (np_round2 <$> (f1 <$> np_arange n))
                   (np_round2 <$> (f2 <$> np_arange n))) j
  = g (h (np_round2 (f1 j)) (np_round2 (f2 j))).
Proof.
  intros Hj. unfold int_get, np_arange.
  rewrite length_fmap, length_zip_with, !length_fmap, !length_seqZ.
  rewrite py_index_in by lia. simpl.
  rewrite list_lookup_fmap, lookup_zip_with, !list_lookup_fmap.
  rewrite lookup_seqZ_lt by lia. simpl.
  by replace (0 + Z.of_nat (Z.to_nat j)) with j by lia.
Qed.

Lemma itakura_columns n s :
  2 ≤ n → (∃ z, s = VInt z ∧ 1 ≤ z) ∨ (∃ q, s = VFloat q ∧ (1 ≤ q)%Qc) →
  ∃ region,
    itakura_parallelogram n s = Ok region ∧
    length region.1 = Z.to_nat n ∧ length region.2 = Z.to_nat n ∧
    (∀ j, 0 ≤ j < n →
       int_get region.1 j ≤ j ∧ j + 1 ≤ int_get region.2 j) ∧
    int_get region.2 0 ≤ 1 ∧ n - 1 ≤ int_get region.1 (n - 1).
Proof.
  intros Hn Hs. unfold itakura_parallelogram.
  rewrite bool_decide_true by done. simpl.
  assert (∃ ms, (match s with
                 | VInt z => Ok (Qc_of_Z z)
                 | VFloat q => Ok q
                 | VStr _ => Raise TypeError
                 end) = Ok ms ∧ (1 ≤ ms)%Qc) as (ms & -> & Hms).
  { destruct Hs as [(z & -> & Hz)|(q & -> & Hq)]; eexists; split; try done.
    rewrite <-Z2Qc_inj_1. by apply (proj1 (Z2Qc_inj_le _ _)). }
  simpl. rewrite bool_decide_true by done. simpl.
  eexists. split; [done|]. cbn [fst snd].
  assert (0 < ms)%Qc as Hpos by (by apply Qclt_le_trans with 1%Qc).
  assert (ms ≠ 0)%Qc as Hne by (intros ->; by apply Qclt_not_eq in Hpos).
  assert (0 ≤ 1 / ms)%Qc as Hinv.
  { unfold Qcdiv. rewrite Qcmult_1_l. by apply Qclt_le_weak, Qcinv_pos. }
  assert (0 ≤ ms - 1)%Qc as Hms1 by (by apply Qc_sub_nonneg).
  assert (0 ≤ 1 - 1 / ms)%Qc as Hinv1.
  { apply Qc_sub_nonneg.
    apply (Qc_le_by_product _ _ (1 / ms) (ms - 1)); [|done|done].
    by field. }
  assert (∀ j, 0 ≤ j < n →
    (0 ≤ Qc_of_Z j)%Qc ∧ (0 ≤ Qc_of_Z (n - 1) - Qc_of_Z j)%Qc) as Hcol.
  { intros j Hj. split; [apply Qc_of_Z_nonneg; lia|].
    apply Qc_sub_nonneg, (proj1 (Z2Qc_inj_le _ _)). lia. }
  split.
  { rewrite !length_fmap, !length_zip_with, !length_fmap.
    unfold np_arange. rewrite !length_seqZ. lia. }
  split.
  { rewrite !length_fmap, !length_zip_with, !length_fmap.
    unfold np_arange. rewrite !length_seqZ. lia. }
  split; [|split].
  - intros j Hj. destruct (Hcol j Hj) as [HJ HNJ].
    rewrite !int_get_rounded by done. split.
    + apply py_ceil_le_int, qc_max_lub; apply np_round2_le_int.
      * apply (Qc_le_by_product _ _ (1 - 1 / ms) (Qc_of_Z j));
          [ring|done|done].
      * apply (Qc_le_by_product _ _ (ms - 1)
                 (Qc_of_Z (n - 1) - Qc_of_Z j)); [ring|done|done].
    + apply py_floor_ge_int. rewrite Z2Qc_inj_add, Z2Qc_inj_1.
      apply Qcplus_le_compat; [|apply Qcle_refl].
      apply qc_min_glb; apply np_round2_ge_int.
      * apply (Qc_le_by_product _ _ (ms - 1) (Qc_of_Z j));
          [ring|done|done].
      * apply (Qc_le_by_product _ _ (1 - 1 / ms)
                 (Qc_of_Z (n - 1) - Qc_of_Z j)); [ring|done|done].
  - rewrite int_get_rounded by lia. apply py_floor_le_int.
    replace (Qc_of_Z 1) with (Qc_of_Z 0 + 1)%Qc
      by (by rewrite Z2Qc_inj_0, Z2Qc_inj_1).
    apply Qcplus_le_compat; [|apply Qcle_refl].
    etrans; [apply qc_min_le_l|]. apply np_round2_le_int.
    rewrite Z2Qc_inj_0. replace (ms * 0)%Qc with 0%Qc by ring.
    apply Qcle_refl.
  - rewrite int_get_rounded by lia. apply py_ceil_ge_int.
    etrans; [|apply qc_max_ge_r]. apply np_round2_ge_int.
    replace ((1 - ms) * Qc_of_Z (n - 1) + ms * Qc_of_Z (n - 1))%Qc
      with (Qc_of_Z (n - 1)) by ring.
    apply Qcle_refl.
Qed.

Lemma half_Q k : (half k == inject_Z k / 2)%Q.
Proof.
  unfold half, Qcdiv, Qcmult, Qcinv, Q2Qc. simpl. rewrite !Qred_correct. reflexivity.
Qed.

Lemma py_floor_half k : py_floor (half k) = k `div` 2.
Proof.
  unfold py_floor. rewrite (Qfloor_comp _ _ (half_Q k)).
  unfold Qdiv, Qmult, Qinv, inject_Z, Qfloor. simpl. by rewrite Z.mul_1_r.
Qed.

Lemma py_ceil_half k : py_ceil (half k) = (k + 1) `div` 2.
Proof.
  unfold py_ceil, Qceiling.
  assert (- half k == inject_Z (- k) / 2)%Q as E.
  { rewrite half_Q, inject_Z_opp. field. }
  rewrite (Qfloor_comp _ _ E).
  unfold Qdiv, Qmult, Qinv, inject_Z, Qfloor. simpl. rewrite Z.mul_1_r.
  Z.div_mod_to_equations. lia.
Qed.

Lemma half_lt a b : (half a < half b)%Qc ↔ a < b.
Proof.
  unfold Qclt. rewrite !half_Q. rewrite Zlt_Qlt.
  set (x := inject_Z a). set (y := inject_Z b).
  split; intros H.
  - apply (Qmult_lt_r _ _ (/ 2)); [reflexivity|exact H].
  - apply (Qmult_lt_r _ _ (/ 2)) in H; [exact H|reflexivity].
Qed.

Lemma qc_max_half a b : qc_max (half a) (half b) = half (Z.max a b).
Proof.
  unfold qc_max. case_decide as H; rewrite half_lt in H; f_equal; lia.
Qed.

Lemma qc_min_half a b : qc_min (half a) (half b) = half (Z.min a b).
Proof.
  unfold qc_min. case_decide as H; rewrite half_lt in H; f_equal; lia.
Qed.

Lemma half_int k : Qc_of_Z k = half (2 * k).
Proof.
  unfold half. rewrite Z2Qc_inj_mul. field. by intros [=].
Qed.

Lemma half_plus_1 k : (half k + 1)%Qc = half (k + 2).
Proof.
  unfold half. rewrite Z2Qc_inj_add. field. by intros [=].
Qed.

Lemma np_round2_half k : np_round2 (half k) = half k.
Proof.
  unfold np_round2.
  replace (Qc_of_Z 100) with (Qc_of_Z 50 * Qc_of_Z 2)%Qc
    by (by rewrite <-Z2Qc_inj_mul).
  replace (half k * (Qc_of_Z 50 * Qc_of_Z 2))%Qc with (Qc_of_Z (50 * k))
    by (unfold half; rewrite Z2Qc_inj_mul; field; by intros [=]).
  rewrite np_rint_int. unfold half. rewrite Z2Qc_inj_mul.
  field. split; by intros [=].
Qed.

Lemma dyadic_slope_ge_1 s :
  dyadic_slope s →
  (∃ z, s = VInt z ∧ 1 ≤ z) ∨ (∃ q, s = VFloat q ∧ (1 ≤ q)%Qc).
Proof.
  intros (z & Hz & [-> | ->]); [left; exists z; split; [done|lia]|].
  right. eexists. split; [done|].
  rewrite <-Z2Qc_inj_1. apply (proj1 (Z2Qc_inj_le _ _)). lia.
Qed.

(** The default parallelogram, column by column. *)
Lemma itakura_default_columns n s region :
  2 ≤ n → s = VInt 2 ∨ s = VFloat (Qc_of_Z 2) →
  itakura_parallelogram n s = Ok region →
  ∀ j, 0 ≤ j < n →
    int_get region.1 j = Z.max ((j + 1) `div` 2) (2 * j - (n - 1)) ∧
    int_get region.2 j = Z.min (2 * j) ((n - 1 + j) `div` 2) + 1.
Proof.
  intros Hn Hs. unfold itakura_parallelogram.
  rewrite bool_decide_true by done. simpl.
  assert ((match s with
           | VInt z => Ok (Qc_of_Z z)
           | VFloat q => Ok q
           | VStr _ => Raise TypeError
           end) = Ok (Qc_of_Z 2)) as -> by (by destruct Hs as [-> | ->]).
  simpl. intros [= <-] j Hj. cbn [fst snd].
  rewrite !int_get_rounded by done.
  set (N := n - 1).
  assert (Qc_of_Z 2 = 1 + 1)%Qc as Htwo by (by apply Qc_is_canon).
  replace ((1 - 1 / Qc_of_Z 2) * Qc_of_Z N + 1 / Qc_of_Z 2 * Qc_of_Z j)%Qc
    with (half (N + j))
    by (unfold half; rewrite Z2Qc_inj_add, !Htwo; field; by intros [=]).
  replace ((1 - Qc_of_Z 2) * Qc_of_Z N + Qc_of_Z 2 * Qc_of_Z j)%Qc
    with (half (2 * (2 * j - N)))
    by (unfold half;
        rewrite !Z2Qc_inj_mul, !Z2Qc_inj_sub, !Z2Qc_inj_mul, !Htwo;
        field; by intros [=]).
  replace (1 / Qc_of_Z 2 * Qc_of_Z j)%Qc with (half j)
    by (unfold half; field; by intros [=]).
  replace (Qc_of_Z 2 * Qc_of_Z j)%Qc with (half (2 * (2 * j)))
    by (unfold half; rewrite !Z2Qc_inj_mul; field; by intros [=]).
  rewrite !np_round2_half, qc_max_half, qc_min_half, half_plus_1.
  rewrite py_ceil_half, py_floor_half.
  subst N. split; Z.div_mod_to_equations; lia.
Qed.

(** X20.  For [n >= 2] and the slope 1, 2 or 4 (as an integer or a
    float), [itakura_parallelogram] returns two rows of length [n]; the
    range of every column [j] lies in the grid and holds the diagonal cell
    ([0 <= lo[j] <= j < hi[j] <= n]); the two corners are pinned: column
    [0] allows row [0] only, column [n-1] allows row [n-1] only.  With the
    default slope 2 the range of column [j] runs from
    [max(ceil(j / 2), 2 j - (n - 1))] to
    [min(2 j, floor((n - 1 + j) / 2))], the latter included; for [n = 5]
    this is the documented [[0, 1, 1, 2, 4], [1, 3, 4, 4, 5]]. *)
Theorem itakura_parallelogram_shape n max_slope :
  2 ≤ n → dyadic_slope max_slope →
  ∃ region,
    itakura_parallelogram n max_slope = Ok region ∧
    length region.1 = Z.to_nat n ∧ length region.2 = Z.to_nat n ∧
    (∀ j, 0 ≤ j < n →
       0 ≤ int_get region.1 j ≤ j ∧ j < int_get region.2 j ≤ n) ∧
    int_get region.1 0 = 0 ∧ int_get region.2 0 = 1 ∧
    int_get region.1 (n - 1) = n - 1 ∧ int_get region.2 (n - 1) = n ∧
    (max_slope = VInt 2 ∨ max_slope = VFloat (Qc_of_Z 2) →
     ∀ j, 0 ≤ j < n →
       int_get region.1 j = Z.max ((j + 1) `div` 2) (2 * j - (n - 1)) ∧
       int_get region.2 j = Z.min (2 * j) ((n - 1 + j) `div` 2) + 1) ∧
    itakura_parallelogram 5 (VFloat (Qc_of_Z 2))
    = Ok ([0; 1; 1; 2; 4], [1; 3; 4; 4; 5]).
Proof.
  intros Hn Hs. apply dyadic_slope_ge_1 in Hs as Hs1.
  destruct (itakura_columns n max_slope Hn Hs1)
    as (region & Hreg & H1 & H2 & Hcols & Hhi0 & Hlo1).
  destruct (itakura_bounded _ _ _ Hreg) as [Hlo Hhi].
  assert (∀ j, 0 ≤ int_get region.1 j) as Hlo'
    by (intros j; by apply (int_get_Forall (λ v, 0 ≤ v))).
  assert (∀ j, int_get region.2 j ≤ n) as Hhi'
    by (intros j; apply (int_get_Forall (λ v, v ≤ n)); [lia|done]).
  exists region. split; [done|]. split; [done|]. split; [done|].
  pose proof (Hcols 0 ltac:(lia)). pose proof (Hcols (n - 1) ltac:(lia)).
  pose proof (Hlo' 0). pose proof (Hhi' (n - 1)).
  split; [|split_and!; try lia].
  - intros j Hj. specialize (Hcols j Hj).
    specialize (Hlo' j). specialize (Hhi' j). lia.
  - intros H2s. by apply (itakura_default_columns n max_slope).
  - vm_compute. reflexivity.
Qed.

Lemma itakura_parallelogram_shape_witness :
  ∃ region,
    itakura_parallelogram 7 (VFloat (Qc_of_Z 2)) = Ok region ∧
    length region.1 = Z.to_nat 7 ∧ length region.2 = Z.to_nat 7 ∧
    (∀ j, 0 ≤ j < 7 →
       0 ≤ int_get region.1 j ≤ j ∧ j < int_get region.2 j ≤ 7) ∧
    int_get region.1 0 = 0 ∧ int_get region.2 0 = 1 ∧
    int_get region.1 (7 - 1) = 7 - 1 ∧ int_get region.2 (7 - 1) = 7 ∧
    (VFloat (Qc_of_Z 2) = VInt 2 ∨ VFloat (Qc_of_Z 2) = VFloat (Qc_of_Z 2) →
     ∀ j, 0 ≤ j < 7 →
       int_get region.1 j = Z.max ((j + 1) `div` 2) (2 * j - (7 - 1)) ∧
       int_get region.2 j = Z.min (2 * j) ((7 - 1 + j) `div` 2) + 1) ∧
    itakura_parallelogram 5 (VFloat (Qc_of_Z 2))
    = Ok ([0; 1; 1; 2; 4], [1; 3; 4; 4; 5]).
Proof.
  apply (itakura_parallelogram_shape 7 (VFloat (Qc_of_Z 2))).
  - lia.
  - exists 2. split; [lia|]. by right.
Defined.

(** X21.  [itakura_parallelogram] returns exactly for [n >= 2] with an
    integer or float slope that is at least 1.  [n < 2] is a [ValueError]
    before the slope is looked at; with [n >= 2] a slope that is neither
    an integer nor a float is a [TypeError] and a slope below 1 is a
    [ValueError]. *)
Theorem itakura_parallelogram_accepts n max_slope :
  ((∃ region, itakura_parallelogram n max_slope = Ok region) ↔
   2 ≤ n ∧
   ((∃ z, max_slope = VInt z ∧ 1 ≤ z) ∨
    (∃ q, max_slope = VFloat q ∧ (1 ≤ q)%Qc))) ∧
  (n < 2 → itakura_parallelogram n max_slope = Raise ValueError) ∧
  (2 ≤ n → (∃ s, max_slope = VStr s) →
   itakura_parallelogram n max_slope = Raise TypeError) ∧
  (2 ≤ n →
   (∃ z, max_slope = VInt z ∧ z < 1) ∨
   (∃ q, max_slope = VFloat q ∧ (q < 1)%Qc) →
   itakura_parallelogram n max_slope = Raise ValueError).
Proof.
  split; [split|].
  - intros [region H]. unfold itakura_parallelogram in H.
    apply bind_Ok in H as (u & Hn%guard_or_Ok%bool_decide_eq_true & H).
    apply bind_Ok in H as (ms & Hms & H).
    apply bind_Ok in H as (u' & Hge%guard_or_Ok%bool_decide_eq_true & _).
    split; [done|]. destruct max_slope as [z|q|s]; [| |done].
    + left. exists z. split; [done|]. injection Hms as <-.
      apply Z2Qc_inj_le. by rewrite Z2Qc_inj_1.
    + right. exists q. split; [done|]. by injection Hms as <-.
  - intros [Hn Hs].
    destruct (itakura_returns n max_slope Hn Hs) as (region & -> & _).
    by eexists.
  - unfold itakura_parallelogram. split; [|split].
    + intros Hn. by rewrite bool_decide_false by lia.
    + intros Hn [s ->]. by rewrite bool_decide_true by done.
    + intros Hn Hs. rewrite bool_decide_true by done. simpl.
      destruct Hs as [(z & -> & Hz)|(q & -> & Hq)]; simpl.
      * rewrite bool_decide_false; [done|]. intros H.
        rewrite <-Z2Qc_inj_1 in H. apply Z2Qc_inj_le in H. lia.
      * rewrite bool_decide_false; [done|]. by apply Qclt_not_le.
Qed.

Section Constrained.

Variable fsqrt : Qc → Qc.

(** X22.  The distance of a series to itself is zero under the generated
    regions too: with the built-in distances, [dtw_sakoechiba(x, x)] for
    every valid window and [dtw_itakura(x, x)] for the slopes 1, 2 (the
    default) and 4 return 0 (for ["square"], the square root of 0),
    because both regions hold the diagonal. *)
Theorem constrained_self_distance_zero x d :
  (2 ≤ length x)%nat → builtin d →
  let n := Z.of_nat (length x) in
  let zero := if is_str d "square" then Fin (fsqrt 0) else Fin 0%Qc in
  (∀ window_size, is_Some (resolved_window n window_size) →
     dtw_sakoechiba fsqrt x x d window_size false false false
     = Ok (Single (IDist zero))) ∧
  (∀ max_slope, dyadic_slope max_slope →
     dtw_itakura fsqrt x x d max_slope false false false
     = Ok (Single (IDist zero))).
Proof.
  intros Hn Hd n zero. split.
  - intros w [w' Hw].
    destruct (sakoe_chiba_band_resolved n w w' ltac:(lia) Hw)
      as [Hw0 Hband].
    unfold dtw_sakoechiba. rewrite check_input_ok by (done || lia). simpl.
    fold n. rewrite Hband. simpl.
    apply (region_self_zero fsqrt x d (Some (band n w'))); [done|done|].
    intros reg [= <-]. split.
    + apply bounded_in_grid; [by eapply sakoe_chiba_band_bounded|].
      destruct (length_band n w') as [H1 H2]; [lia|].
      unfold region_shape_ok. rewrite H1, H2. subst n.
      by rewrite Nat2Z.id, Nat.eqb_refl.
    + intros k Hk. unfold in_region, band. simpl.
      fold n in Hk. rewrite !int_get_fmap_seqZ by done. lia.
  - intros s Hs. apply dyadic_slope_ge_1 in Hs.
    destruct (itakura_columns n s ltac:(lia) Hs)
      as (region & Hreg & H1 & H2 & Hcols & _).
    unfold dtw_itakura. rewrite check_input_ok by (done || lia). simpl.
    fold n. rewrite Hreg. simpl.
    apply (region_self_zero fsqrt x d (Some region)); [done|done|].
    intros reg [= <-]. split.
    + apply bounded_in_grid; [by eapply itakura_bounded|].
      unfold region_shape_ok. rewrite H1, H2. subst n.
      by rewrite Nat2Z.id, Nat.eqb_refl.
    + intros k Hk. unfold in_region. fold n in Hk.
      specialize (Hcols k Hk). lia.
Qed.

Lemma cost_matrix_raise x y d region e :
  cost_matrix x y d region = Raise e → e = ValueError.
Proof.
  unfold cost_matrix.
  destruct (check_input_cases x y) as [[Hxy Hx]|Herr];
    [|rewrite Herr; by intros [= <-]].
  rewrite check_input_ok by done. simpl.
  destruct (is_str d "square"); simpl.
  { destruct region as [reg|]; simpl; [|done].
    destruct (region_shape_ok reg (length x)); simpl;
      [done|by intros [= <-]]. }
  destruct (is_str d "absolute"); simpl.
  { destruct region as [reg|]; simpl; [|done].
    destruct (region_shape_ok reg (length x)); simpl;
      [done|by intros [= <-]]. }
  destruct d as [s|f|[]]; simpl;
    [by intros [= <-]| |by intros [= <-]|by intros [= <-]].
  destruct region as [reg|]; simpl; [|done].
  destruct (region_shape_ok reg (length x)); simpl; [done|by intros [= <-]].
Qed.

(** X23.  [dtw_multiscale] needs two points in the reduced series: on two
    series of one length [n >= 1], a resolution [>= 2] that is not below
    [n] is refused with a [ValueError] (the reduced series has one point,
    and its 1 x 1 cost matrix is not accepted), whatever the distance and
    the radius [>= 0]. *)
Theorem dtw_multiscale_coarse_refused x y d resolution radius rc ra rp :
  length x = length y → (0 < length x)%nat →
  2 ≤ resolution → Z.of_nat (length x) ≤ resolution → 0 ≤ radius →
  dtw_multiscale fsqrt x y d (VInt resolution) (VInt radius) rc ra rp
  = Raise ValueError.
Proof.
  intros Hxy Hx Hres Hsmall Hrad. unfold dtw_multiscale.
  rewrite check_input_ok by done. simpl.
  rewrite !bool_decide_true by lia. simpl.
  rewrite decide_False by lia.
  destruct (reduce_resolution_pair x y resolution) as [Hlen Hceil];
    [done|done|lia|].
  unfold is_ceil_div in Hceil.
  set (xp := reduce_resolution x (Z.of_nat (length x)) resolution) in *.
  set (yp := reduce_resolution y (Z.of_nat (length x)) resolution) in *.
  assert (length xp = 1%nat) as H1 by nia.
  destruct (cost_matrix xp yp d None) as [cm|e] eqn:Hcm; simpl.
  - pose proof (cost_matrix_square _ _ _ _ _ Hcm) as Hsq.
    rewrite H1 in Hsq. unfold accumulated_cost_matrix.
    by rewrite (mat_shape_square 1).
  - by rewrite (cost_matrix_raise _ _ _ _ _ Hcm).
Qed.

(** X24.  The argument checks of [dtw_multiscale] and [dtw_fast] on two
    series of one length: a resolution or a radius that is not an integer
    is a [TypeError], a resolution below 1 or a negative radius is a
    [ValueError]; the resolution is checked before the radius. *)
Theorem multiscale_fast_argument_checks x y d rc ra rp :
  length x = length y → (0 < length x)%nat →
  (∀ resolution radius, (∀ z, resolution ≠ VInt z) →
     dtw_multiscale fsqrt x y d resolution radius rc ra rp
     = Raise TypeError) ∧
  (∀ z radius, z < 1 →
     dtw_multiscale fsqrt x y d (VInt z) radius rc ra rp
     = Raise ValueError) ∧
  (∀ z radius, 1 ≤ z → (∀ r, radius ≠ VInt r) →
     dtw_multiscale fsqrt x y d (VInt z) radius rc ra rp
     = Raise TypeError) ∧
  (∀ z r, 1 ≤ z → r < 0 →
     dtw_multiscale fsqrt x y d (VInt z) (VInt r) rc ra rp
     = Raise ValueError) ∧
  (∀ radius, (∀ r, radius ≠ VInt r) →
     dtw_fast fsqrt x y d radius rc ra rp = Raise TypeError) ∧
  (∀ r, r < 0 →
     dtw_fast fsqrt x y d (VInt r) rc ra rp = Raise ValueError).
Proof.
  intros Hxy Hx. unfold dtw_multiscale, dtw_fast.
  rewrite check_input_ok by done. simpl. split_and!.
  - intros [z| |] radius Hz; [by destruct (Hz z)|done|done].
  - intros z radius Hz. simpl. by rewrite bool_decide_false by lia.
  - intros z radius Hz Hr.
    destruct radius as [r| |]; [by destruct (Hr r)| |]; simpl;
      by rewrite bool_decide_true by lia.
  - intros z r Hz Hr. simpl.
    rewrite (bool_decide_eq_true_2 (1 ≤ z)) by lia. simpl.
    by rewrite bool_decide_false by lia.
  - intros [r| |] Hr; [by destruct (Hr r)|done|done].
  - intros r Hr. simpl. by rewrite bool_decide_false by lia.
Qed.

End Constrained.

Lemma constrained_self_distance_zero_witness :
  (∀ window_size, is_Some (resolved_window 3 window_size) →
     dtw_sakoechiba floor_sqrt doc_x doc_x (DStr "absolute") window_size
       false false false
     = Ok (Single (IDist (Fin 0%Qc)))) ∧
  (∀ max_slope, dyadic_slope max_slope →
     dtw_itakura floor_sqrt doc_x doc_x (DStr "absolute") max_slope
       false false false
     = Ok (Single (IDist (Fin 0%Qc)))).
Proof.
  apply (constrained_self_distance_zero floor_sqrt doc_x (DStr "absolute")).
  - simpl. lia.
  - right. reflexivity.
Defined.

Lemma dtw_multiscale_coarse_refused_witness :
  dtw_multiscale floor_sqrt doc_x doc_y (DStr "square") (VInt 3) (VInt 0)
    false false false
  = Raise ValueError.
Proof.
  apply (dtw_multiscale_coarse_refused floor_sqrt doc_x doc_y
           (DStr "square") 3 0 false false false).
  - reflexivity.
  - simpl. lia.
  - lia.
  - simpl. lia.
  - lia.
Defined.

Lemma multiscale_fast_argument_checks_witness :
  (∀ resolution radius, (∀ z, resolution ≠ VInt z) →
     dtw_multiscale floor_sqrt doc_x doc_y (DStr "square") resolution radius
       false false false
     = Raise TypeError) ∧
  (∀ z radius, z < 1 →
     dtw_multiscale floor_sqrt doc_x doc_y (DStr "square") (VInt z) radius
       false false false
     = Raise ValueError) ∧
  (∀ z radius, 1 ≤ z → (∀ r, radius ≠ VInt r) →
     dtw_multiscale floor_sqrt doc_x doc_y (DStr "square") (VInt z) radius
       false false false
     = Raise TypeError) ∧
  (∀ z r, 1 ≤ z → r < 0 →
     dtw_multiscale floor_sqrt doc_x doc_y (DStr "square") (VInt z) (VInt r)
       false false false
     = Raise ValueError) ∧
  (∀ radius, (∀ r, radius ≠ VInt r) →
     dtw_fast floor_sqrt doc_x doc_y (DStr "square") radius
       false false false = Raise TypeError) ∧
  (∀ r, r < 0 →
     dtw_fast floor_sqrt doc_x doc_y (DStr "square") (VInt r)
       false false false = Raise ValueError).
Proof.
  apply (multiscale_fast_argument_checks floor_sqrt doc_x doc_y
           (DStr "square") false false false).
  - reflexivity.
  - simpl. lia.
Defined.

(** ** Larger regions, smaller distances *)

Section RegionOrder.

Variable fsqrt : Qc → Qc.

(** [math.sqrt] is monotone on the non-negative floats. *)
Hypothesis fsqrt_monotone :
  ∀ p q, (0 ≤ p)%Qc → (p ≤ q)%Qc → (fsqrt p ≤ fsqrt q)%Qc.

(** X25.  The distance is monotone in the region: for two regions that
    stay in the grid, one inside the other, and a built-in distance,
    [dtw_region] returns for both and the distance under the larger region
    is at most the distance under the smaller one. *)
Theorem dtw_region_monotone x y d (small large : int2) :
  length x = length y → (2 ≤ length x)%nat → builtin d →
  region_in_grid (length x) small → region_in_grid (length x) large →
  (∀ i j, 0 ≤ i < Z.of_nat (length x) → 0 ≤ j < Z.of_nat (length x) →
     in_region small i j → in_region large i j) →
  ∃ v_small v_large,
    dtw_region fsqrt x y d (Some small) false false false
      = Ok (Single (IDist v_small)) ∧
    dtw_region fsqrt x y d (Some large) false false false
      = Ok (Single (IDist v_large)) ∧
    nle v_large v_small.
Proof.
  intros Hxy Hn Hd Hs Hl Hsub. set (n := length x) in *.
  destruct (builtin_fun d Hd) as (dist_ & Hfun & _ & Hpos).
  rewrite !(dtw_region_tail fsqrt)
    by (done || lia || by apply region_in_grid_shape).
  rewrite !(cost_matrix_ok _ _ _ _ dist_) by (done || lia).
  fold n. rewrite !region_in_grid_shape by done. simpl.
  destruct (cost_matrix_region_spec x y dist_ small Hs) as [Hsqs Hcs].
  destruct (cost_matrix_region_spec x y dist_ large Hl) as [Hsql Hcl].
  fold n in Hsqs, Hcs, Hsql, Hcl.
  rewrite !(dtw_tail_value fsqrt n) by done.
  set (vs := last_acc n (_cost_matrix_region x y dist_ small)).
  set (vl := last_acc n (_cost_matrix_region x y dist_ large)).
  assert (nonneg vl) as Hvl.
  { apply dtw_rec_nonneg, (cost_fun_nonneg n); [done|].
    by apply cost_matrix_region_nonneg. }
  assert (nle vl vs) as Hle.
  { apply dtw_rec_mono. intros a b.
    destruct (decide (a < n ∧ b < n)%nat) as [[Ha Hb]|Hout].
    - unfold cost_fun. rewrite Hcs, Hcl by lia.
      destruct (decide (in_region small _ _)) as [Hin|_]; [|apply nle_inf].
      rewrite decide_True; [done|]. apply Hsub; (done || lia).
    - rewrite (cost_fun_out n _ a b Hsqs) by lia. apply nle_inf. }
  assert (∃ w, final_value fsqrt d vl = Ok w) as [w Hw].
  { unfold final_value. destruct (is_str d "square"); [|by eauto].
    by apply math_sqrt_nonneg. }
  destruct (final_value_mono fsqrt fsqrt_monotone d vl vs w Hvl Hle Hw)
    as (w' & Hw' & Hww').
  exists w', w. rewrite Hw, Hw'. simpl. by rewrite !return_results_dist.
Qed.

End RegionOrder.

Lemma dtw_region_monotone_witness :
  ∃ v_small v_large,
    dtw_region floor_sqrt doc_x doc_y (DStr "square") (Some doc_region)
      false false false
      = Ok (Single (IDist v_small)) ∧
    dtw_region floor_sqrt doc_x doc_y (DStr "square")
      (Some ([0; 0; 0], [3; 3; 3])) false false false
      = Ok (Single (IDist v_large)) ∧
    nle v_large v_small.
Proof.
  apply (dtw_region_monotone floor_sqrt floor_sqrt_mono doc_x doc_y
           (DStr "square") doc_region ([0; 0; 0], [3; 3; 3])).
  - reflexivity.
  - simpl. lia.
  - left. reflexivity.
  - exact doc_region_in_grid.
  - split; [reflexivity|]. split; [reflexivity|]. intros j Hj.
    assert (j = 0 ∨ j = 1 ∨ j = 2) as [-> | [-> | ->]] by (simpl in Hj; lia);
      vm_compute; split; discriminate.
  - intros i j Hi Hj _. simpl in Hi, Hj. unfold in_region. cbn [fst snd].
    assert (j = 0 ∨ j = 1 ∨ j = 2) as [-> | [-> | ->]] by lia.
    + change (int_get [0; 0; 0] 0) with 0.
      change (int_get [3; 3; 3] 0) with 3. lia.
    + change (int_get [0; 0; 0] 1) with 0.
      change (int_get [3; 3; 3] 1) with 3. lia.
    + change (int_get [0; 0; 0] 2) with 0.
      change (int_get [3; 3; 3] 2) with 3. lia.
Defined.

(** ** The levels of [dtw_fast] *)

Lemma ceil_log2_from_upper fuel : ∀ k n m,
  1 ≤ m → 0 ≤ k → n ≤ m * 2 ^ (k + Z.of_nat fuel) →
  n ≤ m * 2 ^ ceil_log2_from fuel k n m.
Proof.
  induction fuel as [|fuel IH]; intros k n m Hm Hk Hn; simpl.
  - by rewrite Z.add_0_r in Hn.
  - case_decide; [done|]. apply IH; [done|lia|].
    by replace (k + 1 + Z.of_nat fuel) with (k + Z.of_nat (S fuel)) by lia.
Qed.

Lemma ceil_log2_ratio_spec n m :
  1 ≤ m → m < n →
  let k := ceil_log2_ratio n m in
  1 ≤ k ∧ m * 2 ^ (k - 1) < n ≤ m * 2 ^ k.
Proof.
  intros Hm Hn k.
  assert (n ≤ m * 2 ^ k) as Hup.
  { apply ceil_log2_from_upper; [done|done|].
    rewrite Z.add_0_l, Z2Nat.id by lia.
    pose proof (Z.pow_gt_lin_r 2 n ltac:(lia) ltac:(lia)). nia. }
  destruct (ceil_log2_from_spec (Z.to_nat n) 0 n m) as [Hk0 Hk];
    [lia|by left|].
  fold (ceil_log2_ratio n m) in Hk0, Hk. fold k in Hk0, Hk.
  destruct Hk as [Hk|Hk]; [rewrite Hk in Hup; simpl in Hup; lia|].
  split; [|done].
  destruct (decide (k = 0)) as [Hz|]; [|lia].
  rewrite Hz in Hup. simpl in Hup. lia.
Qed.

(** X26.  The number of levels of [dtw_fast].  For a series longer than
    [min_size = radius + 2], [n_recursions] is the least [k >= 1] with
    [n <= min_size * 2^k]; and the series of the coarsest level, reduced
    by [2^k], has at least 2 and at most [min_size] points. *)
Theorem fast_coarsest_level (x : vector) radius :
  0 ≤ radius → radius + 2 < Z.of_nat (length x) →
  let n := Z.of_nat (length x) in
  let k := ceil_log2_ratio n (radius + 2) in
  1 ≤ k ∧
  (radius + 2) * 2 ^ (k - 1) < n ≤ (radius + 2) * 2 ^ k ∧
  2 ≤ Z.of_nat (length (reduce_resolution x n (2 ^ k))) ≤ radius + 2.
Proof.
  intros Hrad Hlong n k.
  destruct (ceil_log2_ratio_spec n (radius + 2)) as (Hk & Hlow & Hup);
    [lia|done|].
  fold k in Hk, Hlow, Hup. split; [done|]. split; [done|].
  assert (0 < 2 ^ (k - 1)) as Hpow by (apply Z.pow_pos_nonneg; lia).
  assert (2 ^ k = 2 * 2 ^ (k - 1)) as Hk2.
  { replace k with (Z.succ (k - 1)) at 1 by lia.
    by rewrite Z.pow_succ_r by lia. }
  pose proof (reduce_resolution_length x (2 ^ k) ltac:(lia) ltac:(lia))
    as Hceil.
  fold n in Hceil. unfold is_ceil_div in Hceil. nia.
Qed.

Lemma fast_coarsest_level_witness :
  let x := [qz 0; qz 1; qz 1; qz 2; qz 3; qz 5; qz 8] in
  let k := ceil_log2_ratio 7 (1 + 2) in
  1 ≤ k ∧
  (1 + 2) * 2 ^ (k - 1) < 7 ≤ (1 + 2) * 2 ^ k ∧
  2 ≤ Z.of_nat (length (reduce_resolution x 7 (2 ^ k))) ≤ 1 + 2.
Proof.
  apply (fast_coarsest_level [qz 0; qz 1; qz 1; qz 2; qz 3; qz 5; qz 8] 1).
  - lia.
  - simpl. lia.
Defined.

(** X27.  The reduced series that [dtw_multiscale] and [dtw_fast] build
    (pad with the last sample up to a multiple of the resolution, then
    average blocks of [resolution] samples) has [ceil(n / resolution)]
    points. *)
Theorem reduced_series_length (x : vector) resolution :
  1 ≤ resolution → (0 < length x)%nat →
  Z.of_nat (length (reduce_resolution x (Z.of_nat (length x)) resolution))
  = ceil_div (Z.of_nat (length x)) resolution.
Proof.
  intros Hr Hx.
  eapply is_ceil_div_unique;
    [|by apply reduce_resolution_length|apply ceil_div_is_ceil_div]; lia.
Qed.

Lemma reduced_series_length_witness :
  Z.of_nat (length (reduce_resolution doc_x (Z.of_nat (length doc_x)) 2))
  = ceil_div (Z.of_nat (length doc_x)) 2.
Proof.
  apply (reduced_series_length doc_x 2).
  - lia.
  - simpl. lia.
Defined.

(** ** The region that [_multiscale_region] projects from a path *)

Lemma np_repeat_lookup {A} (r : nat) (l : list A) c :
  (0 < r)%nat → np_repeat (Z.of_nat r) l !! c = l !! (c / r)%nat.
Proof.
  intros Hr. unfold np_repeat. rewrite Nat2Z.id. revert c.
  induction l as [|a l IH]; intros c; [done|].
  rewrite bind_cons. destruct (decide (c < r)%nat) as [Hc|Hc].
  - rewrite lookup_app_l by (by rewrite length_replicate).
    rewrite lookup_replicate_2 by done. by rewrite Nat.div_small.
  - rewrite lookup_app_r by (rewrite length_replicate; lia).
    rewrite length_replicate, IH.
    replace c with ((c - r) + 1 * r)%nat at 2 by lia.
    rewrite Nat.div_add by lia. by rewrite Nat.add_1_r.
Qed.

Lemma mapM_result_lookup {A B} (f : A → result B) l bs k a :
  mapM f l = Ok bs → l !! k = Some a → ∃ b, bs !! k = Some b ∧ f a = Ok b.
Proof.
  revert bs k. induction l as [|a0 l IH]; intros bs k H Hk; [done|].
  simpl in H. apply bind_Ok in H as (b0 & Hb0 & H).
  apply bind_Ok in H as (bs' & Hbs' & H). injection H as <-.
  destruct k as [|k]; simpl in *.
  - injection Hk as ->. by exists b0.
  - by apply (IH bs' k).
Qed.

Lemma foldl_min_le l : ∀ a,
  foldl Z.min a l ≤ a ∧ ∀ v, v ∈ l → foldl Z.min a l ≤ v.
Proof.
  induction l as [|b l IH]; intros a; simpl.
  - split; [done|]. intros v Hv. by apply elem_of_nil in Hv.
  - destruct (IH (Z.min a b)) as [H1 H2]. split; [lia|].
    intros v [->|Hv]%elem_of_cons; [lia|by apply H2].
Qed.

Lemma foldl_max_ge l : ∀ a,
  a ≤ foldl Z.max a l ∧ ∀ v, v ∈ l → v ≤ foldl Z.max a l.
Proof.
  induction l as [|b l IH]; intros a; simpl.
  - split; [done|]. intros v Hv. by apply elem_of_nil in Hv.
  - destruct (IH (Z.max a b)) as [H1 H2]. split; [lia|].
    intros v [->|Hv]%elem_of_cons; [lia|by apply H2].
Qed.

Lemma np_min_le l mn v : np_min l = Ok mn → v ∈ l → mn ≤ v.
Proof.
  destruct l as [|a l]; [done|]. intros [= <-] Hv.
  destruct (foldl_min_le l a) as [H1 H2].
  apply elem_of_cons in Hv as [->|Hv]; [done|by apply H2].
Qed.

Lemma np_max_ge l mx v : np_max l = Ok mx → v ∈ l → v ≤ mx.
Proof.
  destruct l as [|a l]; [done|]. intros [= <-] Hv.
  destruct (foldl_max_ge l a) as [H1 H2].
  apply elem_of_cons in Hv as [->|Hv]; [done|by apply H2].
Qed.

Lemma int_get_lookup l j v :
  0 ≤ j → l !! Z.to_nat j = Some v → int_get l j = v.
Proof.
  intros Hj Hl. unfold int_get.
  rewrite py_index_in by (apply lookup_lt_Some in Hl; lia).
  simpl. by rewrite Hl.
Qed.

(** X28.  What the projected region holds.  Take a cell [(i, j)] of the
    coarse path inside the coarse grid.  At every index [c] of the block
    of [i] ([i * r <= c < (i + 1) * r], [c < n]) the region stores a range
    that covers the block of [j]: its start is at most [j * r] and its end
    at least [min(n, (j + 1) * r)].  The region is thus indexed by the
    first coordinate of the path and ranges over the second, while
    [cost_matrix] reads the index as a column and the range as rows: the
    cells that the final computation is allowed are those of the
    transposed path. *)
Theorem multiscale_region_covers_path n r m path radius region :
  0 ≤ n → 1 ≤ r →
  _multiscale_region n r m path radius = Ok region →
  ∀ k i j, path.1 !! k = Some i → path.2 !! k = Some j →
    0 ≤ i < m → 0 ≤ j < m →
    ∀ c, i * r ≤ c < (i + 1) * r → c < n →
      int_get region.1 c ≤ j * r ∧
      Z.min n ((j + 1) * r) ≤ int_get region.2 c.
Proof.
  intros Hn Hr H k i j Hk1 Hk2 Hi Hj c Hc Hcn.
  unfold _multiscale_region in H.
  destruct (foldl _ _ _) as [[[pu pd] pl] pr].
  apply bind_Ok in H as (rr & Hmap & H). injection H as <-. cbn [fst snd].
  destruct (mapM_result_lookup _ _ _ (Z.to_nat i) i Hmap)
    as (b & Hb & Hfi).
  { unfold py_range. rewrite lookup_seqZ_lt by lia. f_equal. lia. }
  apply bind_Ok in Hfi as (mn & Hmn & Hfi).
  apply bind_Ok in Hfi as (mx & Hmx & Hfi). injection Hfi as <-.
  cbn [fst snd] in Hmn, Hmx.
  assert (j ∈ mask_eq
            (np_clip 0 (m - 1) <$> path.1 ++ pu.1 ++ pd.1 ++ pl.1 ++ pr.1)
            (np_clip 0 (m - 1) <$> path.2 ++ pu.2 ++ pd.2 ++ pl.2 ++ pr.2)
            i) as Hin.
  { unfold mask_eq. apply list_elem_of_fmap. exists (i, j).
    split; [done|]. apply list_elem_of_filter. split; [done|].
    apply (list_elem_of_lookup_2 _ k). apply lookup_zip_with_Some.
    exists i, j. split; [done|]. rewrite !list_lookup_fmap.
    rewrite !lookup_app_l by (by eapply lookup_lt_Some).
    rewrite Hk1, Hk2. simpl. unfold np_clip. split; f_equal; lia. }
  pose proof (np_min_le _ _ _ Hmn Hin) as Hlo.
  pose proof (np_max_ge _ _ _ Hmx Hin) as Hhi.
  assert (Z.to_nat c / Z.to_nat r = Z.to_nat i)%nat as Hdiv.
  { rewrite <-Z2Nat.inj_div by lia. f_equal.
    symmetry. apply (Z.div_unique c r i (c - i * r)); lia. }
  assert (∀ (g : Z * Z → Z) v, g <$> rr !! Z.to_nat i = Some v →
    int_get (np_clip 0 n <$>
               take (Z.to_nat n) (np_repeat r (g <$> rr))) c
    = np_clip 0 n v) as Hget.
  { intros g v Hv. apply int_get_lookup; [lia|].
    rewrite list_lookup_fmap, lookup_take_lt by lia.
    rewrite <-(Z2Nat.id r) at 1 by lia.
    rewrite np_repeat_lookup by lia.
    rewrite list_lookup_fmap, Hdiv. destruct (rr !! Z.to_nat i); [|done].
    simpl in *. by injection Hv as ->. }
  rewrite (Hget fst (mn * r)), (Hget snd ((mx + 1) * r))
    by (by rewrite Hb).
  unfold np_clip. nia.
Qed.

Lemma multiscale_region_covers_path_witness :
  int_get [0; 0; 2; 2] 1 ≤ 1 * 2 ∧
  Z.min 4 ((1 + 1) * 2) ≤ int_get [4; 4; 4; 4] 1.
Proof.
  apply (multiscale_region_covers_path 4 2 2 ([0; 0; 1], [0; 1; 1]) 0
           ([0; 0; 2; 2], [4; 4; 4; 4]) ltac:(lia) ltac:(lia) eq_refl
           1%nat 0 1 eq_refl eq_refl ltac:(lia) ltac:(lia) 1
           ltac:(lia) ltac:(lia)).
Defined.

(** The transposition at work: for the coarse path [(0,0), (0,1), (1,1)]
    of a 2 x 2 grid and resolution 2, the fine cell [(0, 2)] lies under the
    path cell [(0, 1)], yet row 0 is not in the range of column 2; the
    mirrored cell [(2, 0)] is in the range of column 0. *)
Example multiscale_region_reads_transposed :
  _multiscale_region 4 2 2 ([0; 0; 1], [0; 1; 1]) 0
    = Ok ([0; 0; 2; 2], [4; 4; 4; 4]) ∧
  ¬ in_region ([0; 0; 2; 2], [4; 4; 4; 4]) 0 2 ∧
  in_region ([0; 0; 2; 2], [4; 4; 4; 4]) 2 0.
Proof.
  split; [vm_compute; reflexivity|]. unfold in_region. cbn [fst snd].
  change (int_get [0; 0; 2; 2] 2) with 2.
  change (int_get [4; 4; 4; 4] 2) with 4.
  change (int_get [0; 0; 2; 2] 0) with 0.
  change (int_get [4; 4; 4; 4] 0) with 4. lia.
Qed.

(** ** Symmetry under a symmetric region *)

Section Symmetry.

Variable fsqrt : Qc → Qc.

Lemma region_tail_symmetric x y d (region : int2) :
  length x = length y → (2 ≤ length x)%nat → builtin d →
  region_in_grid (length x) region →
  (∀ i j, 0 ≤ i < Z.of_nat (length x) → 0 ≤ j < Z.of_nat (length x) →
     in_region region i j → in_region region j i) →
  ∃ v,
    (cm ← cost_matrix x y d (Some region);
     dtw_tail fsqrt d cm false false false) = Ok (Single (IDist v)) ∧
    (cm ← cost_matrix y x d (Some region);
     dtw_tail fsqrt d cm false false false) = Ok (Single (IDist v)).
Proof.
  intros Hxy Hn Hd Hgrid Hsym. set (n := length x) in *.
  destruct (builtin_fun d Hd) as (dist_ & Hfun & Hdsym & Hpos).
  pose proof (region_in_grid_shape _ _ Hgrid) as Hshape.
  assert (region_in_grid (length y) region) as Hgrid'
    by (by rewrite <-Hxy).
  rewrite !(cost_matrix_ok _ _ _ _ dist_) by (done || lia).
  rewrite <-Hxy. fold n. rewrite Hshape. simpl.
  destruct (cost_matrix_region_spec x y dist_ region Hgrid) as [Hsq Hcell].
  destruct (cost_matrix_region_spec y x dist_ region Hgrid')
    as [Hsq' Hcell'].
  rewrite <-Hxy in Hsq', Hcell'. fold n in Hsq, Hcell, Hsq', Hcell'.
  rewrite !(dtw_tail_value fsqrt n) by done.
  assert (last_acc n (_cost_matrix_region y x dist_ region)
          = last_acc n (_cost_matrix_region x y dist_ region)) as ->.
  { unfold last_acc. rewrite <-dtw_rec_transpose. apply dtw_rec_ext.
    intros a b. destruct (decide (a < n ∧ b < n)%nat) as [[Ha Hb]|Hout].
    - unfold cost_fun. rewrite Hcell, Hcell' by lia.
      destruct (decide (in_region region (Z.of_nat b) (Z.of_nat a)))
        as [Hin|Hout].
      + rewrite decide_True by (apply Hsym; (done || lia)). apply Hdsym.
      + rewrite decide_False; [done|]. intros Hin. apply Hout.
        apply Hsym; (done || lia).
    - rewrite !(cost_fun_out n) by (done || lia). done. }
  assert (∃ w, final_value fsqrt d
                 (last_acc n (_cost_matrix_region x y dist_ region))
               = Ok w) as [w Hw].
  { unfold final_value. destruct (is_str d "square"); [|by eauto].
    apply math_sqrt_nonneg, dtw_rec_nonneg, (cost_fun_nonneg n); [done|].
    by apply cost_matrix_region_nonneg. }
  exists w. rewrite Hw. simpl. by rewrite return_results_dist.
Qed.

(** X29.  With a built-in distance, swapping the two series does not
    change the distance under a region that is symmetric (row [i] allowed
    in column [j] whenever row [j] is allowed in column [i]): this holds
    for [dtw_region] with such a region, and for [dtw_sakoechiba] with any
    valid window. *)
Theorem dtw_symmetric_region x y d :
  length x = length y → (2 ≤ length x)%nat → builtin d →
  let n := Z.of_nat (length x) in
  (∀ region,
     region_in_grid (length x) region →
     (∀ i j, 0 ≤ i < n → 0 ≤ j < n →
        in_region region i j → in_region region j i) →
     ∃ v,
       dtw_region fsqrt x y d (Some region) false false false
         = Ok (Single (IDist v)) ∧
       dtw_region fsqrt y x d (Some region) false false false
         = Ok (Single (IDist v))) ∧
  (∀ window_size,
     is_Some (resolved_window n window_size) →
     ∃ v,
       dtw_sakoechiba fsqrt x y d window_size false false false
         = Ok (Single (IDist v)) ∧
       dtw_sakoechiba fsqrt y x d window_size false false false
         = Ok (Single (IDist v))).
Proof.
  intros Hxy Hn Hd n. split.
  - intros region Hgrid Hsym.
    pose proof (region_in_grid_shape _ _ Hgrid) as Hshape.
    rewrite !(dtw_region_tail fsqrt) by (done || lia || by rewrite <-Hxy).
    by apply region_tail_symmetric.
  - intros w [w' Hw].
    destruct (sakoe_chiba_band_resolved n w w' ltac:(lia) Hw)
      as [Hw0 Hband].
    unfold dtw_sakoechiba. rewrite !check_input_ok by (done || lia).
    simpl. rewrite <-Hxy. fold n. rewrite Hband. simpl.
    apply region_tail_symmetric; [done|done|done| |].
    + apply bounded_in_grid; [by eapply sakoe_chiba_band_bounded|].
      destruct (length_band n w') as [H1 H2]; [lia|].
      unfold region_shape_ok. rewrite H1, H2. subst n.
      by rewrite Nat2Z.id, Nat.eqb_refl.
    + intros i j Hi Hj. unfold in_region, band. simpl.
      fold n in Hi, Hj. rewrite !int_get_fmap_seqZ by done. lia.
Qed.

End Symmetry.

Lemma dtw_symmetric_region_witness :
  (∀ region,
     region_in_grid (length doc_x) region →
     (∀ i j, 0 ≤ i < 3 → 0 ≤ j < 3 →
        in_region region i j → in_region region j i) →
     ∃ v,
       dtw_region floor_sqrt doc_x doc_y (DStr "square") (Some region)
         false false false = Ok (Single (IDist v)) ∧
       dtw_region floor_sqrt doc_y doc_x (DStr "square") (Some region)
         false false false = Ok (Single (IDist v))) ∧
  (∀ window_size,
     is_Some (resolved_window 3 window_size) →
     ∃ v,
       dtw_sakoechiba floor_sqrt doc_x doc_y (DStr "square") window_size
         false false false = Ok (Single (IDist v)) ∧
       dtw_sakoechiba floor_sqrt doc_y doc_x (DStr "square") window_size
         false false false = Ok (Single (IDist v))).
Proof.
  apply (dtw_symmetric_region floor_sqrt doc_x doc_y (DStr "square")).
  - reflexivity.
  - simpl. lia.
  - left. reflexivity.
Defined.

(** ** Regions on which the accumulation with a region is right *)

Lemma claimed_acc_out c R a b :
  R a b = false → claimed_acc c R a b = PInf.
Proof. intros H. destruct a, b; simpl; by rewrite H. Qed.

Lemma claimed_acc_step c R a b :
  R (S a) (S b) = true →
  claimed_acc c R (S a) (S b)
  = nadd (c (S a) (S b))
      (py_min (claimed_acc c R a b) (claimed_acc c R a (S b))
              (claimed_acc c R (S a) b)).
Proof. intros H. simpl. by rewrite H. Qed.

Lemma claimed_acc_corner c R :
  R 0%nat 0%nat = true → claimed_acc c R 0 0 = c 0%nat 0%nat.
Proof. intros H. simpl. by rewrite H. Qed.

(** With [region[1, 0] = 1] the two prefix assignments write the corner
    only. *)
Lemma pinned_base n (c : matrix) :
  (0 < n)%nat → square_mat n c →
  set_col_prefix
    (set_row_prefix (np_full (Z.of_nat n) PInf) 0
       (np_cumsum (take 1 (get_row c 0))))
    0 (np_cumsum (take 1 (get_col c 0)))
  = mat_set (np_full (Z.of_nat n) PInf) 0 0 (mat_get c 0 0).
Proof.
  intros Hn Hsq. rewrite (mat_get_in n c) by (done || lia).
  rewrite (mat_set_in n) by (done || lia || (rewrite <-(Nat2Z.id n) at 1;
    apply np_full_square; lia)).
  destruct Hsq as [Hlen Hrows]. destruct n as [|n']; [lia|].
  destruct c as [|row0 c']; [done|].
  apply Forall_cons in Hrows as [Hrow0 _].
  destruct row0 as [|r00 row0']; [done|].
  unfold np_full, set_col_prefix, set_row_prefix. rewrite Nat2Z.id. simpl.
  rewrite drop_0. f_equal.
  etrans; [apply (imap_ext _ (const id)); by intros|].
  by rewrite imap_const, list_fmap_id.
Qed.

Lemma accumulated_region_pinned_cells n (c : matrix) (region : int2) :
  (2 ≤ n)%nat → square_mat n c → region_in_grid n region →
  int_get region.1 0 = 0 → int_get region.2 0 = 1 →
  (∀ j, 1 ≤ j < Z.of_nat n → 1 ≤ int_get region.1 j) →
  let T := λ i j, claimed_acc (cost_fun c) (region_mask region)
                    (Z.to_nat i) (Z.to_nat j) in
  square_mat n (_accumulated_cost_matrix_region c region) ∧
  ∀ i j, 0 ≤ i < Z.of_nat n → 0 ≤ j < Z.of_nat n →
    mat_get (_accumulated_cost_matrix_region c region) i j = T i j.
Proof.
  intros Hn Hc Hgrid Hlo0 Hhi0 Hlo T.
  unfold _accumulated_cost_matrix_region. cbv zeta.
  pose proof Hc as [Hlen _]. rewrite Hlen, Hhi0.
  assert (slice_stop n 1 = 1%nat) as ->.
  { unfold slice_stop. rewrite decide_False by lia. lia. }
  rewrite pinned_base by (done || lia).
  set (N := Z.of_nat n). set (acc0 := mat_set _ 0 0 _).
  assert (square_mat n (np_full N PInf)) as Hfull.
  { unfold N. rewrite <-(Nat2Z.id n) at 1. apply np_full_square. lia. }
  assert (square_mat n acc0) as Hsq0 by (by apply mat_set_square).
  assert (∀ i j, 0 ≤ i < N → 0 ≤ j < N →
    mat_get acc0 i j
    = if decide (i = 0 ∧ j = 0) then mat_get c 0 0 else PInf) as Hbase.
  { intros i j Hi Hj. unfold acc0.
    rewrite (mat_get_set n) by (done || lia).
    case_decide; [done|]. by apply mat_get_full. }
  assert (∀ i j, 0 ≤ i → 0 ≤ j → ¬ in_region region i j → T i j = PInf)
    as HTout.
  { intros i j Hi Hj Hout. unfold T. apply claimed_acc_out.
    unfold region_mask. rewrite bool_decide_false; [done|].
    by rewrite !Z2Nat.id by lia. }
  assert (T 0 0 = mat_get c 0 0) as HT00.
  { unfold T. rewrite claimed_acc_corner; [done|].
    unfold region_mask. apply bool_decide_eq_true_2.
    unfold in_region. change (Z.of_nat 0) with 0. rewrite Hlo0, Hhi0.
    lia. }
  assert (∀ i j, 1 ≤ i → 1 ≤ j → in_region region i j →
    T i j = nadd (mat_get c i j)
              (py_min (T (i - 1) (j - 1)) (T (i - 1) j) (T i (j - 1))))
    as HTstep.
  { intros i j Hi Hj Hin. unfold T.
    assert (Z.to_nat i = S (Z.to_nat (i - 1))) as -> by lia.
    assert (Z.to_nat j = S (Z.to_nat (j - 1))) as -> by lia.
    rewrite claimed_acc_step.
    - unfold cost_fun. f_equal. f_equal; lia.
    - unfold region_mask. apply bool_decide_eq_true_2.
      by replace (Z.of_nat (S (Z.to_nat (i - 1)))) with i by lia;
        replace (Z.of_nat (S (Z.to_nat (j - 1)))) with j by lia. }
  pose (inv := λ (J : Z) (m : matrix), square_mat n m ∧
    ∀ i j, 0 ≤ i < N → 0 ≤ j < N →
      mat_get m i j = if decide (j < J) then T i j else PInf).
  match goal with |- square_mat n ?r ∧ _ => assert (inv N r) as [Hsq Hall] end.
  2:{ split; [done|]. intros i j Hi Hj. rewrite Hall by done.
      by rewrite decide_True by lia. }
  apply py_range_ind; [lia| |].
  - split; [done|]. intros i j Hi Hj. rewrite Hbase by done.
    destruct (decide (j < 1)) as [Hj0|Hj0].
    + assert (j = 0) as -> by lia.
      destruct (decide (i = 0)) as [->|Hi0].
      * by rewrite decide_True by done.
      * rewrite decide_False by lia. symmetry. apply HTout; [lia|lia|].
        unfold in_region. lia.
    + by rewrite decide_False by lia.
  - intros J m HJ [Hsq Hm].
    destruct (Hgrid) as (_ & _ & Hrange).
    destruct (Hrange J ltac:(lia)) as [_ Hhi].
    pose proof (Hlo J ltac:(lia)) as HloJ. fold N in Hhi.
    set (lo := int_get region.1 J) in *. set (hi := int_get region.2 J) in *.
    assert (∀ i, 0 ≤ i → ¬ (lo ≤ i < hi) → T i J = PInf) as HoutJ.
    { intros i Hi Hout. apply HTout; [lia|lia|done]. }
    destruct (decide (lo ≤ hi)) as [Hle|Hgt].
    + pose (inv' := λ (I : Z) (m : matrix), square_mat n m ∧
        ∀ i j, 0 ≤ i < N → 0 ≤ j < N →
          mat_get m i j
          = if decide (j < J ∨ (j = J ∧ i < I)) then T i j else PInf).
      match goal with |- inv _ ?r => assert (inv' hi r) as [Hsq' Hm'] end.
      { apply py_range_ind; [done| |].
        - split; [done|]. intros i j Hi Hj. rewrite Hm by done.
          destruct (decide (j < J)) as [Hlt|Hge].
          + by rewrite decide_True by lia.
          + destruct (decide (j = J ∧ i < lo)) as [[-> Hil]|Hn'].
            * rewrite decide_True by lia. symmetry. apply HoutJ; lia.
            * by rewrite decide_False by lia.
        - intros I m' HI [Hsq' Hm']. split; [by apply mat_set_square|].
          intros i j Hi Hj.
          rewrite (mat_get_set n) by (done || lia).
          destruct (decide (i = I ∧ j = J)) as [[-> ->]|Hne].
          + rewrite decide_True by lia.
            rewrite (Hm' (I - 1) (J - 1)), (Hm' (I - 1) J),
              (Hm' I (J - 1)) by lia.
            rewrite !decide_True by lia. symmetry. apply HTstep; [lia|lia|].
            unfold in_region. fold lo hi. lia.
          + rewrite Hm' by done.
            destruct (decide (j < J ∨ j = J ∧ i < I)) as [Hd|Hd].
            * by rewrite decide_True by lia.
            * by rewrite decide_False by lia. }
      split; [done|]. intros i j Hi Hj. rewrite Hm' by done.
      destruct (decide (j < J ∨ j = J ∧ i < hi)) as [Hd|Hd].
      * by rewrite decide_True by lia.
      * destruct (decide (j < J + 1)) as [Hj1|Hj1]; [|done].
        assert (j = J) as -> by lia. symmetry. apply HoutJ; lia.
    + rewrite py_range_empty by lia. simpl. split; [done|].
      intros i j Hi Hj. rewrite Hm by done.
      destruct (decide (j < J)) as [Hlt|Hge].
      * by rewrite decide_True by lia.
      * destruct (decide (j < J + 1)) as [Hj1|Hj1]; [|done].
        assert (j = J) as -> by lia. symmetry. apply HoutJ; lia.
Qed.

(** X30.  The accumulation with a region is right on regions that pin the
    first column and keep the other columns off the base row: for a square
    cost matrix with [n >= 2] rows and a region in the grid with
    [region[:, 0] = (0, 1)] and [region[0, j] >= 1] for [j >= 1],
    [accumulated_cost_matrix] with that region returns a matrix whose
    cells satisfy the recurrence with a region. *)
Theorem accumulated_region_pinned n (cost_mat : matrix) (region : int2) :
  (2 ≤ n)%nat → square_mat n cost_mat → region_in_grid n region →
  int_get region.1 0 = 0 → int_get region.2 0 = 1 →
  (∀ j, 1 ≤ j < Z.of_nat n → 1 ≤ int_get region.1 j) →
  ∃ acc,
    accumulated_cost_matrix cost_mat (Some region) = Ok acc ∧
    square_mat n acc ∧
    ∀ i j, (i < n)%nat → (j < n)%nat →
      mat_get acc (Z.of_nat i) (Z.of_nat j)
      = claimed_acc (cost_fun cost_mat) (region_mask region) i j.
Proof.
  intros Hn Hsq Hgrid Hlo0 Hhi0 Hlo.
  destruct (accumulated_region_pinned_cells n cost_mat region
              Hn Hsq Hgrid Hlo0 Hhi0 Hlo) as [Hsqa Hcells].
  exists (_accumulated_cost_matrix_region cost_mat region). split.
  - unfold accumulated_cost_matrix. rewrite (mat_shape_square n) by done.
    rewrite (proj2 (Nat.leb_le 2 n)) by done. simpl.
    rewrite Nat.eqb_refl. simpl.
    by rewrite (region_in_grid_shape _ _ Hgrid).
  - split; [done|]. intros i j Hi Hj. rewrite Hcells by lia.
    by rewrite !Nat2Z.id.
Qed.

Lemma accumulated_region_pinned_witness :
  ∃ acc,
    accumulated_cost_matrix wrap_cost
      (Some ([0; 1; 1; 2], [1; 3; 4; 4])) = Ok acc ∧
    square_mat 4 acc ∧
    ∀ i j, (i < 4)%nat → (j < 4)%nat →
      mat_get acc (Z.of_nat i) (Z.of_nat j)
      = claimed_acc (cost_fun wrap_cost)
          (region_mask ([0; 1; 1; 2], [1; 3; 4; 4])) i j.
Proof.
  apply (accumulated_region_pinned 4 wrap_cost ([0; 1; 1; 2], [1; 3; 4; 4])).
  - lia.
  - split; [reflexivity|]. repeat constructor.
  - split; [reflexivity|]. split; [reflexivity|]. intros j Hj.
    assert (j = 0 ∨ j = 1 ∨ j = 2 ∨ j = 3) as [-> | [-> | [-> | ->]]]
      by (simpl in Hj; lia); vm_compute; split; discriminate.
  - reflexivity.
  - reflexivity.
  - intros j Hj.
    assert (j = 1 ∨ j = 2 ∨ j = 3) as [-> | [-> | ->]]
      by (simpl in Hj; lia); vm_compute; discriminate.
Defined.
